(** * ChitFund calculator: schedule simulator and IRR solver

    A shallow embedding of [calculateIRR] and [calculateChitDetails] from
    [src/ChitFundApp.tsx].  The program is written once, over an interface
    [Number] for the JavaScript type [number]; the interface has two
    instances:

    - [xnum], the exact reading: rationals extended with [+Infinity],
      [-Infinity] and [NaN].  Finite arithmetic is exact; the special values
      follow IEEE-754.  General properties are proved on this instance.
    - [b64], IEEE-754 binary64 as specified by [SpecFloat]; the four
      arithmetic operations, comparisons, [Math.floor], [Math.round] and
      [Math.min] are bit-exact.  It is used to evaluate the program on
      concrete inputs.

    The file also embeds [formatIndianCurrency] of the same source file and
    the earlier [calculateChitDetails] of [unnamed/part_001]. *)

From Stdlib Require Import ZArith QArith Qround Qabs Qminmax List Bool Lia Lqa Psatz.
From Stdlib Require Import Floats.SpecFloat.
From Stdlib Require Import Sorted.
From Stdlib Require String Ascii DecimalString DecimalN.
Import (notations) Stdlib.Strings.String.
Import (notations) Stdlib.Strings.Ascii.
Import ListNotations.

Set Implicit Arguments.

(** ** The interface of JavaScript numbers *)

Class Number (num : Type) : Type := {
  of_Z : Z -> num;                    (* integer literals and loop counters *)
  add : num -> num -> num;
  sub : num -> num -> num;
  mul : num -> num -> num;
  div : num -> num -> num;
  neg : num -> num;                   (* unary minus *)
  Math_abs : num -> num;
  Math_floor : num -> num;
  Math_round : num -> num;
  Math_min : num -> num -> num;
  Math_pow : num -> nat -> num;       (* Math.pow at an integer exponent *)
  ltb : num -> num -> bool;           (* x < y *)
  leb : num -> num -> bool;           (* x <= y *)
  strict_eqb : num -> num -> bool;    (* x === y *)
  (* how often the body of [for (let i = 0; i < x; i++)] runs;
     [None] when the loop never ends (x = +Infinity) *)
  trip_count : num -> option nat
}.

Declare Scope js_scope.
Delimit Scope js_scope with js.
Notation "x + y" := (add x y) : js_scope.
Notation "x - y" := (sub x y) : js_scope.
Notation "x * y" := (mul x y) : js_scope.
Notation "x / y" := (div x y) : js_scope.
Notation "- x" := (neg x) : js_scope.
Notation "x <? y" := (ltb x y) : js_scope.
Notation "x >? y" := (ltb y x) : js_scope.
Notation "x <=? y" := (leb x y) : js_scope.
Notation "x === y" := (strict_eqb x y) (at level 70, no associativity) : js_scope.
Notation "' z" := (of_Z z) (at level 1, format "' z") : js_scope.

(** What a call can do besides returning: throw a [TypeError] (reading a
    property of [undefined]) or run for ever. *)
Inductive outcome (A : Type) : Type :=
| Returned (a : A)
| TypeError
| NoTermination.
Arguments TypeError {A}.
Arguments NoTermination {A}.

Inductive CommissionType : Type := monthly | onetime.

Section Program.

Context {num : Type} `{Number num}.
Local Open Scope js_scope.

(** A decimal literal [n / d], e.g. [0.01] is [decimal 1 100]. *)
Definition decimal (n d : Z) : num := 'n / 'd.

(** *** calculateIRR (lines 20-85) *)

(** The inner loop of the Newton-Raphson phase (lines 28-32): accumulates
    [npv] and [dnpv] over [cashFlows[t], cashFlows[t+1], ...]. *)
Fixpoint npv_dnpv_from (rate : num) (cashFlows : list num) (t : nat)
         (npv dnpv : num) : num * num :=
  match cashFlows with
  | [] => (npv, dnpv)
  | cf :: rest =>
      let discountFactor := Math_pow ('1 + rate) t in
      npv_dnpv_from rate rest (S t)
        (npv + cf / discountFactor)
        (dnpv - '(Z.of_nat t) * cf / Math_pow ('1 + rate) (t + 1))
  end.

(** The inner loops of the bisection phase (lines 63-65 and 73-75). *)
Fixpoint npv_from (rate : num) (cashFlows : list num) (t : nat) (npv : num) : num :=
  match cashFlows with
  | [] => npv
  | cf :: rest => npv_from rate rest (S t) (npv + cf / Math_pow ('1 + rate) t)
  end.

Inductive newton_exit : Type :=
| Converged (rate : num)     (* [return rate] at line 35 *)
| FellThrough.               (* [break] at line 40, or the loop ran out *)

(** The Newton-Raphson loop (lines 24-53); [n] iterations are left. *)
Fixpoint newton (cashFlows : list num) (tolerance : num) (n : nat) (rate : num)
  : newton_exit :=
  match n with
  | O => FellThrough
  | S n' =>
      let '(npv, dnpv) := npv_dnpv_from rate cashFlows 0 '0 '0 in
      if Math_abs npv <? tolerance then Converged rate
      else if Math_abs dnpv <? tolerance then FellThrough
      else
        let newRate := rate - npv / dnpv in
        if newRate <? - decimal 99 100 then newton cashFlows tolerance n' (- decimal 5 10)
        else if newRate >? '10 then newton cashFlows tolerance n' '1
        else newton cashFlows tolerance n' newRate
  end.

(** The bisection loop (lines 59-82); [n] iterations are left. *)
Fixpoint bisection (cashFlows : list num) (tolerance : num) (n : nat) (low high : num)
  : option num :=
  match n with
  | O => None
  | S n' =>
      let mid := (low + high) / '2 in
      let npv := npv_from mid cashFlows 0 '0 in
      if Math_abs npv <? tolerance then Some mid
      else
        let npvLow := npv_from low cashFlows 0 '0 in
        if npvLow * npv >? '0 then bisection cashFlows tolerance n' mid high
        else bisection cashFlows tolerance n' low mid
  end.

Definition calculateIRR_with (cashFlows : list num) (maxIterations : nat) (tolerance : num)
  : option num :=
  match newton cashFlows tolerance maxIterations (decimal 1 100) with
  | Converged rate => Some rate
  | FellThrough => bisection cashFlows tolerance maxIterations (- decimal 99 100) '10
  end.

(** The default arguments: [maxIterations = 100], [tolerance = 1e-7]. *)
Definition default_tolerance : num := decimal 1 10000000.
Definition calculateIRR (cashFlows : list num) : option num :=
  calculateIRR_with cashFlows 100 default_tolerance.

(** *** calculateChitDetails (lines 265-464) *)

(** [calcInputs] (lines 251-261).  [totalMembers] is an integer: the form sets
    it with [parseInt(...) || 0]. *)
Record CalcInputs : Type := {
  totalMembers : Z;
  monthlyContribution : num;
  firstWithdrawal : num;
  monthlyIncrement : num;
  commissionType : CommissionType;
  commissionRate : num;
  oneTimeCommission : num;
  loanInterestRate : num
}.

(** An element of [withdrawalSchedule] (lines 370-382). *)
Record MonthRecord : Type := {
  month : nat;
  withdrawalAmount : num;
  contributionPerMember : num;
  newContributions : num;
  carryOverFromPrevious : num;
  availablePool : num;
  actualWithdrawals : num;
  totalWithdrawn : num;
  remainingPool : num;
  remainingMembersAfter : num;
  isLastMonth : bool
}.

(** An element of [loanDetails] (lines 356-363). *)
Record LoanRecord : Type := {
  loan_month : nat;
  availableForLoan : num;
  loanAmount : num;
  interestRate : num;
  interestEarned : num;
  repaymentDue : num
}.

(** [interface MemberReturn] (lines 388-397). *)
Record MemberReturn : Type := {
  member : nat;
  withdrawalMonth : nat;
  totalContribution : num;
  withdrawal : num;
  netReturn : num;
  returnPercent : num;
  monthlyIRR : option num;
  annualizedIRR : option num
}.

(** The object returned by [calculateChitDetails]. *)
Record ChitDetails : Type := {
  duration : nat;
  totalPool : num;
  commissionPerMonth : num;
  totalCommission : num;
  netPoolPerMonth : num;
  withdrawalSchedule : list MonthRecord;
  totalMembersServed : num;
  finalCarryOver : num;
  loanDetails : list LoanRecord;
  totalLoanAmount : num;
  totalInterestEarned : num;
  memberReturns : list MemberReturn
}.

(** The object returned at lines 270-283. *)
Definition emptyDetails : ChitDetails := {|
  duration := 0;
  totalPool := '0;
  commissionPerMonth := '0;
  totalCommission := '0;
  netPoolPerMonth := '0;
  withdrawalSchedule := [];
  totalMembersServed := '0;
  finalCarryOver := '0;
  loanDetails := [];
  totalLoanAmount := '0;
  totalInterestEarned := '0;
  memberReturns := []
|}.

(** Lines 286-300: the values fixed before the loop.  [commission_unrounded]
    returns [(commissionPerMonth, totalCommission)]. *)
Definition totalPool_of (calcInputs : CalcInputs) : num :=
  '(totalMembers calcInputs) * monthlyContribution calcInputs.

Definition commission_unrounded (calcInputs : CalcInputs) : num * num :=
  let duration := '(totalMembers calcInputs) in
  match commissionType calcInputs with
  | monthly =>
      let commissionPerMonth := totalPool_of calcInputs * commissionRate calcInputs / '100 in
      (commissionPerMonth, commissionPerMonth * duration)
  | onetime =>
      (oneTimeCommission calcInputs / duration, oneTimeCommission calcInputs)
  end.

Definition netPoolPerMonth_of (calcInputs : CalcInputs) : num :=
  totalPool_of calcInputs - fst (commission_unrounded calcInputs).

(** The variables that live across iterations of the loop (lines 302-309). *)
Record LoopState : Type := {
  remainingMembers : num;
  carryOverPool : num;
  loanRepaymentDue : num;
  schedule_so_far : list MonthRecord;
  loans_so_far : list LoanRecord;
  totalLoanAmount_acc : num;
  totalInterestEarned_acc : num
}.

Definition initialState (calcInputs : CalcInputs) : LoopState := {|
  remainingMembers := '(totalMembers calcInputs);
  carryOverPool := '0;
  loanRepaymentDue := '0;
  schedule_so_far := [];
  loans_so_far := [];
  totalLoanAmount_acc := '0;
  totalInterestEarned_acc := '0
|}.

(** The variables local to one iteration (lines 312-351), unrounded. *)
Record MonthLocals : Type := {
  l_withdrawalAmount : num;
  l_effectiveCarryOver : num;
  l_currentMonthContribution : num;
  l_contributionPerMember : num;
  l_availablePool : num;
  l_isLastMonth : bool;
  l_actualWithdrawals : num;
  l_totalWithdrawn : num;
  l_remainingPool : num;
  l_lends : bool;               (* the test of line 348 *)
  l_loanAmount : num;
  l_interestEarned : num;
  l_nextMonthRepayment : num
}.

(** Lines 339-351: the withdrawals and the loan of an iteration, once the
    contributions and the pool of the month are known. *)
Definition withdraw_and_lend (calcInputs : CalcInputs) (loanUtilization : num)
           (st : LoopState) (withdrawalAmount effectiveCarryOver : num)
           (isLastMonth : bool)
           (currentMonthContribution contributionPerMember availablePool : num)
  : MonthLocals :=
  let maxWithdrawalsBasedOnPool := Math_floor (availablePool / withdrawalAmount) in
  let actualWithdrawals := Math_min maxWithdrawalsBasedOnPool (remainingMembers st) in
  let totalWithdrawn := withdrawalAmount * actualWithdrawals in
  let remainingPool := availablePool - totalWithdrawn in
  let lends := negb isLastMonth && (remainingPool >? '0) in
  let loanAmount := if lends then remainingPool * loanUtilization / '100 else '0 in
  let interestEarned :=
    if lends then loanAmount * loanInterestRate calcInputs / '100 else '0 in
  let nextMonthRepayment := if lends then loanAmount + interestEarned else '0 in
  {| l_withdrawalAmount := withdrawalAmount;
     l_effectiveCarryOver := effectiveCarryOver;
     l_currentMonthContribution := currentMonthContribution;
     l_contributionPerMember := contributionPerMember;
     l_availablePool := availablePool;
     l_isLastMonth := isLastMonth;
     l_actualWithdrawals := actualWithdrawals;
     l_totalWithdrawn := totalWithdrawn;
     l_remainingPool := remainingPool;
     l_lends := lends;
     l_loanAmount := loanAmount;
     l_interestEarned := interestEarned;
     l_nextMonthRepayment := nextMonthRepayment |}.

(** Lines 312-351 for iteration [i] entered in state [st]: lines 312-337
    fix the contributions and the pool, [withdraw_and_lend] does the rest. *)
Definition month_locals (calcInputs : CalcInputs) (loanUtilization : num)
           (i : nat) (st : LoopState) : MonthLocals :=
  let totalMembers := '(totalMembers calcInputs) in
  let commissionPerMonth := fst (commission_unrounded calcInputs) in
  let netPoolPerMonth := netPoolPerMonth_of calcInputs in
  let withdrawalAmount :=
    firstWithdrawal calcInputs + monthlyIncrement calcInputs * '(Z.of_nat i) in
  let effectiveCarryOver := carryOverPool st + loanRepaymentDue st in
  let totalRequiredForRemainingMembers := remainingMembers st * withdrawalAmount in
  let isLastMonth := totalRequiredForRemainingMembers <? netPoolPerMonth + effectiveCarryOver in
  let rest := withdraw_and_lend calcInputs loanUtilization st
                withdrawalAmount effectiveCarryOver isLastMonth in
  if isLastMonth then
    let requiredNet := totalRequiredForRemainingMembers - effectiveCarryOver in
    if requiredNet <=? '0 then rest '0 '0 effectiveCarryOver
    else
      let grossRequired := requiredNet + commissionPerMonth in
      let contributionPerMember := grossRequired / totalMembers in
      let totalGrossContribution := contributionPerMember * totalMembers in
      let currentMonthContribution := totalGrossContribution - commissionPerMonth in
      rest currentMonthContribution contributionPerMember
           (currentMonthContribution + effectiveCarryOver)
  else
    rest netPoolPerMonth (monthlyContribution calcInputs)
         (netPoolPerMonth + effectiveCarryOver).

(** The record pushed at lines 356-363. *)
Definition loan_record (calcInputs : CalcInputs) (i : nat) (l : MonthLocals) : LoanRecord := {|
  loan_month := i + 1;
  availableForLoan := Math_round (l_remainingPool l);
  loanAmount := Math_round (l_loanAmount l);
  interestRate := loanInterestRate calcInputs;
  interestEarned := Math_round (l_interestEarned l);
  repaymentDue := Math_round (l_nextMonthRepayment l)
|}.

(** The record pushed at lines 370-382; [remainingMembers] is the value
    already updated at line 368. *)
Definition month_record (i : nat) (l : MonthLocals) (remainingMembers : num) : MonthRecord := {|
  month := i + 1;
  withdrawalAmount := Math_round (l_withdrawalAmount l);
  contributionPerMember := Math_round (l_contributionPerMember l);
  newContributions := Math_round (l_currentMonthContribution l);
  carryOverFromPrevious := Math_round (l_effectiveCarryOver l);
  availablePool := Math_round (l_availablePool l);
  actualWithdrawals := l_actualWithdrawals l;
  totalWithdrawn := Math_round (l_totalWithdrawn l);
  remainingPool := Math_round (l_remainingPool l);
  remainingMembersAfter := remainingMembers;
  isLastMonth := l_isLastMonth l
|}.

(** The body of the loop up to line 382: the state after iteration [i]. *)
Definition loop_body (calcInputs : CalcInputs) (loanUtilization : num)
           (i : nat) (st : LoopState) : LoopState :=
  let l := month_locals calcInputs loanUtilization i st in
  let remainingMembers' := remainingMembers st - l_actualWithdrawals l in
  {| remainingMembers := remainingMembers';
     carryOverPool := l_remainingPool l - l_loanAmount l;
     loanRepaymentDue := l_nextMonthRepayment l;
     schedule_so_far := schedule_so_far st ++ [month_record i l remainingMembers'];
     loans_so_far :=
       if l_lends l then loans_so_far st ++ [loan_record calcInputs i l]
       else loans_so_far st;
     totalLoanAmount_acc :=
       if l_lends l then totalLoanAmount_acc st + l_loanAmount l
       else totalLoanAmount_acc st;
     totalInterestEarned_acc :=
       if l_lends l then totalInterestEarned_acc st + l_interestEarned l
       else totalInterestEarned_acc st |}.

(** The loop of lines 311-385,
    [for (let i = 0; i < duration && remainingMembers > 0; i++) { ...; if (remainingMembers === 0) break; }],
    with [left = duration - i] iterations still allowed by [i < duration]. *)
Fixpoint simulate_from (calcInputs : CalcInputs) (loanUtilization : num)
         (left i : nat) (st : LoopState) : LoopState :=
  match left with
  | O => st
  | S left' =>
      if remainingMembers st >? '0 then
        let st' := loop_body calcInputs loanUtilization i st in
        if remainingMembers st' === '0 then st'
        else simulate_from calcInputs loanUtilization left' (S i) st'
      else st
  end.

Definition simulate (calcInputs : CalcInputs) (loanUtilization : num) : LoopState :=
  simulate_from calcInputs loanUtilization
    (Z.to_nat (totalMembers calcInputs)) 0 (initialState calcInputs).

(** Lines 403-406. *)
Definition totalContributionForAllMembers (withdrawalSchedule : list MonthRecord) : num :=
  fold_left (fun sum schedule => sum + contributionPerMember schedule) withdrawalSchedule '0.

(** Lines 416-428: the cash flows of a member who withdraws in [schedule]. *)
Definition cashFlows_of (withdrawalSchedule : list MonthRecord) (schedule : MonthRecord)
  : list num :=
  map (fun '(month0, entry) =>
         let contribution := - contributionPerMember entry in
         if Nat.eqb (month0 + 1) (month schedule)
         then withdrawalAmount schedule + contribution
         else contribution)
      (combine (seq 0 (length withdrawalSchedule)) withdrawalSchedule).

(** Lines 411-445: the entry pushed for member [memberNumber]. *)
Definition member_return (withdrawalSchedule : list MonthRecord) (schedule : MonthRecord)
           (memberNumber : nat) : MemberReturn :=
  let total := totalContributionForAllMembers withdrawalSchedule in
  let netReturn := withdrawalAmount schedule - total in
  let returnPercent := netReturn / total * '100 in
  let monthlyIRR := calculateIRR (cashFlows_of withdrawalSchedule schedule) in
  let annualizedIRR :=
    match monthlyIRR with
    | Some r => Some ((Math_pow ('1 + r) 12 - '1) * '100)
    | None => None
    end in
  {| member := memberNumber;
     withdrawalMonth := month schedule;
     totalContribution := Math_round total;
     withdrawal := withdrawalAmount schedule;
     netReturn := Math_round netReturn;
     returnPercent := returnPercent;
     monthlyIRR := match monthlyIRR with Some r => Some (r * '100) | None => None end;
     annualizedIRR := annualizedIRR |}.

(** The outer loop of lines 408-448 over [todo], a suffix of the schedule. *)
Fixpoint member_returns_from (withdrawalSchedule todo : list MonthRecord)
         (memberNumber : nat) : outcome (list MemberReturn) :=
  match todo with
  | [] => Returned []
  | schedule :: rest =>
      match trip_count (actualWithdrawals schedule) with
      | None => NoTermination
      | Some k =>
          match member_returns_from withdrawalSchedule rest (memberNumber + k) with
          | Returned later =>
              Returned (map (member_return withdrawalSchedule schedule)
                            (seq memberNumber k) ++ later)
          | TypeError => TypeError
          | NoTermination => NoTermination
          end
      end
  end.

Definition calculateChitDetails (calcInputs : CalcInputs) (loanUtilization : num)
  : outcome ChitDetails :=
  if (totalMembers calcInputs <=? 0)%Z then Returned emptyDetails
  else
    let '(commissionPerMonth, totalCommission) := commission_unrounded calcInputs in
    let final := simulate calcInputs loanUtilization in
    let withdrawalSchedule := schedule_so_far final in
    match member_returns_from withdrawalSchedule withdrawalSchedule 1 with
    | Returned memberReturns =>
        (* withdrawalSchedule[withdrawalSchedule.length - 1] *)
        match nth_error withdrawalSchedule (length withdrawalSchedule - 1) with
        | None => TypeError
        | Some lastRecord =>
            Returned {|
              duration := length withdrawalSchedule;
              totalPool := totalPool_of calcInputs;
              commissionPerMonth := Math_round commissionPerMonth;
              totalCommission := Math_round totalCommission;
              netPoolPerMonth := netPoolPerMonth_of calcInputs;
              withdrawalSchedule := withdrawalSchedule;
              totalMembersServed :=
                '(totalMembers calcInputs) - remainingMembersAfter lastRecord;
              finalCarryOver := remainingPool lastRecord;
              loanDetails := loans_so_far final;
              totalLoanAmount := Math_round (totalLoanAmount_acc final);
              totalInterestEarned := Math_round (totalInterestEarned_acc final);
              memberReturns := memberReturns
            |}
        end
    | TypeError => TypeError
    | NoTermination => NoTermination
    end.

End Program.

Arguments CalcInputs num : clear implicits.
Arguments MonthRecord num : clear implicits.
Arguments LoanRecord num : clear implicits.
Arguments MemberReturn num : clear implicits.
Arguments ChitDetails num : clear implicits.
Arguments LoopState num : clear implicits.
Arguments MonthLocals num : clear implicits.
Arguments newton_exit num : clear implicits.

(** ** The exact reading of [number] *)

Inductive xnum : Type :=
| Fin (q : Q)      (* a finite value; zero is unsigned and divides like +0 *)
| PInf             (* +Infinity *)
| NInf             (* -Infinity *)
| NaN.

(** Finite results are kept in lowest terms. *)
Definition fin (q : Q) : xnum := Fin (Qred q).

Fixpoint qpow (q : Q) (n : nat) : Q :=
  match n with
  | O => 1
  | S n' => q * qpow q n'
  end.

Definition xneg (x : xnum) : xnum :=
  match x with
  | Fin a => fin (- a)
  | PInf => NInf
  | NInf => PInf
  | NaN => NaN
  end.

Definition xadd (x y : xnum) : xnum :=
  match x, y with
  | NaN, _ | _, NaN => NaN
  | Fin a, Fin b => fin (a + b)
  | PInf, NInf | NInf, PInf => NaN
  | PInf, _ | _, PInf => PInf
  | NInf, _ | _, NInf => NInf
  end.

Definition xsub (x y : xnum) : xnum :=
  match x, y with
  | Fin a, Fin b => fin (a - b)
  | _, _ => xadd x (xneg y)
  end.

(** [signed_inf c]: the infinity of sign [c], [NaN] for [Eq] (0 * Infinity). *)
Definition signed_inf (c : comparison) : xnum :=
  match c with
  | Gt => PInf
  | Lt => NInf
  | Eq => NaN
  end.

Definition xmul (x y : xnum) : xnum :=
  match x, y with
  | NaN, _ | _, NaN => NaN
  | Fin a, Fin b => fin (a * b)
  | Fin a, PInf | PInf, Fin a => signed_inf (a ?= 0)
  | Fin a, NInf | NInf, Fin a => signed_inf (0 ?= a)
  | PInf, PInf | NInf, NInf => PInf
  | PInf, NInf | NInf, PInf => NInf
  end.

Definition xdiv (x y : xnum) : xnum :=
  match x, y with
  | NaN, _ | _, NaN => NaN
  | Fin a, Fin b =>
      if Qeq_bool b 0 then signed_inf (a ?= 0) else fin (a / b)
  | Fin _, (PInf | NInf) => Fin 0
  | PInf, Fin b => if Qle_bool 0 b then PInf else NInf
  | NInf, Fin b => if Qle_bool 0 b then NInf else PInf
  | (PInf | NInf), (PInf | NInf) => NaN
  end.

Definition xabs (x : xnum) : xnum :=
  match x with
  | Fin a => fin (Qabs a)
  | PInf | NInf => PInf
  | NaN => NaN
  end.

Definition xfloor (x : xnum) : xnum :=
  match x with
  | Fin a => Fin (inject_Z (Qfloor a))
  | _ => x
  end.

(** [Math.round]: the nearest integer, ties towards +Infinity. *)
Definition xround (x : xnum) : xnum :=
  match x with
  | Fin a => Fin (inject_Z (Qfloor (a + (1 # 2))))
  | _ => x
  end.

Definition xmin (x y : xnum) : xnum :=
  match x, y with
  | NaN, _ | _, NaN => NaN
  | NInf, _ | _, NInf => NInf
  | PInf, z | z, PInf => z
  | Fin a, Fin b => if Qle_bool a b then x else y
  end.

Definition xpow (x : xnum) (n : nat) : xnum :=
  match n with
  | O => Fin 1
  | _ =>
      match x with
      | Fin a => fin (qpow a n)
      | PInf => PInf
      | NInf => if Nat.even n then PInf else NInf
      | NaN => NaN
      end
  end.

Definition xltb (x y : xnum) : bool :=
  match x, y with
  | NaN, _ | _, NaN => false
  | Fin a, Fin b => negb (Qle_bool b a)
  | _, NInf | PInf, _ => false
  | NInf, _ | _, PInf => true
  end.

Definition xleb (x y : xnum) : bool :=
  match x, y with
  | NaN, _ | _, NaN => false
  | Fin a, Fin b => Qle_bool a b
  | NInf, _ | _, PInf => true
  | _, NInf | PInf, _ => false
  end.

Definition xeqb (x y : xnum) : bool :=
  match x, y with
  | Fin a, Fin b => Qeq_bool a b
  | PInf, PInf | NInf, NInf => true
  | _, _ => false
  end.

Definition xtrip_count (x : xnum) : option nat :=
  match x with
  | Fin a => Some (Z.to_nat (Qceiling a))
  | PInf => None
  | NInf | NaN => Some 0%nat
  end.

#[global] Instance xnum_Number : Number xnum := {|
  of_Z := fun z => Fin (inject_Z z);
  add := xadd;
  sub := xsub;
  mul := xmul;
  div := xdiv;
  neg := xneg;
  Math_abs := xabs;
  Math_floor := xfloor;
  Math_round := xround;
  Math_min := xmin;
  Math_pow := xpow;
  ltb := xltb;
  leb := xleb;
  strict_eqb := xeqb;
  trip_count := xtrip_count
|}.

(** A value that is a number and not an infinity. *)
Definition is_finite (x : xnum) : bool :=
  match x with
  | Fin _ => true
  | _ => false
  end.

(** ** IEEE-754 binary64 *)

Definition b64 : Type := spec_float.
Definition prec : Z := 53.
Definition emax : Z := 1024.

(** Exact for [|z| <= 2^53], correctly rounded beyond. *)
Definition b64_of_Z (z : Z) : b64 := binary_normalize prec emax z 0 false.

Definition b64_floor (x : b64) : b64 :=
  match x with
  | S754_finite s m e =>
      if (0 <=? e)%Z then x
      else
        let q := Z.shiftr (Zpos m) (- e) in
        let exact := (Z.shiftl q (- e) =? Zpos m)%Z in
        if s then binary_normalize prec emax (- (if exact then q else q + 1)) 0 true
        else binary_normalize prec emax q 0 false
  | _ => x
  end.

Definition b64_round (x : b64) : b64 :=
  match x with
  | S754_finite s m e =>
      if (0 <=? e)%Z then x
      else
        let sm := if s then Zneg m else Zpos m in
        binary_normalize prec emax ((2 * sm + 2 ^ (- e)) / 2 ^ (- e + 1)) 0 s
  | _ => x
  end.

Definition b64_min (x y : b64) : b64 :=
  match SFcompare x y with
  | None => S754_nan
  | Some Lt => x
  | Some Gt => y
  | Some Eq => match x with S754_zero true => x | _ => y end
  end.

(** ECMAScript leaves the precision of [Math.pow] to the implementation;
    repeated multiplication stands in for it.  It is exact at exponents 0
    and 1, and no evaluation of the schedule depends on it. *)
Fixpoint b64_pow (x : b64) (n : nat) : b64 :=
  match n with
  | O => b64_of_Z 1
  | S n' => SFmul prec emax x (b64_pow x n')
  end.

(** The counter [i] stops growing at 2^53, so a bound above it is never
    reached. *)
Definition b64_trip_count (x : b64) : option nat :=
  match x with
  | S754_finite false m e =>
      if SFltb (b64_of_Z (2 ^ 53)) x then None
      else
        if (0 <=? e)%Z then Some (Z.to_nat (Zpos m * 2 ^ e))
        else
          let q := Z.shiftr (Zpos m) (- e) in
          Some (Z.to_nat (if (Z.shiftl q (- e) =? Zpos m)%Z then q else q + 1))
  | S754_infinity false => None
  | _ => Some 0%nat
  end.

#[global] Instance b64_Number : Number b64 := {|
  of_Z := b64_of_Z;
  add := SFadd prec emax;
  sub := SFsub prec emax;
  mul := SFmul prec emax;
  div := SFdiv prec emax;
  neg := SFopp;
  Math_abs := SFabs;
  Math_floor := b64_floor;
  Math_round := b64_round;
  Math_min := b64_min;
  Math_pow := b64_pow;
  ltb := SFltb;
  leb := SFleb;
  strict_eqb := SFeqb;
  trip_count := b64_trip_count
|}.

(** A binary64 value that is neither NaN nor an infinity. *)
Definition b64_is_finite (x : b64) : bool :=
  match x with
  | S754_zero _ | S754_finite _ _ _ => true
  | _ => false
  end.

(** ** Derived notions of the program *)

Section Derived.
Context {num : Type} `{Number num}.

(** The sum of [actualWithdrawals] over a schedule. *)
Definition sum_actualWithdrawals (withdrawalSchedule : list (MonthRecord num)) : num :=
  fold_left (fun sum schedule => add sum (actualWithdrawals schedule)) withdrawalSchedule (of_Z 0).

(** [remainingMembers] on entry of the iteration that pushed record [n]. *)
Definition remaining_before (calcInputs : CalcInputs num)
           (withdrawalSchedule : list (MonthRecord num)) (n : nat) : num :=
  match n with
  | O => of_Z (totalMembers calcInputs)
  | S m =>
      match nth_error withdrawalSchedule m with
      | Some previous => remainingMembersAfter previous
      | None => of_Z (totalMembers calcInputs)
      end
  end.

(** The fields of the object built at lines 450-463 from the final state. *)
Definition details_of (calcInputs : CalcInputs num) (final : LoopState num)
           (memberReturns : list (MemberReturn num)) (lastRecord : MonthRecord num)
  : ChitDetails num := {|
  duration := length (schedule_so_far final);
  totalPool := totalPool_of calcInputs;
  commissionPerMonth := Math_round (fst (commission_unrounded calcInputs));
  totalCommission := Math_round (snd (commission_unrounded calcInputs));
  netPoolPerMonth := netPoolPerMonth_of calcInputs;
  withdrawalSchedule := schedule_so_far final;
  totalMembersServed := sub (of_Z (totalMembers calcInputs)) (remainingMembersAfter lastRecord);
  finalCarryOver := remainingPool lastRecord;
  loanDetails := loans_so_far final;
  totalLoanAmount := Math_round (totalLoanAmount_acc final);
  totalInterestEarned := Math_round (totalInterestEarned_acc final);
  memberReturns := memberReturns
|}.
End Derived.

Section Periods.
Context {num : Type} `{Number num}.
Variable calcInputs : CalcInputs num.
Variable loanUtilization : num.

(** The state in which iteration [k] of the loop is entered, when it is. *)
Fixpoint state_entering (k : nat) : LoopState num :=
  match k with
  | O => initialState calcInputs
  | S k' => loop_body calcInputs loanUtilization k' (state_entering k')
  end.

(** The unrounded local variables of iteration [k]. *)
Definition locals_in (k : nat) : MonthLocals num :=
  month_locals calcInputs loanUtilization k (state_entering k).

(** The record that iteration [k] pushes. *)
Definition record_of (k : nat) : MonthRecord num :=
  month_record k (locals_in k) (remainingMembers (state_entering (S k))).
End Periods.

(** ** The rational reading of a run

    On finite values the exact instance computes with rationals.  The
    definitions below describe one period and a whole run directly in [Q];
    the lemmas of the second part show that the program computes them. *)

Open Scope Q_scope.

Definition val (x : xnum) : Q := match x with Fin q => q | _ => 0 end.

Definition is_num (x : xnum) (q : Q) : Prop :=
  match x with
  | Fin a => a == q
  | _ => False
  end.

Definition Qltb (a b : Q) : bool := negb (Qle_bool b a).

Record finite_inputs (calcInputs : CalcInputs xnum) (loanUtilization : xnum) : Prop := {
  fin_monthlyContribution : is_finite (monthlyContribution calcInputs) = true;
  fin_firstWithdrawal : is_finite (firstWithdrawal calcInputs) = true;
  fin_monthlyIncrement : is_finite (monthlyIncrement calcInputs) = true;
  fin_commissionRate : is_finite (commissionRate calcInputs) = true;
  fin_oneTimeCommission : is_finite (oneTimeCommission calcInputs) = true;
  fin_loanInterestRate : is_finite (loanInterestRate calcInputs) = true;
  fin_loanUtilization : is_finite loanUtilization = true
}.

Section RationalReading.

Variable calcInputs : CalcInputs xnum.
Variable loanUtilization : xnum.

Definition q_members : Q := inject_Z (totalMembers calcInputs).
Definition q_totalPool : Q := q_members * val (monthlyContribution calcInputs).
Definition q_commission : Q :=
  match commissionType calcInputs with
  | monthly => q_totalPool * val (commissionRate calcInputs) / 100
  | onetime => val (oneTimeCommission calcInputs) / q_members
  end.
Definition q_netPool : Q := q_totalPool - q_commission.
Definition q_withdrawal (i : nat) : Q :=
  val (firstWithdrawal calcInputs) + val (monthlyIncrement calcInputs) * inject_Z (Z.of_nat i).

Record QState : Type := { q_remaining : Q; q_carry : Q; q_due : Q }.

Record QLocals : Type := {
  q_effectiveCarryOver : Q;
  q_isLast : bool;
  q_contribution : Q;
  q_perMember : Q;
  q_available : Q;
  q_actual : Q;
  q_withdrawn : Q;
  q_remainingPool : Q;
  q_lends : bool;
  q_loan : Q;
  q_interest : Q;
  q_repayment : Q
}.

Definition q_withdraw_and_lend (s : QState) (w e : Q) (last : bool)
           (contribution perMember available : Q) : QLocals :=
  let actual := Qmin (inject_Z (Qfloor (available / w))) (q_remaining s) in
  let pool := available - w * actual in
  let lends := negb last && Qltb 0 pool in
  let loan := if lends then pool * val loanUtilization / 100 else 0 in
  let interest := if lends then loan * val (loanInterestRate calcInputs) / 100 else 0 in
  {| q_effectiveCarryOver := e;
     q_isLast := last;
     q_contribution := contribution;
     q_perMember := perMember;
     q_available := available;
     q_actual := actual;
     q_withdrawn := w * actual;
     q_remainingPool := pool;
     q_lends := lends;
     q_loan := loan;
     q_interest := interest;
     q_repayment := if lends then loan + interest else 0 |}.

Definition q_locals (i : nat) (s : QState) : QLocals :=
  let w := q_withdrawal i in
  let e := q_carry s + q_due s in
  let required := q_remaining s * w in
  let last := Qltb required (q_netPool + e) in
  let rest := q_withdraw_and_lend s w e last in
  if last then
    if Qle_bool (required - e) 0 then rest 0 0 e
    else
      let perMember := (required - e + q_commission) / q_members in
      let contribution := perMember * q_members - q_commission in
      rest contribution perMember (contribution + e)
  else rest q_netPool (val (monthlyContribution calcInputs)) (q_netPool + e).

Definition q_step (i : nat) (s : QState) : QState :=
  let l := q_locals i s in
  {| q_remaining := q_remaining s - q_actual l;
     q_carry := q_remainingPool l - q_loan l;
     q_due := q_repayment l |}.

Definition state_is (st : LoopState xnum) (s : QState) : Prop :=
  is_num (remainingMembers st) (q_remaining s) /\
  is_num (carryOverPool st) (q_carry s) /\
  is_num (loanRepaymentDue st) (q_due s).

Definition locals_are (i : nat) (l : MonthLocals xnum) (q : QLocals) : Prop :=
  is_num (l_withdrawalAmount l) (q_withdrawal i) /\
  is_num (l_effectiveCarryOver l) (q_effectiveCarryOver q) /\
  is_num (l_currentMonthContribution l) (q_contribution q) /\
  is_num (l_contributionPerMember l) (q_perMember q) /\
  is_num (l_availablePool l) (q_available q) /\
  l_isLastMonth l = q_isLast q /\
  is_num (l_actualWithdrawals l) (q_actual q) /\
  is_num (l_totalWithdrawn l) (q_withdrawn q) /\
  is_num (l_remainingPool l) (q_remainingPool q) /\
  l_lends l = q_lends q /\
  is_num (l_loanAmount l) (q_loan q) /\
  is_num (l_interestEarned l) (q_interest q) /\
  is_num (l_nextMonthRepayment l) (q_repayment q).

End RationalReading.

Definition Qround (q : Q) : Q := inject_Z (Qfloor (q + (1 # 2))).

Section RationalRun.

Variable calcInputs : CalcInputs xnum.
Variable loanUtilization : xnum.

(** The iterations that the loop runs from rational state [s]: the index and
    the state on entry of each. *)
Fixpoint q_trace (left i : nat) (s : QState) : list (nat * QState) :=
  match left with
  | O => []
  | S left' =>
      if Qltb 0 (q_remaining s) then
        let s' := q_step calcInputs loanUtilization i s in
        (i, s) :: (if Qeq_bool (q_remaining s') 0 then [] else q_trace left' (S i) s')
      else []
  end.

(** The rational state in which the loop exits. *)
Fixpoint q_final (left i : nat) (s : QState) : QState :=
  match left with
  | O => s
  | S left' =>
      if Qltb 0 (q_remaining s) then
        let s' := q_step calcInputs loanUtilization i s in
        if Qeq_bool (q_remaining s') 0 then s' else q_final left' (S i) s'
      else s
  end.

Definition q_initial : QState :=
  {| q_remaining := q_members calcInputs; q_carry := 0; q_due := 0 |}.

(** [record_is r (i, s)]: [r] is the record of iteration [i] entered in
    rational state [s]. *)
Definition record_is (r : MonthRecord xnum) (entry : nat * QState) : Prop :=
  let '(i, s) := entry in
  let l := q_locals calcInputs loanUtilization i s in
  month r = (i + 1)%nat /\
  is_num (withdrawalAmount r) (Qround (q_withdrawal calcInputs i)) /\
  is_num (contributionPerMember r) (Qround (q_perMember l)) /\
  is_num (newContributions r) (Qround (q_contribution l)) /\
  is_num (carryOverFromPrevious r) (Qround (q_effectiveCarryOver l)) /\
  is_num (availablePool r) (Qround (q_available l)) /\
  is_num (actualWithdrawals r) (q_actual l) /\
  is_num (totalWithdrawn r) (Qround (q_withdrawn l)) /\
  is_num (remainingPool r) (Qround (q_remainingPool l)) /\
  is_num (remainingMembersAfter r) (q_remaining s - q_actual l) /\
  isLastMonth r = q_isLast l.

End RationalRun.

Definition is_integer (q : Q) : Prop := exists k : Z, q == inject_Z k.

(** A rational state with no negative member count and no debt. *)
Definition solvent (s : QState) : Prop := 0 <= q_remaining s /\ 0 <= q_carry s + q_due s.

Section RationalTotals.

Variable calcInputs : CalcInputs xnum.
Variable loanUtilization : xnum.

(** The members paid over the iterations [entries]. *)
Definition q_paid (entries : list (nat * QState)) : Q :=
  fold_right (fun e acc => q_actual (q_locals calcInputs loanUtilization (fst e) (snd e)) + acc)
             0 entries.

(** The iterations of the whole run, and the state in which it ends. *)
Definition the_trace : list (nat * QState) :=
  q_trace calcInputs loanUtilization (Z.to_nat (totalMembers calcInputs)) 0
          (q_initial calcInputs).

Definition the_final : QState :=
  q_final calcInputs loanUtilization (Z.to_nat (totalMembers calcInputs)) 0
          (q_initial calcInputs).

End RationalTotals.

(** ** The rational reading of the IRR solver *)

(** The rational reading of the inner loops of [calculateIRR]. *)
Fixpoint q_npv_from (x : Q) (cashFlows : list Q) (t : nat) (npv : Q) : Q :=
  match cashFlows with
  | [] => npv
  | cf :: rest => q_npv_from x rest (S t) (npv + cf / qpow (1 + x) t)
  end.

Fixpoint q_dnpv_from (x : Q) (cashFlows : list Q) (t : nat) (dnpv : Q) : Q :=
  match cashFlows with
  | [] => dnpv
  | cf :: rest =>
      q_dnpv_from x rest (S t) (dnpv - inject_Z (Z.of_nat t) * cf / qpow (1 + x) (t + 1))
  end.

Definition q_npv (cashFlows : list Q) (x : Q) : Q := q_npv_from x cashFlows 0 0.

(** The bracket of the solver, [-0.99 <= x <= 10]. *)
Definition in_bracket (x : Q) : Prop := - (99 # 100) <= x /\ x <= 10.

Section RoundTrip.
Context {num : Type} `{Number num}.

(** The synthetic sequence [[-100, 0, 0, 100 * (1 + r)^3]]. *)
Definition round_trip_flows (r : num) : list num :=
  [of_Z (-100); of_Z 0; of_Z 0; mul (of_Z 100) (Math_pow (add (of_Z 1) r) 3)].

(** The solver returns a rate for the synthetic sequence, and the rate is
    within the default tolerance of [r]. *)
Definition round_trip_succeeds (r : num) : bool :=
  match calculateIRR (round_trip_flows r) with
  | Some x => ltb (Math_abs (sub x r)) default_tolerance
  | None => false
  end.

End RoundTrip.

Definition q_round_trip_flows (r : Q) : list Q :=
  [inject_Z (-100); inject_Z 0; inject_Z 0; inject_Z 100 * qpow (1 + r) 3].

(** A distance to the root below which the net present value of the
    synthetic sequence is below the tolerance. *)
Definition close_enough : Q := 1 # 1000000000000000000.

(** ** States and results with special values *)

(** A state from which every later pool is [NaN]. *)
Definition poisoned (st : LoopState xnum) : Prop := carryOverPool st = NaN.

(** A state whose three numbers are finite. *)
Definition finite_state (st : LoopState xnum) : Prop := exists s, state_is st s.

(** The inner loop of lines 410-447 ends for this record. *)
Definition countable (r : MonthRecord xnum) : Prop :=
  trip_count (actualWithdrawals r) <> None.

Definition month_record_finite (r : MonthRecord xnum) : bool :=
  is_finite (withdrawalAmount r) && is_finite (contributionPerMember r) &&
  is_finite (newContributions r) && is_finite (carryOverFromPrevious r) &&
  is_finite (availablePool r) && is_finite (actualWithdrawals r) &&
  is_finite (totalWithdrawn r) && is_finite (remainingPool r) &&
  is_finite (remainingMembersAfter r).

Definition loan_record_finite (l : LoanRecord xnum) : bool :=
  is_finite (availableForLoan l) && is_finite (loanAmount l) &&
  is_finite (interestRate l) && is_finite (interestEarned l) &&
  is_finite (repaymentDue l).

Definition optional_finite (x : option xnum) : bool :=
  match x with
  | Some v => is_finite v
  | None => true
  end.

Definition member_return_finite (m : MemberReturn xnum) : bool :=
  is_finite (totalContribution m) && is_finite (withdrawal m) &&
  is_finite (netReturn m) && is_finite (returnPercent m) &&
  optional_finite (monthlyIRR m) && optional_finite (annualizedIRR m).

(** Every numeric field outside [memberReturns] is finite. *)
Definition schedule_finite (r : ChitDetails xnum) : bool :=
  is_finite (totalPool r) && is_finite (commissionPerMonth r) &&
  is_finite (totalCommission r) && is_finite (netPoolPerMonth r) &&
  is_finite (totalMembersServed r) && is_finite (finalCarryOver r) &&
  is_finite (totalLoanAmount r) && is_finite (totalInterestEarned r) &&
  forallb month_record_finite (withdrawalSchedule r) &&
  forallb loan_record_finite (loanDetails r).

Definition ledger_finite (st : LoopState xnum) : Prop :=
  forallb loan_record_finite (loans_so_far st) = true /\
  is_finite (totalLoanAmount_acc st) = true /\
  is_finite (totalInterestEarned_acc st) = true.

Close Scope Q_scope.

(** ** Concrete inputs *)

Section Scenarios.
Context {num : Type} `{Number num}.

(** The inputs of the form as it opens (lines 251-263), with
    [loanUtilization = 50]. *)
Definition default_inputs : CalcInputs num := {|
  totalMembers := 20;
  monthlyContribution := of_Z 5000;
  firstWithdrawal := of_Z 80000;
  monthlyIncrement := of_Z 1000;
  commissionType := monthly;
  commissionRate := of_Z 5;
  oneTimeCommission := of_Z 10000;
  loanInterestRate := of_Z 2
|}.

(** Two members whose pool never reaches the withdrawal amount. *)
Definition unaffordable_inputs : CalcInputs num := {|
  totalMembers := 2;
  monthlyContribution := of_Z 100;
  firstWithdrawal := of_Z 1000;
  monthlyIncrement := of_Z 0;
  commissionType := monthly;
  commissionRate := of_Z 5;
  oneTimeCommission := of_Z 0;
  loanInterestRate := of_Z 2
|}.

(** The default form with both withdrawal fields at 0. *)
Definition zero_withdrawal_inputs : CalcInputs num := {|
  totalMembers := 20;
  monthlyContribution := of_Z 5000;
  firstWithdrawal := of_Z 0;
  monthlyIncrement := of_Z 0;
  commissionType := monthly;
  commissionRate := of_Z 5;
  oneTimeCommission := of_Z 10000;
  loanInterestRate := of_Z 2
|}.

(** Two members and a negative withdrawal amount. *)
Definition negative_withdrawal_inputs : CalcInputs num := {|
  totalMembers := 2;
  monthlyContribution := of_Z 100;
  firstWithdrawal := of_Z (-10);
  monthlyIncrement := of_Z 0;
  commissionType := monthly;
  commissionRate := of_Z 5;
  oneTimeCommission := of_Z 0;
  loanInterestRate := of_Z 2
|}.

(** Three members and withdrawal amounts that fall below zero in month 2. *)
Definition negative_increment_inputs : CalcInputs num := {|
  totalMembers := 3;
  monthlyContribution := of_Z 1000;
  firstWithdrawal := of_Z 2000;
  monthlyIncrement := of_Z (-3000);
  commissionType := monthly;
  commissionRate := of_Z 5;
  oneTimeCommission := of_Z 0;
  loanInterestRate := of_Z 2
|}.

(** Three members whose commission of 5 % on a pool of 15 is 0.75. *)
Definition fractional_commission_inputs : CalcInputs num := {|
  totalMembers := 3;
  monthlyContribution := of_Z 5;
  firstWithdrawal := of_Z 10;
  monthlyIncrement := of_Z 0;
  commissionType := monthly;
  commissionRate := of_Z 5;
  oneTimeCommission := of_Z 0;
  loanInterestRate := of_Z 2
|}.

(** One member who contributes nothing and is paid from a negative
    one-time commission. *)
Definition negative_commission_inputs : CalcInputs num := {|
  totalMembers := 1;
  monthlyContribution := of_Z 0;
  firstWithdrawal := of_Z 50;
  monthlyIncrement := of_Z 0;
  commissionType := onetime;
  commissionRate := of_Z 5;
  oneTimeCommission := of_Z (-50);
  loanInterestRate := of_Z 2
|}.

(** The default form with 49 members and a commission of 1.5 %. *)
Definition rounding_inputs : CalcInputs num := {|
  totalMembers := 49;
  monthlyContribution := of_Z 5000;
  firstWithdrawal := of_Z 80000;
  monthlyIncrement := of_Z 1000;
  commissionType := monthly;
  commissionRate := decimal 15 10;
  oneTimeCommission := of_Z 10000;
  loanInterestRate := of_Z 2
|}.

Definition is_some {A} (x : option A) : bool :=
  match x with
  | Some _ => true
  | None => false
  end.

(** The concrete scenario of the specification. *)
Definition scenario_holds : Prop :=
  exists r,
    calculateChitDetails default_inputs (of_Z 50) = Returned r /\
    totalPool r = of_Z 100000 /\
    commissionPerMonth r = of_Z 5000 /\
    netPoolPerMonth r = of_Z 95000 /\
    option_map month (nth_error (withdrawalSchedule r) 0) = Some 1%nat /\
    option_map withdrawalAmount (nth_error (withdrawalSchedule r) 0) = Some (of_Z 80000) /\
    option_map actualWithdrawals (nth_error (withdrawalSchedule r) 0) = Some (of_Z 1) /\
    option_map remainingPool (nth_error (withdrawalSchedule r) 0) = Some (of_Z 15000) /\
    option_map loan_month (nth_error (loanDetails r) 0) = Some 1%nat /\
    option_map loanAmount (nth_error (loanDetails r) 0) = Some (of_Z 7500) /\
    option_map interestEarned (nth_error (loanDetails r) 0) = Some (of_Z 150) /\
    option_map repaymentDue (nth_error (loanDetails r) 0) = Some (of_Z 7650).

End Scenarios.

Section CounterScenarios.
Context {num : Type} `{Number num}.

(** Both months of [unaffordable_inputs] pay nobody: the last record, of
    month 2, still counts 2 members. *)
Definition never_cleared : Prop :=
  exists r,
    calculateChitDetails unaffordable_inputs (of_Z 50) = Returned r /\
    duration r = 2%nat /\
    option_map month (nth_error (withdrawalSchedule r) 1) = Some 2%nat /\
    option_map remainingMembersAfter (nth_error (withdrawalSchedule r) 1) = Some (of_Z 2) /\
    option_map (fun record => strict_eqb (remainingMembersAfter record) (of_Z 0))
               (nth_error (withdrawalSchedule r) 1) = Some false.

(** With [negative_increment_inputs] month 2 has a negative withdrawal
    amount and pays -1 members: 2 members remain after month 1 and 3 after
    month 2. *)
Definition members_increase : Prop :=
  exists r,
    calculateChitDetails negative_increment_inputs (of_Z 50) = Returned r /\
    option_map remainingMembersAfter (nth_error (withdrawalSchedule r) 0) = Some (of_Z 2) /\
    option_map actualWithdrawals (nth_error (withdrawalSchedule r) 1) = Some (of_Z (-1)) /\
    option_map remainingMembersAfter (nth_error (withdrawalSchedule r) 1) = Some (of_Z 3) /\
    option_map (fun record => leb (remainingMembersAfter record) (of_Z 2))
               (nth_error (withdrawalSchedule r) 1) = Some false.

(** With [zero_withdrawal_inputs] the members served are not a number. *)
Definition served_not_a_number : Prop :=
  exists r,
    calculateChitDetails zero_withdrawal_inputs (of_Z 50) = Returned r /\
    strict_eqb (sum_actualWithdrawals (withdrawalSchedule r)) (totalMembersServed r) = false /\
    leb (totalMembersServed r) (of_Z 20) = false.

(** With [negative_withdrawal_inputs] month 1 is flagged as settlement, pays
    nobody and is followed by month 2. *)
Definition settlement_pays_nobody : Prop :=
  exists r,
    calculateChitDetails negative_withdrawal_inputs (of_Z 50) = Returned r /\
    duration r = 2%nat /\
    option_map isLastMonth (nth_error (withdrawalSchedule r) 0) = Some true /\
    option_map (fun record => strict_eqb (actualWithdrawals record) (of_Z 2))
               (nth_error (withdrawalSchedule r) 0) = Some false /\
    option_map (fun record => strict_eqb (remainingMembersAfter record) (of_Z 0))
               (nth_error (withdrawalSchedule r) 0) = Some false.

(** The default scenario lasts 19 months, but the commission is charged
    for 20. *)
Definition commission_over_planned_duration : Prop :=
  exists r,
    calculateChitDetails default_inputs (of_Z 50) = Returned r /\
    duration r = 19%nat /\
    commissionPerMonth r = of_Z 5000 /\
    totalCommission r = of_Z 100000 /\
    strict_eqb (totalCommission r)
               (mul (commissionPerMonth r) (of_Z (Z.of_nat (duration r)))) = false.

(** With [fractional_commission_inputs] the commission per month is 0.75
    and the result reports 1. *)
Definition commission_is_rounded : Prop :=
  exists r,
    calculateChitDetails fractional_commission_inputs (of_Z 50) = Returned r /\
    totalPool r = of_Z 15 /\
    div (mul (totalPool r) (of_Z 5)) (of_Z 100) = decimal 75 100 /\
    commissionPerMonth r = of_Z 1.

(** With [negative_commission_inputs] the only member is paid 50 on a total
    contribution of 0: the return in percent is a division by zero. *)
Definition return_percent_divides_by_zero : Prop :=
  exists r,
    calculateChitDetails negative_commission_inputs (of_Z 50) = Returned r /\
    option_map totalContribution (nth_error (memberReturns r) 0) = Some (of_Z 0) /\
    option_map returnPercent (nth_error (memberReturns r) 0)
    = Some (div (of_Z 50) (of_Z 0)).

(** A single outflow of 1e-8 is below the tolerance: the initial guess
    0.01 is returned. *)
Definition tiny_flow_converges : Prop :=
  calculateIRR [neg (decimal 1 100000000)] = Some (decimal 1 100) /\
  calculateIRR [decimal 1 100000000] = Some (decimal 1 100).

End CounterScenarios.

(** ** The earlier version of the calculator

    [unnamed/part_001] holds an earlier version of the component.  Its
    [calculateChitDetails] (lines 154-271) has no guard on [totalMembers]
    and computes no member returns; lines 157-256, from [const duration] to
    the end of the loop, are the text of lines 286-385 of the current
    version. *)

Section Legacy.
Context {num : Type} `{Number num}.

(** The object returned at lines 258-270 of the earlier version. *)
Record LegacyDetails : Type := {
  legacy_duration : nat;
  legacy_totalPool : num;
  legacy_commissionPerMonth : num;
  legacy_totalCommission : num;
  legacy_netPoolPerMonth : num;
  legacy_withdrawalSchedule : list (MonthRecord num);
  legacy_totalMembersServed : num;
  legacy_finalCarryOver : num;
  legacy_loanDetails : list (LoanRecord num);
  legacy_totalLoanAmount : num;
  legacy_totalInterestEarned : num
}.

(** [calculateChitDetails] of the earlier version. *)
Definition legacy_calculateChitDetails (calcInputs : CalcInputs num) (loanUtilization : num)
  : outcome LegacyDetails :=
  let '(commissionPerMonth, totalCommission) := commission_unrounded calcInputs in
  let final := simulate calcInputs loanUtilization in
  let withdrawalSchedule := schedule_so_far final in
  (* withdrawalSchedule[withdrawalSchedule.length - 1] *)
  match nth_error withdrawalSchedule (length withdrawalSchedule - 1) with
  | None => TypeError
  | Some lastRecord =>
      Returned {|
        legacy_duration := length withdrawalSchedule;
        legacy_totalPool := totalPool_of calcInputs;
        legacy_commissionPerMonth := Math_round commissionPerMonth;
        legacy_totalCommission := Math_round totalCommission;
        legacy_netPoolPerMonth := netPoolPerMonth_of calcInputs;
        legacy_withdrawalSchedule := withdrawalSchedule;
        legacy_totalMembersServed :=
          sub (of_Z (totalMembers calcInputs)) (remainingMembersAfter lastRecord);
        legacy_finalCarryOver := remainingPool lastRecord;
        legacy_loanDetails := loans_so_far final;
        legacy_totalLoanAmount := Math_round (totalLoanAmount_acc final);
        legacy_totalInterestEarned := Math_round (totalInterestEarned_acc final)
      |}
  end.

(** The fields of a result of the current version that the earlier version
    has too. *)
Definition without_memberReturns (r : ChitDetails num) : LegacyDetails := {|
  legacy_duration := duration r;
  legacy_totalPool := totalPool r;
  legacy_commissionPerMonth := commissionPerMonth r;
  legacy_totalCommission := totalCommission r;
  legacy_netPoolPerMonth := netPoolPerMonth r;
  legacy_withdrawalSchedule := withdrawalSchedule r;
  legacy_totalMembersServed := totalMembersServed r;
  legacy_finalCarryOver := finalCarryOver r;
  legacy_loanDetails := loanDetails r;
  legacy_totalLoanAmount := totalLoanAmount r;
  legacy_totalInterestEarned := totalInterestEarned r
|}.

(** The loan that iteration [k] pushes, if it lends. *)
Definition loans_of (calcInputs : CalcInputs num) (loanUtilization : num) (k : nat)
  : list (LoanRecord num) :=
  if l_lends (locals_in calcInputs loanUtilization k)
  then [loan_record calcInputs k (locals_in calcInputs loanUtilization k)]
  else [].

End Legacy.
Arguments LegacyDetails num : clear implicits.

(** ** The rational reading, period by period *)

Section RationalPeriods.
Variable calcInputs : CalcInputs xnum.
Variable loanUtilization : xnum.

(** The rational state in which iteration [k] is entered. *)
Fixpoint q_entering (k : nat) : QState :=
  match k with
  | O => q_initial calcInputs
  | S k' => q_step calcInputs loanUtilization k' (q_entering k')
  end.

(** The rational locals of iteration [k]. *)
Definition q_locals_in (k : nat) : QLocals :=
  q_locals calcInputs loanUtilization k (q_entering k).

End RationalPeriods.

(** ** Sums *)

Section Sums.
Context {num : Type} `{Number num}.

(** The sum of a list of numbers, added from the left starting at 0. *)
Definition sum_of (l : list num) : num := fold_left add l (of_Z 0).

End Sums.

Open Scope Q_scope.
(** The sum of the recorded contributions per member, in [Q]. *)
Definition q_contributions (ws : list (MonthRecord xnum)) : Q :=
  fold_right (fun e acc => val (contributionPerMember e) + acc) 0 ws.
Close Scope Q_scope.

Open Scope Q_scope.
(** [f 0 + f 1 + ... + f (k-1)]. *)
Fixpoint q_sum (f : nat -> Q) (k : nat) : Q :=
  match k with
  | O => 0
  | S k' => q_sum f k' + f k'
  end.
Close Scope Q_scope.

(** ** formatIndianCurrency (lines 6-15) *)

(** The decimal digits of a non-negative integer; ["0"] for 0. *)
Definition digits_of (n : Z) : String.string :=
  DecimalString.NilEmpty.string_of_uint (N.to_uint (Z.to_N n)).

Fixpoint zeros (k : nat) : String.string :=
  match k with
  | O => String.EmptyString
  | S k' => String.append "0" (zeros k')
  end.

(** Steps 9-12 of [Number.prototype.toFixed] (ECMA-262), once the sign and
    the integer [n] nearest to [|x| * 10^f] are known: the digits of [n],
    padded with zeros to at least [f + 1] digits, with a point before the
    last [f]. *)
Definition fixed_notation (negative : bool) (n : Z) (f : nat) : String.string :=
  let m := digits_of n in
  let m :=
    match f with
    | O => m
    | _ =>
        let k := String.length m in
        let m := if Nat.leb k f then String.append (zeros (f + 1 - k)) m else m in
        let k := String.length m in
        String.append (String.substring 0 (k - f) m)
                      (String.append "." (String.substring (k - f) f m))
    end in
  String.append (if negative then "-" else "")%string m.

(** [toFixed] at a finite value [x], read as a real number.  For
    [|x| >= 10^21] the result is [Number::toString(x)], which is not
    modelled: [None]. *)
Definition toFixed_Q (x : Q) (f : nat) : option String.string :=
  if Qle_bool (inject_Z (10 ^ 21)) (Qabs x) then None
  else
    Some (fixed_notation (negb (Qle_bool 0 x))
                         (Qfloor (Qabs x * inject_Z (10 ^ Z.of_nat f) + (1 # 2))) f).

(** The numbers that can be printed with [toFixed]. *)
Class Printable (num : Type) : Type := {
  toFixed : num -> nat -> option String.string
}.

Definition xtoFixed (x : xnum) (f : nat) : option String.string :=
  match x with
  | Fin q => toFixed_Q q f
  | PInf => Some "Infinity"%string
  | NInf => Some "-Infinity"%string
  | NaN => Some "NaN"%string
  end.

#[global] Instance xnum_Printable : Printable xnum := {| toFixed := xtoFixed |}.

(** The real number that a finite binary64 value stands for. *)
Definition b64_value (s : bool) (m : positive) (e : Z) : Q :=
  let magnitude :=
    if (0 <=? e)%Z then inject_Z (Z.pos m * 2 ^ e)
    else (inject_Z (Z.pos m) / inject_Z (2 ^ (- e)))%Q in
  if s then (- magnitude)%Q else magnitude.

Definition b64_toFixed (x : b64) (f : nat) : option String.string :=
  match x with
  | S754_zero _ => toFixed_Q 0 f
  | S754_finite s m e => toFixed_Q (b64_value s m e) f
  | S754_infinity false => Some "Infinity"%string
  | S754_infinity true => Some "-Infinity"%string
  | S754_nan => Some "NaN"%string
  end.

#[global] Instance b64_Printable : Printable b64 := {| toFixed := b64_toFixed |}.

Section Formatting.
Context {num : Type} `{Number num} `{Printable num}.

(** The template literal [`${s} unit`]. *)
Definition with_unit (unit : String.string) (s : option String.string)
  : option String.string :=
  option_map (fun digits => String.append digits (String.append " " unit)) s.

Definition formatIndianCurrency (x : num) : option String.string :=
  if leb (of_Z 10000000) x then with_unit "Cr"%string (toFixed (div x (of_Z 10000000)) 2)
  else if leb (of_Z 100000) x then with_unit "L"%string (toFixed (div x (of_Z 100000)) 2)
  else if leb (of_Z 1000) x then with_unit "K"%string (toFixed (div x (of_Z 1000)) 2)
  else toFixed x 0.

End Formatting.

(** *** Reading a printed amount back *)

Fixpoint without_point (s : String.string) : String.string :=
  match s with
  | String.EmptyString => String.EmptyString
  | String.String c rest =>
      if Ascii.eqb c "."%char then without_point rest else String.String c (without_point rest)
  end.

Fixpoint after_point (s : String.string) : option String.string :=
  match s with
  | String.EmptyString => None
  | String.String c rest => if Ascii.eqb c "."%char then Some rest else after_point rest
  end.

(** The value of a numeral [ddd.dd]: its digits read as an integer, divided
    by 10 for each digit after the point. *)
Definition fixed_value (s : String.string) : option Q :=
  match DecimalString.NilEmpty.uint_of_string (without_point s) with
  | Some d =>
      let decimals := match after_point s with Some t => String.length t | None => O end in
      Some (inject_Z (Z.of_N (N.of_uint d)) / inject_Z (10 ^ Z.of_nat decimals))%Q
  | None => None
  end.

Fixpoint digits_only (s : String.string) : bool :=
  match s with
  | String.EmptyString => true
  | String.String c rest =>
      (Nat.leb 48 (Ascii.nat_of_ascii c) && Nat.leb (Ascii.nat_of_ascii c) 57)
      && digits_only rest
  end.

(** The unit in which an amount of 1000 or more is printed, and its size. *)
Definition unit_name (x : Q) : String.string :=
  if Qle_bool (inject_Z 10000000) x then "Cr"%string
  else if Qle_bool (inject_Z 100000) x then "L"%string else "K"%string.

Definition unit_size (x : Q) : Q :=
  if Qle_bool (inject_Z 10000000) x then inject_Z 10000000
  else if Qle_bool (inject_Z 100000) x then inject_Z 100000 else inject_Z 1000.

(** [p] holds of the [n] integers from [k] on. *)
Fixpoint all_from (n : nat) (k : Z) (p : Z -> bool) : bool :=
  match n with
  | O => true
  | S n' => p k && all_from n' (k + 1)%Z p
  end.

Definition option_string_eqb (a b : option String.string) : bool :=
  match a, b with
  | Some s, Some t => String.eqb s t
  | None, None => true
  | _, _ => false
  end.

Unset Implicit Arguments.
Open Scope Q_scope.

(** * Properties *)

(** ** Arithmetic of the exact instance *)

Lemma is_num_Fin q : is_num (Fin q) q.
Proof. simpl. reflexivity. Qed.

Lemma is_num_val x : is_finite x = true -> is_num x (val x).
Proof. destruct x; simpl; try discriminate. reflexivity. Qed.

Lemma is_num_finite x q : is_num x q -> is_finite x = true.
Proof. destruct x; simpl; tauto. Qed.

Lemma is_num_eq x a b : is_num x a -> a == b -> is_num x b.
Proof. destruct x; simpl; try tauto. intros H1 H2. rewrite H1. exact H2. Qed.

Lemma is_num_inv x q : is_num x q -> exists a, x = Fin a /\ a == q.
Proof. destruct x; simpl; try tauto. eauto. Qed.
Arguments is_num_inv {x q}.

Lemma is_num_unique x a b : is_num x a -> is_num x b -> a == b.
Proof. destruct x; simpl; try tauto. intros H1 H2. rewrite <- H1. exact H2. Qed.

Ltac num_inv :=
  repeat match goal with
         | H : is_num ?x ?q |- _ =>
             let a := fresh "a" in
             let E := fresh "E" in
             destruct (is_num_inv H) as (a & -> & E); clear H
         end.

Lemma num_of_Z z : is_num (of_Z z) (inject_Z z).
Proof. simpl. reflexivity. Qed.

Lemma add_Fin a b : add (Fin a) (Fin b) = Fin (Qred (a + b)).
Proof. reflexivity. Qed.
Lemma sub_Fin a b : sub (Fin a) (Fin b) = Fin (Qred (a - b)).
Proof. reflexivity. Qed.
Lemma mul_Fin a b : mul (Fin a) (Fin b) = Fin (Qred (a * b)).
Proof. reflexivity. Qed.
Lemma neg_Fin a : neg (Fin a) = Fin (Qred (- a)).
Proof. reflexivity. Qed.
Lemma div_Fin a b :
  div (Fin a) (Fin b) = if Qeq_bool b 0 then signed_inf (a ?= 0) else Fin (Qred (a / b)).
Proof. reflexivity. Qed.
Lemma abs_Fin a : Math_abs (Fin a) = Fin (Qred (Qabs a)).
Proof. reflexivity. Qed.
Lemma floor_Fin a : Math_floor (Fin a) = Fin (inject_Z (Qfloor a)).
Proof. reflexivity. Qed.
Lemma round_Fin a : Math_round (Fin a) = Fin (inject_Z (Qfloor (a + (1 # 2)))).
Proof. reflexivity. Qed.
Lemma min_Fin a b : Math_min (Fin a) (Fin b) = if Qle_bool a b then Fin a else Fin b.
Proof. reflexivity. Qed.
Lemma ltb_Fin a b : ltb (Fin a) (Fin b) = Qltb a b.
Proof. reflexivity. Qed.
Lemma leb_Fin a b : leb (Fin a) (Fin b) = Qle_bool a b.
Proof. reflexivity. Qed.
Lemma eqb_Fin a b : strict_eqb (Fin a) (Fin b) = Qeq_bool a b.
Proof. reflexivity. Qed.

Ltac num2 p q Ep Eq' :=
  let Hx := fresh "Hx" in
  let Hy := fresh "Hy" in
  intros Hx Hy;
  destruct (is_num_inv Hx) as (p & -> & Ep);
  destruct (is_num_inv Hy) as (q & -> & Eq'); clear Hx Hy.

Ltac num1 p Ep :=
  let Hx := fresh "Hx" in
  intros Hx; destruct (is_num_inv Hx) as (p & -> & Ep); clear Hx.

Lemma num_add x y a b : is_num x a -> is_num y b -> is_num (add x y) (a + b).
Proof. num2 p q Ep Eq'. rewrite add_Fin. unfold is_num. rewrite Qred_correct, Ep, Eq'. reflexivity. Qed.

Lemma num_sub x y a b : is_num x a -> is_num y b -> is_num (sub x y) (a - b).
Proof. num2 p q Ep Eq'. rewrite sub_Fin. unfold is_num. rewrite Qred_correct, Ep, Eq'. reflexivity. Qed.

Lemma num_mul x y a b : is_num x a -> is_num y b -> is_num (mul x y) (a * b).
Proof. num2 p q Ep Eq'. rewrite mul_Fin. unfold is_num. rewrite Qred_correct, Ep, Eq'. reflexivity. Qed.

Lemma num_neg x a : is_num x a -> is_num (neg x) (- a).
Proof. num1 p Ep. rewrite neg_Fin. unfold is_num. rewrite Qred_correct, Ep. reflexivity. Qed.

Lemma num_div x y a b : is_num x a -> is_num y b -> ~ b == 0 -> is_num (div x y) (a / b).
Proof.
  num2 p q Ep Eq'. intros Hb. rewrite div_Fin.
  destruct (Qeq_bool q 0) eqn:Hz.
  - apply Qeq_bool_iff in Hz. rewrite Eq' in Hz. contradiction.
  - unfold is_num. rewrite Qred_correct, Ep, Eq'. reflexivity.
Qed.

Lemma num_abs x a : is_num x a -> is_num (Math_abs x) (Qabs a).
Proof. num1 p Ep. rewrite abs_Fin. unfold is_num. rewrite Qred_correct, Ep. reflexivity. Qed.

Lemma num_floor x a : is_num x a -> is_num (Math_floor x) (inject_Z (Qfloor a)).
Proof. num1 p Ep. rewrite floor_Fin. unfold is_num. rewrite Ep. reflexivity. Qed.

Lemma num_round x a : is_num x a -> is_num (Math_round x) (inject_Z (Qfloor (a + (1 # 2)))).
Proof. num1 p Ep. rewrite round_Fin. unfold is_num. rewrite Ep. reflexivity. Qed.

Lemma num_min x y a b : is_num x a -> is_num y b -> is_num (Math_min x y) (Qmin a b).
Proof.
  num2 p q Ep Eq'. rewrite min_Fin.
  destruct (Qle_bool p q) eqn:Hle; unfold is_num.
  - apply Qle_bool_iff in Hle. rewrite Ep, Eq' in *. symmetry. apply Q.min_l. exact Hle.
  - assert (~ p <= q) by (rewrite <- Qle_bool_iff; congruence).
    rewrite Ep, Eq' in *. symmetry. apply Q.min_r. lra.
Qed.

Lemma qpow_comp a b n : a == b -> qpow a n == qpow b n.
Proof. intros E. induction n; simpl; [reflexivity|]. rewrite IHn, E. reflexivity. Qed.

Lemma num_pow x a n : is_num x a -> is_num (Math_pow x n) (qpow a n).
Proof.
  num1 p Ep. destruct n; [simpl; reflexivity|].
  change (Math_pow (Fin p) (S n)) with (Fin (Qred (qpow p (S n)))).
  unfold is_num. rewrite Qred_correct. apply qpow_comp. exact Ep.
Qed.

Lemma num_ltb x y a b : is_num x a -> is_num y b -> ltb x y = Qltb a b.
Proof. num2 p q Ep Eq'. rewrite ltb_Fin. unfold Qltb. rewrite Ep, Eq'. reflexivity. Qed.

Lemma num_leb x y a b : is_num x a -> is_num y b -> leb x y = Qle_bool a b.
Proof. num2 p q Ep Eq'. rewrite leb_Fin. rewrite Ep, Eq'. reflexivity. Qed.

Lemma num_eqb x y a b : is_num x a -> is_num y b -> strict_eqb x y = Qeq_bool a b.
Proof. num2 p q Ep Eq'. rewrite eqb_Fin. rewrite Ep, Eq'. reflexivity. Qed.

Arguments num_add {x y a b}.
Arguments num_sub {x y a b}.
Arguments num_mul {x y a b}.
Arguments num_div {x y a b}.
Arguments num_neg {x a}.
Arguments num_abs {x a}.
Arguments num_floor {x a}.
Arguments num_round {x a}.
Arguments num_min {x y a b}.
Arguments num_pow {x a}.
Arguments num_ltb {x y a b}.
Arguments num_leb {x y a b}.
Arguments num_eqb {x y a b}.

Lemma Qltb_true a b : Qltb a b = true <-> a < b.
Proof.
  unfold Qltb. rewrite negb_true_iff. split; intros H.
  - apply Qnot_le_lt. rewrite <- Qle_bool_iff. congruence.
  - apply not_true_is_false. rewrite Qle_bool_iff. lra.
Qed.

Lemma Qltb_false a b : Qltb a b = false <-> b <= a.
Proof. unfold Qltb. rewrite negb_false_iff. apply Qle_bool_iff. Qed.

Lemma Qle_bool_false a b : Qle_bool a b = false <-> b < a.
Proof.
  split; intros H.
  - apply Qnot_le_lt. rewrite <- Qle_bool_iff. congruence.
  - apply not_true_is_false. rewrite Qle_bool_iff. lra.
Qed.

Lemma Qeq_bool_false a b : Qeq_bool a b = false <-> ~ a == b.
Proof.
  split; intros H.
  - rewrite <- Qeq_bool_iff. congruence.
  - apply not_true_is_false. rewrite Qeq_bool_iff. exact H.
Qed.

Section RationalReadingFacts.

Variable calcInputs : CalcInputs xnum.
Variable loanUtilization : xnum.
Hypothesis Hfin : finite_inputs calcInputs loanUtilization.
Hypothesis Hmembers : (0 < totalMembers calcInputs)%Z.

Lemma q_members_pos : 0 < q_members calcInputs.
Proof. unfold q_members. change 0 with (inject_Z 0). rewrite <- Zlt_Qlt. exact Hmembers. Qed.

Lemma num_totalPool : is_num (totalPool_of calcInputs) (q_totalPool calcInputs).
Proof.
  unfold totalPool_of, q_totalPool, q_members.
  apply num_mul; [apply num_of_Z | apply is_num_val; apply Hfin].
Qed.

Lemma num_commission :
  is_num (fst (commission_unrounded calcInputs)) (q_commission calcInputs).
Proof.
  pose proof q_members_pos as Hpos.
  unfold commission_unrounded, q_commission. destruct (commissionType calcInputs); simpl fst.
  - apply num_div; [apply num_mul; [apply num_totalPool | apply is_num_val; apply Hfin]
                   | apply (num_of_Z 100) | discriminate ].
  - apply num_div; [apply is_num_val; apply Hfin | apply num_of_Z | ].
    fold (q_members calcInputs). lra.
Qed.

Lemma num_netPool : is_num (netPoolPerMonth_of calcInputs) (q_netPool calcInputs).
Proof. unfold netPoolPerMonth_of, q_netPool. apply num_sub; [apply num_totalPool | apply num_commission]. Qed.

Lemma num_withdrawal i :
  is_num (add (firstWithdrawal calcInputs) (mul (monthlyIncrement calcInputs) (of_Z (Z.of_nat i))))
         (q_withdrawal calcInputs i).
Proof.
  unfold q_withdrawal. apply num_add; [apply is_num_val; apply Hfin|].
  apply num_mul; [apply is_num_val; apply Hfin | apply num_of_Z].
Qed.

Lemma withdraw_and_lend_spec i st s w e last cmc cpm av qe qc qp qa :
  state_is st s ->
  ~ q_withdrawal calcInputs i == 0 ->
  is_num w (q_withdrawal calcInputs i) ->
  is_num e qe -> is_num cmc qc -> is_num cpm qp -> is_num av qa ->
  locals_are calcInputs i
    (withdraw_and_lend calcInputs loanUtilization st w e last cmc cpm av)
    (q_withdraw_and_lend calcInputs loanUtilization s (q_withdrawal calcInputs i) qe last qc qp qa).
Proof.
  intros (Hr & Hc & Hd) Hw HW He Hcmc Hcpm Hav.
  pose proof (is_num_val _ (fin_loanUtilization Hfin)) as Hlu.
  pose proof (is_num_val _ (fin_loanInterestRate Hfin)) as Hlir.
  pose proof (num_min (num_floor (num_div Hav HW Hw)) Hr) as Haw.
  pose proof (num_mul HW Haw) as Htw.
  pose proof (num_sub Hav Htw) as Hrp.
  pose proof (num_ltb (num_of_Z 0) Hrp) as Hpos.
  unfold withdraw_and_lend, q_withdraw_and_lend, locals_are.
  cbn [l_withdrawalAmount l_effectiveCarryOver l_currentMonthContribution
       l_contributionPerMember l_availablePool l_isLastMonth l_actualWithdrawals
       l_totalWithdrawn l_remainingPool l_lends l_loanAmount l_interestEarned
       l_nextMonthRepayment q_effectiveCarryOver q_isLast q_contribution q_perMember
       q_available q_actual q_withdrawn q_remainingPool q_lends q_loan q_interest
       q_repayment].
  rewrite Hpos. change (inject_Z 0) with 0.
  destruct (negb last && Qltb 0 _);
    repeat split;
    repeat first [ assumption | exact (num_of_Z _) | apply num_add | apply num_sub
                 | apply num_mul | apply num_div | discriminate ].
Qed.

Lemma month_locals_spec i st s :
  state_is st s ->
  ~ q_withdrawal calcInputs i == 0 ->
  locals_are calcInputs i (month_locals calcInputs loanUtilization i st)
             (q_locals calcInputs loanUtilization i s).
Proof.
  intros Hst Hw. pose proof Hst as (Hr & Hc & Hd).
  pose proof q_members_pos as Hpos.
  assert (Hm : ~ q_members calcInputs == 0) by lra.
  pose proof (num_withdrawal i) as HW.
  pose proof num_netPool as HN.
  pose proof num_commission as HC.
  pose proof (num_add Hc Hd) as HE.
  pose proof (num_mul Hr HW) as HR.
  pose proof (num_ltb HR (num_add HN HE)) as Hlast.
  pose proof (num_leb (num_sub HR HE) (num_of_Z 0)) as Hsettled.
  pose proof (is_num_val _ (fin_monthlyContribution Hfin)) as Hmc.
  unfold month_locals, q_locals.
  rewrite Hlast, Hsettled. change (inject_Z 0) with 0.
  destruct (Qltb _ _); [destruct (Qle_bool _ _)|];
    apply withdraw_and_lend_spec; try assumption;
    repeat first [ assumption | exact (num_of_Z _) | apply num_add | apply num_sub
                 | apply num_mul | apply num_div ].
Qed.

Lemma loop_body_spec i st s :
  state_is st s ->
  ~ q_withdrawal calcInputs i == 0 ->
  state_is (loop_body calcInputs loanUtilization i st)
           (q_step calcInputs loanUtilization i s).
Proof.
  intros Hst Hw. pose proof (month_locals_spec i _ _ Hst Hw) as HL.
  destruct Hst as (Hr & Hc & Hd).
  destruct HL as (_ & _ & _ & _ & _ & _ & Haw & _ & Hrp & _ & Hla & _ & Hnr).
  unfold loop_body, q_step, state_is; cbn [remainingMembers carryOverPool loanRepaymentDue
     q_remaining q_carry q_due].
  repeat split; [apply num_sub | apply num_sub | ]; assumption.
Qed.

End RationalReadingFacts.

(** ** One run, period by period *)

Section RationalRunFacts.

Variable calcInputs : CalcInputs xnum.
Variable loanUtilization : xnum.
Hypothesis Hfin : finite_inputs calcInputs loanUtilization.
Hypothesis Hmembers : (0 < totalMembers calcInputs)%Z.

Lemma initial_state_is : state_is (initialState calcInputs) (q_initial calcInputs).
Proof. repeat split; apply num_of_Z. Qed.

Lemma month_record_is i st s :
  state_is st s ->
  ~ q_withdrawal calcInputs i == 0 ->
  record_is calcInputs loanUtilization
    (month_record i (month_locals calcInputs loanUtilization i st)
                  (remainingMembers (loop_body calcInputs loanUtilization i st)))
    (i, s).
Proof.
  intros Hst Hw. pose proof (month_locals_spec _ _ Hfin Hmembers i _ _ Hst Hw) as HL.
  pose proof (loop_body_spec _ _ Hfin Hmembers i _ _ Hst Hw) as (Hr' & _ & _).
  destruct HL as (H1 & H2 & H3 & H4 & H5 & H6 & H7 & H8 & H9 & _).
  unfold record_is, month_record, Qround; cbn [month withdrawalAmount contributionPerMember
    newContributions carryOverFromPrevious availablePool actualWithdrawals totalWithdrawn
    remainingPool remainingMembersAfter isLastMonth].
  repeat split; try (apply num_round; assumption); try assumption.
Qed.

Lemma simulate_from_spec left : forall i st s,
  state_is st s ->
  (forall j, (i <= j < i + left)%nat -> ~ q_withdrawal calcInputs j == 0) ->
  state_is (simulate_from calcInputs loanUtilization left i st)
           (q_final calcInputs loanUtilization left i s) /\
  exists new,
    schedule_so_far (simulate_from calcInputs loanUtilization left i st)
    = schedule_so_far st ++ new /\
    Forall2 (record_is calcInputs loanUtilization) new
            (q_trace calcInputs loanUtilization left i s).
Proof.
  induction left as [|left IH]; intros i st s Hst Hw; cbn [simulate_from q_final q_trace].
  - split; [exact Hst|]. exists []. rewrite app_nil_r. split; constructor.
  - pose proof Hst as (Hr & _).
    rewrite (num_ltb (num_of_Z 0) Hr). change (inject_Z 0) with 0.
    destruct (Qltb 0 (q_remaining s)) eqn:Hpos.
    + assert (Hwi : ~ q_withdrawal calcInputs i == 0) by (apply Hw; lia).
      pose proof (loop_body_spec _ _ Hfin Hmembers i _ _ Hst Hwi) as Hst'.
      pose proof Hst' as (Hr' & _).
      rewrite (num_eqb Hr' (num_of_Z 0)). change (inject_Z 0) with 0.
      destruct (Qeq_bool (q_remaining (q_step calcInputs loanUtilization i s)) 0) eqn:Hz.
      * split; [exact Hst'|]. eexists. split; [reflexivity|].
        constructor; [|constructor]. apply month_record_is; assumption.
      * destruct (IH (S i) _ _ Hst') as (Hfinal & new & Hnew & Hall).
        { intros j Hj. apply Hw. lia. }
        split; [exact Hfinal|].
        exists (month_record i (month_locals calcInputs loanUtilization i st)
                             (remainingMembers (loop_body calcInputs loanUtilization i st)) :: new).
        split.
        -- rewrite Hnew. cbn [loop_body schedule_so_far]. rewrite <- app_assoc. reflexivity.
        -- constructor; [apply month_record_is; assumption | exact Hall].
    + split; [exact Hst|]. exists []. rewrite app_nil_r. split; constructor.
Qed.

End RationalRunFacts.

(** ** Facts about one rational period *)

Lemma Qfloor_inject_Z k : Qfloor (inject_Z k) = k.
Proof. unfold Qfloor, inject_Z. simpl. apply Z.div_1_r. Qed.

Lemma Qfloor_ge_integer k q : inject_Z k <= q -> (k <= Qfloor q)%Z.
Proof.
  intros H. rewrite <- (Qfloor_inject_Z k). apply Qfloor_resp_le. exact H.
Qed.

Lemma is_integer_eq a b : a == b -> is_integer a -> is_integer b.
Proof. intros E [k Hk]. exists k. rewrite <- E. exact Hk. Qed.

Lemma Qmin_integer a b : is_integer a -> is_integer b -> is_integer (Qmin a b).
Proof.
  intros Ha Hb. destruct (Q.min_spec a b) as [[_ E]|[_ E]];
    (eapply is_integer_eq; [symmetry; exact E | assumption]).
Qed.

Lemma is_integer_sub a b : is_integer a -> is_integer b -> is_integer (a - b).
Proof.
  intros [x Hx] [y Hy]. exists (x - y)%Z. rewrite Hx, Hy.
  unfold Z.sub. rewrite inject_Z_plus, inject_Z_opp. reflexivity.
Qed.

Lemma is_integer_inject k : is_integer (inject_Z k).
Proof. exists k. reflexivity. Qed.

Section StepFacts.

Variable calcInputs : CalcInputs xnum.
Variable loanUtilization : xnum.
Hypothesis Hmembers : (0 < totalMembers calcInputs)%Z.

Lemma q_members_nonzero : ~ q_members calcInputs == 0.
Proof.
  unfold q_members. change 0 with (inject_Z 0). rewrite inject_Z_injective. lia.
Qed.

(** The shape of [q_locals]: whatever branch is taken, the fields after the
    pool are those of [q_withdraw_and_lend]. *)
Lemma q_locals_shape i s :
  exists contribution perMember available,
    q_locals calcInputs loanUtilization i s =
    q_withdraw_and_lend calcInputs loanUtilization s (q_withdrawal calcInputs i)
      (q_carry s + q_due s)
      (Qltb (q_remaining s * q_withdrawal calcInputs i)
            (q_netPool calcInputs + (q_carry s + q_due s)))
      contribution perMember available /\
    ((Qltb (q_remaining s * q_withdrawal calcInputs i)
            (q_netPool calcInputs + (q_carry s + q_due s)) = false /\
      available = q_netPool calcInputs + (q_carry s + q_due s)) \/
     (Qltb (q_remaining s * q_withdrawal calcInputs i)
            (q_netPool calcInputs + (q_carry s + q_due s)) = true /\
      q_remaining s * q_withdrawal calcInputs i <= q_carry s + q_due s /\
      available = q_carry s + q_due s) \/
     (Qltb (q_remaining s * q_withdrawal calcInputs i)
            (q_netPool calcInputs + (q_carry s + q_due s)) = true /\
      available == q_remaining s * q_withdrawal calcInputs i)).
Proof.
  unfold q_locals.
  destruct (Qltb _ _) eqn:Hlast.
  - destruct (Qle_bool _ _) eqn:Hs.
    + do 3 eexists. split; [reflexivity|]. right; left.
      apply Qle_bool_iff in Hs. repeat split. lra.
    + do 3 eexists. split; [reflexivity|]. right; right. split; [reflexivity|].
      pose proof q_members_nonzero. field. assumption.
  - do 3 eexists. split; [reflexivity|]. left. split; reflexivity.
Qed.

Lemma q_actual_le i s : q_actual (q_locals calcInputs loanUtilization i s) <= q_remaining s.
Proof.
  destruct (q_locals_shape i s) as (c & p & a & -> & _).
  cbn [q_withdraw_and_lend q_actual]. apply Q.le_min_r.
Qed.

Lemma q_remaining_step i s :
  q_remaining (q_step calcInputs loanUtilization i s)
  = q_remaining s - q_actual (q_locals calcInputs loanUtilization i s).
Proof. reflexivity. Qed.

Lemma q_step_nonneg i s : 0 <= q_remaining (q_step calcInputs loanUtilization i s).
Proof. rewrite q_remaining_step. pose proof (q_actual_le i s). lra. Qed.

Lemma q_actual_integer i s :
  is_integer (q_remaining s) -> is_integer (q_actual (q_locals calcInputs loanUtilization i s)).
Proof.
  intros Hr. destruct (q_locals_shape i s) as (c & p & a & -> & _).
  cbn [q_withdraw_and_lend q_actual]. apply Qmin_integer; [apply is_integer_inject | exact Hr].
Qed.

Lemma q_step_integer i s :
  is_integer (q_remaining s) -> is_integer (q_remaining (q_step calcInputs loanUtilization i s)).
Proof.
  intros Hr. rewrite q_remaining_step. apply is_integer_sub; [exact Hr|].
  apply q_actual_integer. exact Hr.
Qed.

(** In a settlement month every remaining member is paid. *)
Lemma q_settlement_clears i s :
  0 < q_withdrawal calcInputs i ->
  is_integer (q_remaining s) ->
  q_isLast (q_locals calcInputs loanUtilization i s) = true ->
  q_actual (q_locals calcInputs loanUtilization i s) == q_remaining s.
Proof.
  intros Hw [k Hk] Hlast.
  destruct (q_locals_shape i s) as (c & p & a & E & Hcases). rewrite E in *.
  cbn [q_withdraw_and_lend q_actual q_isLast] in *.
  apply Q.min_r.
  assert (Hge : q_remaining s <= a / q_withdrawal calcInputs i).
  { destruct Hcases as [(Hf & _)|[(_ & Hle & ->)|(_ & Heq)]].
    - congruence.
    - apply Qle_shift_div_l; [exact Hw | exact Hle].
    - rewrite Heq. apply Qle_shift_div_l; [exact Hw | apply Qle_refl]. }
  rewrite Hk in *. rewrite <- Zle_Qle. apply Qfloor_ge_integer. exact Hge.
Qed.

Section Valid.

Hypothesis Hnet : 0 <= q_netPool calcInputs.
Hypothesis Hlu : 0 <= val loanUtilization.
Hypothesis Hlir : 0 <= val (loanInterestRate calcInputs).

Lemma q_available_nonneg i s :
  0 < q_withdrawal calcInputs i -> solvent s ->
  0 <= q_available (q_locals calcInputs loanUtilization i s).
Proof.
  intros Hw (Hr & He).
  destruct (q_locals_shape i s) as (c & p & a & -> & Hcases).
  cbn [q_withdraw_and_lend q_available].
  destruct Hcases as [(_ & ->)|[(_ & _ & ->)|(_ & ->)]]; try lra. nra.
Qed.

Lemma q_actual_nonneg i s :
  0 < q_withdrawal calcInputs i -> solvent s ->
  0 <= q_actual (q_locals calcInputs loanUtilization i s).
Proof.
  intros Hw Hs. pose proof (q_available_nonneg i s Hw Hs) as Hav. destruct Hs as (Hr & He).
  destruct (q_locals_shape i s) as (c & p & a & E & _). rewrite E in *.
  cbn [q_withdraw_and_lend q_actual q_available] in *.
  apply Q.min_glb; [|exact Hr].
  change 0 with (inject_Z 0). rewrite <- Zle_Qle. apply Qfloor_ge_integer.
  change (inject_Z 0) with 0.
  apply Qle_shift_div_l; [exact Hw | lra].
Qed.

Lemma q_step_solvent i s :
  0 < q_withdrawal calcInputs i -> solvent s -> solvent (q_step calcInputs loanUtilization i s).
Proof.
  intros Hw Hs. split; [apply q_step_nonneg|].
  pose proof (q_available_nonneg i s Hw Hs) as Hav.
  unfold q_step; cbn [q_carry q_due].
  destruct (q_locals_shape i s) as (c & p & a & E & _). rewrite E in *.
  cbn [q_withdraw_and_lend q_available q_remainingPool q_loan q_repayment q_actual] in *.
  set (actual := Qmin _ _).
  assert (Hact : q_withdrawal calcInputs i * actual <= a).
  { assert (actual <= a / q_withdrawal calcInputs i).
    { unfold actual. eapply Qle_trans; [apply Q.le_min_l | apply Qfloor_le]. }
    assert (Hx : q_withdrawal calcInputs i * (a / q_withdrawal calcInputs i) == a)
      by (field; lra).
    rewrite <- Hx. apply Qmult_le_l; assumption. }
  destruct (negb _ && Qltb 0 _) eqn:Hlends.
  - apply andb_prop in Hlends. destruct Hlends as (_ & Hpos). apply Qltb_true in Hpos.
    assert (0 <= (a - q_withdrawal calcInputs i * actual) * val loanUtilization / 100 *
                 val (loanInterestRate calcInputs) / 100).
    { apply Qle_shift_div_l; [reflexivity|]. rewrite Qmult_0_l.
      apply Qmult_le_0_compat; [|exact Hlir].
      apply Qle_shift_div_l; [reflexivity|]. rewrite Qmult_0_l.
      apply Qmult_le_0_compat; [lra | exact Hlu]. }
    lra.
  - lra.
Qed.

End Valid.

End StepFacts.

(** ** Facts about the iterations of a run *)

Lemma last_cons {A} (t : list A) : forall e d, last (e :: t) d = last t e.
Proof.
  induction t as [|x t IH]; intros e d; [reflexivity|].
  change (last (e :: x :: t) d) with (last (x :: t) d).
  rewrite (IH x d), (IH x e). reflexivity.
Qed.

Section TraceFacts.

Variable calcInputs : CalcInputs xnum.
Variable loanUtilization : xnum.
Hypothesis Hmembers : (0 < totalMembers calcInputs)%Z.

Lemma q_trace_length left : forall i s,
  (length (q_trace calcInputs loanUtilization left i s) <= left)%nat.
Proof.
  induction left as [|left IH]; intros i s; cbn [q_trace]; [apply Nat.le_refl|].
  destruct (Qltb 0 (q_remaining s)); [|cbn [length]; lia].
  destruct (Qeq_bool _ 0); cbn [length]; [lia|].
  specialize (IH (S i) (q_step calcInputs loanUtilization i s)). lia.
Qed.

Lemma q_trace_nonempty left i s :
  (0 < left)%nat -> 0 < q_remaining s ->
  q_trace calcInputs loanUtilization left i s <> [].
Proof.
  intros Hl Hr. destruct left; [lia|]. cbn [q_trace].
  apply Qltb_true in Hr. rewrite Hr. discriminate.
Qed.

Lemma q_trace_index left : forall i s n j a,
  nth_error (q_trace calcInputs loanUtilization left i s) n = Some (j, a) ->
  j = (i + n)%nat.
Proof.
  induction left as [|left IH]; intros i s n j a; cbn [q_trace].
  - destruct n; discriminate.
  - destruct (Qltb 0 (q_remaining s)); [|destruct n; discriminate].
    destruct n as [|n]; cbn [nth_error].
    + intros [= <- <-]. lia.
    + destruct (Qeq_bool _ 0); [destruct n; discriminate|].
      intros Hn. apply IH in Hn. lia.
Qed.

(** Every iteration is entered with members left, and a property of the
    states that steps preserve holds on entry of every iteration. *)
Lemma q_trace_invariant (P : QState -> Prop) left : forall i s,
  (forall j a, (i <= j < i + left)%nat -> P a -> 0 < q_remaining a ->
               P (q_step calcInputs loanUtilization j a)) ->
  P s ->
  forall n j a, nth_error (q_trace calcInputs loanUtilization left i s) n = Some (j, a) ->
                P a /\ 0 < q_remaining a.
Proof.
  induction left as [|left IH]; intros i s Hstep Hs n j a; cbn [q_trace].
  - destruct n; discriminate.
  - destruct (Qltb 0 (q_remaining s)) eqn:Hpos; [|destruct n; discriminate].
    apply Qltb_true in Hpos.
    destruct n as [|n]; cbn [nth_error].
    + intros [= <- <-]. split; assumption.
    + destruct (Qeq_bool _ 0); [destruct n; discriminate|].
      apply IH.
      * intros j' a' Hj'. apply Hstep. lia.
      * apply Hstep; [lia | assumption | assumption].
Qed.

(** Consecutive iterations: the later one is entered in the state that the
    earlier one leaves, and that state still has members. *)
Lemma q_trace_consecutive left : forall i s n j a j' a',
  nth_error (q_trace calcInputs loanUtilization left i s) n = Some (j, a) ->
  nth_error (q_trace calcInputs loanUtilization left i s) (S n) = Some (j', a') ->
  a' = q_step calcInputs loanUtilization j a /\ ~ q_remaining a' == 0.
Proof.
  induction left as [|left IH]; intros i s n j a j' a'; cbn [q_trace].
  - destruct n; discriminate.
  - destruct (Qltb 0 (q_remaining s)); [|destruct n; discriminate].
    destruct n as [|n]; cbn [nth_error].
    + intros [= <- <-].
      destruct (Qeq_bool _ 0) eqn:Hz; [discriminate|].
      apply Qeq_bool_false in Hz.
      destruct left; cbn [q_trace]; [discriminate|].
      destruct (Qltb 0 _); [|discriminate].
      cbn [nth_error]. intros [= <- <-]. split; [reflexivity | exact Hz].
    + destruct (Qeq_bool _ 0); [destruct n; discriminate|].
      apply IH.
Qed.

(** An iteration that leaves no member is the last one. *)
Lemma q_trace_stops left : forall i s n j a,
  nth_error (q_trace calcInputs loanUtilization left i s) n = Some (j, a) ->
  q_remaining (q_step calcInputs loanUtilization j a) == 0 ->
  length (q_trace calcInputs loanUtilization left i s) = S n.
Proof.
  intros i s n j a Hn Hz.
  destruct (nth_error (q_trace calcInputs loanUtilization left i s) (S n)) as [[j' a']|] eqn:Hn'.
  - destruct (q_trace_consecutive _ _ _ _ _ _ _ _ Hn Hn') as (-> & Hnz). contradiction.
  - apply nth_error_None in Hn'.
    assert (n < length (q_trace calcInputs loanUtilization left i s))%nat
      by (apply nth_error_Some; congruence).
    lia.
Qed.

(** The state at exit is the one left by the last iteration. *)
Lemma q_final_last left : forall i s,
  match q_trace calcInputs loanUtilization left i s with
  | [] => q_final calcInputs loanUtilization left i s = s
  | e :: t =>
      q_final calcInputs loanUtilization left i s
      = q_step calcInputs loanUtilization (fst (last t e)) (snd (last t e))
  end.
Proof.
  induction left as [|left IH]; intros i s; cbn [q_trace q_final]; [reflexivity|].
  destruct (Qltb 0 (q_remaining s)); [|reflexivity].
  destruct (Qeq_bool _ 0); [reflexivity|].
  specialize (IH (S i) (q_step calcInputs loanUtilization i s)).
  destruct (q_trace calcInputs loanUtilization left (S i) _) as [|e t].
  - cbn [last fst snd]. exact IH.
  - rewrite last_cons. exact IH.
Qed.

Lemma q_paid_total left : forall i s,
  q_paid calcInputs loanUtilization (q_trace calcInputs loanUtilization left i s)
  == q_remaining s - q_remaining (q_final calcInputs loanUtilization left i s).
Proof.
  induction left as [|left IH]; intros i s; cbn [q_trace q_final q_paid fold_right].
  - lra.
  - destruct (Qltb 0 (q_remaining s)); [|cbn [fold_right]; lra].
    destruct (Qeq_bool _ 0); cbn [fold_right fst snd].
    + rewrite q_remaining_step. lra.
    + fold (q_paid calcInputs loanUtilization (q_trace calcInputs loanUtilization left (S i)
                            (q_step calcInputs loanUtilization i s))).
      rewrite IH, q_remaining_step. lra.
Qed.

Lemma q_final_nonneg left : forall i s,
  0 <= q_remaining s -> 0 <= q_remaining (q_final calcInputs loanUtilization left i s).
Proof.
  induction left as [|left IH]; intros i s Hs; cbn [q_final]; [exact Hs|].
  destruct (Qltb 0 (q_remaining s)); [|exact Hs].
  destruct (Qeq_bool _ 0).
  - apply q_step_nonneg. exact Hmembers.
  - apply IH. apply q_step_nonneg. exact Hmembers.
Qed.

End TraceFacts.

(** ** When the call returns *)

Section GenericFacts.
Context {num : Type} `{Number num}.

Lemma member_returns_from_returns (ws : list (MonthRecord num)) : forall todo n,
  Forall (fun r => trip_count (actualWithdrawals r) <> None) todo ->
  exists l, member_returns_from ws todo n = Returned l.
Proof.
  induction todo as [|r todo IH]; intros n Hall; cbn [member_returns_from].
  - eauto.
  - inversion Hall as [|? ? Hr Htl]; subst.
    destruct (trip_count (actualWithdrawals r)) as [k|]; [|congruence].
    destruct (IH (n + k)%nat Htl) as (l & ->). eauto.
Qed.

Lemma last_record_exists {A} (l : list A) : l <> [] ->
  exists x, nth_error l (length l - 1) = Some x.
Proof.
  intros Hl. destruct (nth_error l (length l - 1)) eqn:E; [eauto|].
  apply nth_error_None in E. destruct l; [congruence|]. cbn [length] in E. lia.
Qed.

(** With members to serve, the call returns as soon as the schedule is not
    empty and the inner loops of lines 410-447 end. *)
Lemma calculateChitDetails_returns calcInputs loanUtilization :
  (0 < totalMembers calcInputs)%Z ->
  schedule_so_far (simulate calcInputs loanUtilization) <> [] ->
  Forall (fun r => trip_count (actualWithdrawals r) <> None)
         (schedule_so_far (simulate calcInputs loanUtilization)) ->
  exists memberReturns lastRecord,
    member_returns_from (schedule_so_far (simulate calcInputs loanUtilization))
                        (schedule_so_far (simulate calcInputs loanUtilization)) 1
    = Returned memberReturns /\
    nth_error (schedule_so_far (simulate calcInputs loanUtilization))
              (length (schedule_so_far (simulate calcInputs loanUtilization)) - 1)
    = Some lastRecord /\
    calculateChitDetails calcInputs loanUtilization
    = Returned (details_of calcInputs (simulate calcInputs loanUtilization)
                           memberReturns lastRecord).
Proof.
  intros Hm Hne Hall. unfold calculateChitDetails.
  destruct (totalMembers calcInputs <=? 0)%Z eqn:Hz; [apply Z.leb_le in Hz; lia|].
  destruct (member_returns_from_returns (schedule_so_far (simulate calcInputs loanUtilization)) _ 1%nat Hall) as (mr & Hmr).
  destruct (last_record_exists _ Hne) as (lastRecord & Hlast).
  exists mr, lastRecord. split; [exact Hmr|]. split; [exact Hlast|].
  destruct (commission_unrounded calcInputs) as (cpm, tc) eqn:Hc.
  rewrite Hmr, Hlast. unfold details_of. rewrite Hc. reflexivity.
Qed.

End GenericFacts.

Lemma Forall2_nth_error {A B} (R : A -> B -> Prop) l l' :
  Forall2 R l l' ->
  forall n a, nth_error l n = Some a -> exists b, nth_error l' n = Some b /\ R a b.
Proof.
  induction 1 as [|x y l l' Hxy Hall IH]; intros n a Hn.
  - destruct n; discriminate.
  - destruct n as [|n]; cbn [nth_error] in *.
    + injection Hn as <-. eauto.
    + apply IH. exact Hn.
Qed.

Lemma nth_error_last {A} (t : list A) : forall e,
  nth_error (e :: t) (length (e :: t) - 1) = Some (last t e).
Proof.
  induction t as [|x t IH]; intros e; [reflexivity|].
  specialize (IH x). cbn [length] in *.
  replace (S (S (length t)) - 1)%nat with (S (S (length t) - 1)) by lia.
  cbn [nth_error]. rewrite IH, last_cons. reflexivity.
Qed.

Section FiniteRun.

Variable calcInputs : CalcInputs xnum.
Variable loanUtilization : xnum.
Hypothesis Hfin : finite_inputs calcInputs loanUtilization.
Hypothesis Hmembers : (0 < totalMembers calcInputs)%Z.
Hypothesis Hnonzero :
  forall i, (i < Z.to_nat (totalMembers calcInputs))%nat -> ~ q_withdrawal calcInputs i == 0.

Lemma simulate_spec :
  state_is (simulate calcInputs loanUtilization) (the_final calcInputs loanUtilization) /\
  Forall2 (record_is calcInputs loanUtilization)
          (schedule_so_far (simulate calcInputs loanUtilization)) (the_trace calcInputs loanUtilization).
Proof.
  destruct (simulate_from_spec calcInputs loanUtilization Hfin Hmembers
              (Z.to_nat (totalMembers calcInputs)) 0 _ _ (initial_state_is calcInputs))
    as (Hst & new & Hnew & Hall).
  { intros j Hj. apply Hnonzero. lia. }
  split; [exact Hst|]. unfold simulate. rewrite Hnew. exact Hall.
Qed.

Lemma the_trace_nonempty : (the_trace calcInputs loanUtilization) <> [].
Proof.
  unfold the_trace. apply q_trace_nonempty; [lia|].
  cbn [q_initial q_remaining]. apply (q_members_pos calcInputs Hmembers).
Qed.

Lemma finite_run_returns :
  exists memberReturns lastRecord,
    member_returns_from (schedule_so_far (simulate calcInputs loanUtilization))
                        (schedule_so_far (simulate calcInputs loanUtilization)) 1
    = Returned memberReturns /\
    nth_error (schedule_so_far (simulate calcInputs loanUtilization))
              (length (schedule_so_far (simulate calcInputs loanUtilization)) - 1)
    = Some lastRecord /\
    calculateChitDetails calcInputs loanUtilization
    = Returned (details_of calcInputs (simulate calcInputs loanUtilization)
                           memberReturns lastRecord).
Proof.
  destruct simulate_spec as (_ & Hall).
  apply calculateChitDetails_returns; [exact Hmembers| |].
  - intros E. rewrite E in Hall. apply the_trace_nonempty.
    inversion Hall. reflexivity.
  - clear -Hall. induction Hall as [|r [j s] l l' Hr _ IH]; constructor; [|exact IH].
    destruct Hr as (_ & _ & _ & _ & _ & _ & Haw & _).
    destruct (is_num_inv Haw) as (a & -> & _). discriminate.
Qed.

End FiniteRun.

(** ** Runs with non-zero withdrawal amounts *)

Section FiniteRunFacts.

Variable calcInputs : CalcInputs xnum.
Variable loanUtilization : xnum.
Hypothesis Hfin : finite_inputs calcInputs loanUtilization.
Hypothesis Hmembers : (0 < totalMembers calcInputs)%Z.
Hypothesis Hnonzero :
  forall i, (i < Z.to_nat (totalMembers calcInputs))%nat -> ~ q_withdrawal calcInputs i == 0.

Local Notation "'ws'" := (schedule_so_far (simulate calcInputs loanUtilization)).
Local Notation "'trace'" := (the_trace calcInputs loanUtilization).

Lemma schedule_entry n a :
  nth_error ws n = Some a ->
  exists s, nth_error trace n = Some (n, s) /\ record_is calcInputs loanUtilization a (n, s).
Proof.
  intros Hn.
  destruct (simulate_spec calcInputs loanUtilization Hfin Hmembers Hnonzero) as (_ & Hall).
  destruct (Forall2_nth_error _ _ _ Hall n a Hn) as ([j s] & Hj & Hr).
  pose proof (q_trace_index _ _ _ _ _ _ _ _ Hj) as E. cbn in E. subst j. eauto.
Qed.

Lemma schedule_length : length ws = length trace.
Proof.
  destruct (simulate_spec calcInputs loanUtilization Hfin Hmembers Hnonzero) as (_ & Hall).
  exact (Forall2_length Hall).
Qed.

Lemma schedule_length_bounds : (0 < length ws <= Z.to_nat (totalMembers calcInputs))%nat.
Proof.
  rewrite schedule_length. split.
  - pose proof (the_trace_nonempty calcInputs loanUtilization Hmembers) as Hne.
    destruct trace; [congruence | cbn [length]; lia].
  - unfold the_trace. apply q_trace_length.
Qed.

Lemma first_entry j s : nth_error trace 0 = Some (j, s) -> s = q_initial calcInputs.
Proof.
  unfold the_trace. destruct (Z.to_nat (totalMembers calcInputs)); cbn [q_trace nth_error].
  - discriminate.
  - destruct (Qltb 0 _); [|discriminate]. cbn [nth_error]. congruence.
Qed.

Lemma last_record_remaining lastRecord :
  nth_error ws (length ws - 1) = Some lastRecord ->
  is_num (remainingMembersAfter lastRecord)
         (q_remaining (the_final calcInputs loanUtilization)).
Proof.
  intros Hlast. destruct (schedule_entry _ _ Hlast) as (s & Hs & Hr).
  destruct Hr as (_ & _ & _ & _ & _ & _ & _ & _ & _ & Hrma & _).
  rewrite <- q_remaining_step in Hrma.
  remember (length ws - 1)%nat as n eqn:En.
  rewrite schedule_length in En.
  pose proof (q_final_last calcInputs loanUtilization (Z.to_nat (totalMembers calcInputs)) 0
                           (q_initial calcInputs)) as Hf.
  fold (the_trace calcInputs loanUtilization) in Hf.
  fold (the_final calcInputs loanUtilization) in Hf.
  destruct trace as [|e t]; [subst n; discriminate|].
  subst n. rewrite nth_error_last in Hs. injection Hs as Hs. rewrite Hs in Hf.
  cbn [fst snd] in Hf. rewrite Hf. exact Hrma.
Qed.

Lemma sum_actualWithdrawals_is :
  is_num (sum_actualWithdrawals ws) (q_paid calcInputs loanUtilization trace).
Proof.
  destruct (simulate_spec calcInputs loanUtilization Hfin Hmembers Hnonzero) as (_ & Hall).
  unfold sum_actualWithdrawals.
  assert (Hgen : forall acc qa, is_num acc qa ->
            is_num (fold_left (fun sum schedule => add sum (actualWithdrawals schedule)) ws acc)
                   (qa + q_paid calcInputs loanUtilization trace)).
  { induction Hall as [|r [j s] l l' Hr _ IH]; intros acc qa Hacc; cbn [fold_left q_paid fold_right].
    - eapply is_num_eq; [exact Hacc | lra].
    - destruct Hr as (_ & _ & _ & _ & _ & _ & Haw & _).
      eapply is_num_eq; [apply IH; apply (num_add Hacc Haw)|].
      cbn [fst snd]. unfold q_paid. lra. }
  eapply is_num_eq; [apply Hgen; apply (num_of_Z 0)|]. change (inject_Z 0) with 0. lra.
Qed.

(** Members served: the sum of the monthly counts is [totalMembersServed],
    and it does not exceed [totalMembers]. *)
Lemma served_is_sum lastRecord :
  nth_error ws (length ws - 1) = Some lastRecord ->
  strict_eqb (sum_actualWithdrawals ws)
             (sub (of_Z (totalMembers calcInputs)) (remainingMembersAfter lastRecord)) = true /\
  leb (sub (of_Z (totalMembers calcInputs)) (remainingMembersAfter lastRecord))
      (of_Z (totalMembers calcInputs)) = true.
Proof.
  intros Hlast. pose proof (last_record_remaining _ Hlast) as Hrem.
  pose proof (num_sub (num_of_Z (totalMembers calcInputs)) Hrem) as Hserved.
  pose proof (q_paid_total calcInputs loanUtilization
                (Z.to_nat (totalMembers calcInputs)) 0 (q_initial calcInputs)) as Hpaid.
  pose proof (q_final_nonneg calcInputs loanUtilization Hmembers
                (Z.to_nat (totalMembers calcInputs)) 0 (q_initial calcInputs)) as Hnn.
  fold (the_trace calcInputs loanUtilization) in Hpaid.
  fold (the_final calcInputs loanUtilization) in Hpaid, Hnn.
  cbn [q_initial q_remaining] in Hpaid, Hnn.
  pose proof (q_members_pos calcInputs Hmembers) as Hpos.
  unfold q_members in *.
  split.
  - rewrite (num_eqb sum_actualWithdrawals_is Hserved). apply Qeq_bool_iff. exact Hpaid.
  - rewrite (num_leb Hserved (num_of_Z _)). apply Qle_bool_iff.
    assert (0 <= q_remaining (the_final calcInputs loanUtilization)) by (apply Hnn; lra).
    lra.
Qed.

End FiniteRunFacts.

Section PositiveWithdrawals.

Variable calcInputs : CalcInputs xnum.
Variable loanUtilization : xnum.
Hypothesis Hfin : finite_inputs calcInputs loanUtilization.
Hypothesis Hmembers : (0 < totalMembers calcInputs)%Z.
Hypothesis Hfirst : 0 < val (firstWithdrawal calcInputs).
Hypothesis Hincrement : 0 <= val (monthlyIncrement calcInputs).

Local Notation "'ws'" := (schedule_so_far (simulate calcInputs loanUtilization)).
Local Notation "'trace'" := (the_trace calcInputs loanUtilization).

Lemma q_withdrawal_pos i : 0 < q_withdrawal calcInputs i.
Proof.
  unfold q_withdrawal.
  assert (0 <= inject_Z (Z.of_nat i)).
  { change 0 with (inject_Z 0). rewrite <- Zle_Qle. lia. }
  nra.
Qed.

Lemma q_withdrawal_nonzero :
  forall i, (i < Z.to_nat (totalMembers calcInputs))%nat -> ~ q_withdrawal calcInputs i == 0.
Proof. intros i _. pose proof (q_withdrawal_pos i). lra. Qed.

Lemma trace_integer n j s :
  nth_error trace n = Some (j, s) -> is_integer (q_remaining s) /\ 0 < q_remaining s.
Proof.
  apply (q_trace_invariant calcInputs loanUtilization (fun s => is_integer (q_remaining s))).
  - intros j' a _ Ha _. apply q_step_integer; assumption.
  - cbn [q_initial q_remaining]. apply is_integer_inject.
Qed.

(** What record [n] finds on entry is what [remaining_before] reads off the
    schedule. *)
Lemma remaining_before_is n s :
  nth_error trace n = Some (n, s) ->
  is_num (remaining_before calcInputs ws n) (q_remaining s).
Proof.
  intros Hn. destruct n as [|m]; cbn [remaining_before].
  - rewrite (first_entry _ _ q_withdrawal_nonzero _ _ Hn). cbn [q_initial q_remaining]. apply num_of_Z.
  - destruct (nth_error ws m) as [p|] eqn:Hp.
    + destruct (schedule_entry _ _ Hfin Hmembers q_withdrawal_nonzero _ _ Hp) as (sm & Hsm & Hr).
      destruct (q_trace_consecutive _ _ _ _ _ _ _ _ _ _ Hsm Hn) as (-> & _).
      rewrite q_remaining_step.
      destruct Hr as (_ & _ & _ & _ & _ & _ & _ & _ & _ & Hrma & _). exact Hrma.
    + exfalso. apply nth_error_None in Hp.
      rewrite (schedule_length _ _ Hfin Hmembers q_withdrawal_nonzero) in Hp.
      assert (S m < length trace)%nat by (apply nth_error_Some; congruence). lia.
Qed.

(** A settlement record pays every member still waiting and ends the
    schedule. *)
Lemma settlement_record n a :
  nth_error ws n = Some a ->
  isLastMonth a = true ->
  S n = length ws /\
  strict_eqb (actualWithdrawals a) (remaining_before calcInputs ws n) = true /\
  strict_eqb (remainingMembersAfter a) (of_Z 0) = true.
Proof.
  intros Hn Hlast.
  destruct (schedule_entry _ _ Hfin Hmembers q_withdrawal_nonzero _ _ Hn) as (s & Hs & Hr).
  destruct (trace_integer _ _ _ Hs) as (Hint & Hpos).
  destruct Hr as (_ & _ & _ & _ & _ & _ & Haw & _ & _ & Hrma & HisLast).
  rewrite Hlast in HisLast. symmetry in HisLast.
  pose proof (q_settlement_clears calcInputs loanUtilization Hmembers n s
                (q_withdrawal_pos n) Hint HisLast) as Hclear.
  repeat split.
  - rewrite (schedule_length _ _ Hfin Hmembers q_withdrawal_nonzero). symmetry.
    apply (q_trace_stops _ _ _ _ _ _ _ _ Hs). rewrite q_remaining_step. lra.
  - rewrite (num_eqb Haw (remaining_before_is _ _ Hs)). apply Qeq_bool_iff. exact Hclear.
  - rewrite (num_eqb Hrma (num_of_Z 0)). apply Qeq_bool_iff. change (inject_Z 0) with 0. lra.
Qed.

Section Solvent.

Hypothesis Hnet : 0 <= val (netPoolPerMonth_of calcInputs).
Hypothesis Hlu : 0 <= val loanUtilization.
Hypothesis Hlir : 0 <= val (loanInterestRate calcInputs).

Lemma q_netPool_nonneg : 0 <= q_netPool calcInputs.
Proof.
  pose proof (num_netPool calcInputs loanUtilization Hfin Hmembers) as HN.
  pose proof (is_num_val _ (is_num_finite _ _ HN)) as HV.
  rewrite (is_num_unique _ _ _ HN HV). exact Hnet.
Qed.

Lemma trace_solvent n j s :
  nth_error trace n = Some (j, s) -> solvent s /\ 0 < q_remaining s.
Proof.
  apply (q_trace_invariant calcInputs loanUtilization solvent).
  - intros j' a _ Ha _.
    apply (q_step_solvent calcInputs loanUtilization Hmembers q_netPool_nonneg Hlu Hlir);
      [apply q_withdrawal_pos | exact Ha].
  - split; cbn [q_initial q_remaining q_carry q_due]; [|lra].
    pose proof (q_members_pos calcInputs Hmembers). lra.
Qed.

(** Consecutive records: the member count does not grow, and the earlier
    record still has members waiting. *)
Lemma consecutive_records n a b :
  nth_error ws n = Some a ->
  nth_error ws (S n) = Some b ->
  leb (remainingMembersAfter b) (remainingMembersAfter a) = true /\
  ltb (of_Z 0) (remainingMembersAfter a) = true.
Proof.
  intros Ha Hb.
  destruct (schedule_entry _ _ Hfin Hmembers q_withdrawal_nonzero _ _ Ha) as (sa & Hsa & Hra).
  destruct (schedule_entry _ _ Hfin Hmembers q_withdrawal_nonzero _ _ Hb) as (sb & Hsb & Hrb).
  destruct (q_trace_consecutive _ _ _ _ _ _ _ _ _ _ Hsa Hsb) as (E & _).
  destruct (trace_solvent _ _ _ Hsb) as (Hsolv & Hpos).
  pose proof (q_actual_nonneg calcInputs loanUtilization Hmembers q_netPool_nonneg
                (S n) sb (q_withdrawal_pos (S n)) Hsolv) as Hact.
  destruct Hra as (_ & _ & _ & _ & _ & _ & _ & _ & _ & Hrma_a & _).
  destruct Hrb as (_ & _ & _ & _ & _ & _ & _ & _ & _ & Hrma_b & _).
  rewrite <- q_remaining_step, <- E in Hrma_a.
  split.
  - rewrite (num_leb Hrma_b Hrma_a). apply Qle_bool_iff. lra.
  - rewrite (num_ltb (num_of_Z 0) Hrma_a). apply Qltb_true. exact Hpos.
Qed.

End Solvent.

End PositiveWithdrawals.

(** ** The IRR solver *)

Lemma qpow_pos a n : 0 < a -> 0 < qpow a n.
Proof.
  intros Ha. induction n; cbn [qpow]; [reflexivity|].
  apply Qmult_lt_0_compat; assumption.
Qed.

Lemma num_decimal n d : ~ inject_Z d == 0 -> is_num (decimal n d) (inject_Z n / inject_Z d).
Proof. intros Hd. unfold decimal. apply num_div; [apply num_of_Z | apply num_of_Z | exact Hd]. Qed.

Lemma num_low_bound : is_num (neg (decimal 99 100)) (- (99 # 100)).
Proof. reflexivity. Qed.

Lemma num_default_tolerance : is_num default_tolerance (1 # 10000000).
Proof. reflexivity. Qed.

Section IRRFacts.

Variable cashFlows : list xnum.
Variable flows : list Q.
Hypothesis Hflows : Forall2 is_num cashFlows flows.
Variable tolerance : xnum.
Variable tol : Q.
Hypothesis Htol : is_num tolerance tol.
Hypothesis Htol_pos : 0 < tol.

Lemma num_one_plus rate x : is_num rate x -> is_num (add (of_Z 1) rate) (1 + x).
Proof. intros Hr. apply (num_add (num_of_Z 1) Hr). Qed.

Lemma npv_from_spec rate x :
  is_num rate x -> 0 < 1 + x ->
  forall cfs qs, Forall2 is_num cfs qs ->
  forall t npv a, is_num npv a ->
  is_num (npv_from rate cfs t npv) (q_npv_from x qs t a).
Proof.
  intros Hr Hx cfs qs Hall.
  induction Hall as [|c q cfs qs Hc _ IH]; intros t npv a Ha; cbn [npv_from q_npv_from].
  - exact Ha.
  - apply IH. apply (num_add Ha). apply (num_div Hc (num_pow t (num_one_plus _ _ Hr))).
    pose proof (qpow_pos (1 + x) t Hx). lra.
Qed.

Lemma npv_dnpv_from_spec rate x :
  is_num rate x -> 0 < 1 + x ->
  forall cfs qs, Forall2 is_num cfs qs ->
  forall t npv dnpv a b, is_num npv a -> is_num dnpv b ->
  is_num (fst (npv_dnpv_from rate cfs t npv dnpv)) (q_npv_from x qs t a) /\
  is_num (snd (npv_dnpv_from rate cfs t npv dnpv)) (q_dnpv_from x qs t b).
Proof.
  intros Hr Hx cfs qs Hall.
  induction Hall as [|c q cfs qs Hc _ IH]; intros t npv dnpv a b Ha Hb;
    cbn [npv_dnpv_from q_npv_from q_dnpv_from].
  - split; assumption.
  - apply IH.
    + apply (num_add Ha). apply (num_div Hc (num_pow t (num_one_plus _ _ Hr))).
      pose proof (qpow_pos (1 + x) t Hx). lra.
    + apply (num_sub Hb).
      apply (num_div (num_mul (num_of_Z (Z.of_nat t)) Hc) (num_pow (t + 1) (num_one_plus _ _ Hr))).
      pose proof (qpow_pos (1 + x) (t + 1) Hx). lra.
Qed.

Lemma in_bracket_pos x : in_bracket x -> 0 < 1 + x.
Proof. intros [H1 H2]. lra. Qed.

(** A rate returned by the Newton-Raphson phase lies in the bracket and has
    a net present value below the tolerance. *)
Lemma newton_sound n : forall rate x,
  is_num rate x -> in_bracket x ->
  forall r, newton cashFlows tolerance n rate = Converged r ->
  exists y, is_num r y /\ in_bracket y /\ Qabs (q_npv flows y) < tol.
Proof.
  induction n as [|n IH]; intros rate x Hr Hx r; cbn [newton]; [discriminate|].
  destruct (npv_dnpv_from_spec rate x Hr (in_bracket_pos x Hx) _ _ Hflows 0%nat
              (of_Z 0) (of_Z 0) _ _ (num_of_Z 0) (num_of_Z 0)) as (Hn & Hd).
  destruct (npv_dnpv_from rate cashFlows 0 (of_Z 0) (of_Z 0)) as (npv, dnpv).
  cbn [fst snd] in Hn, Hd. change (inject_Z 0) with 0 in Hn, Hd.
  rewrite (num_ltb (num_abs Hn) Htol).
  destruct (Qltb (Qabs _) tol) eqn:Hconv.
  - intros [= <-]. exists x. apply Qltb_true in Hconv. auto.
  - rewrite (num_ltb (num_abs Hd) Htol).
    destruct (Qltb (Qabs (q_dnpv_from x flows 0 0)) tol) eqn:Hflat; [discriminate|].
    apply Qltb_false in Hflat.
    assert (Hnz : ~ q_dnpv_from x flows 0 0 == 0).
    { intros E. rewrite E in Hflat. change (Qabs 0) with 0 in Hflat. lra. }
    pose proof (num_sub Hr (num_div Hn Hd Hnz)) as Hnew.
    rewrite (num_ltb Hnew num_low_bound).
    destruct (Qltb _ (- (99 # 100))) eqn:Hlow.
    + apply (IH _ (- (5 # 10))); [reflexivity | unfold in_bracket; lra].
    + rewrite (num_ltb (num_of_Z 10) Hnew).
      destruct (Qltb (inject_Z 10) _) eqn:Hhigh.
      * apply (IH _ 1); [reflexivity | unfold in_bracket; lra].
      * apply (IH _ _ Hnew). apply Qltb_false in Hlow, Hhigh.
        change (inject_Z 10) with 10 in Hhigh. unfold in_bracket. lra.
Qed.

(** Where the net present value stays at or above the tolerance in absolute
    value, the Newton-Raphson phase returns nothing. *)
Lemma newton_never_converges n :
  (forall y, in_bracket y -> tol <= Qabs (q_npv flows y)) ->
  forall rate x, is_num rate x -> in_bracket x ->
  newton cashFlows tolerance n rate = FellThrough.
Proof.
  intros Hbig rate x Hr Hx.
  destruct (newton cashFlows tolerance n rate) as [r|] eqn:E; [|reflexivity].
  destruct (newton_sound n rate x Hr Hx r E) as (y & _ & Hy & Hlt).
  specialize (Hbig y Hy). lra.
Qed.

Lemma num_mid low high l h :
  is_num low l -> is_num high h -> is_num (div (add low high) (of_Z 2)) ((l + h) / 2).
Proof.
  intros Hl Hh. apply (num_div (num_add Hl Hh) (num_of_Z 2)). discriminate.
Qed.

Lemma bisection_sound n : forall low high l h,
  is_num low l -> is_num high h -> in_bracket l -> in_bracket h ->
  forall r, bisection cashFlows tolerance n low high = Some r ->
  exists y, is_num r y /\ in_bracket y /\ Qabs (q_npv flows y) < tol.
Proof.
  induction n as [|n IH]; intros low high l h Hl Hh Bl Bh r; cbn [bisection]; [discriminate|].
  pose proof (num_mid _ _ _ _ Hl Hh) as Hm.
  assert (Bm : in_bracket ((l + h) / 2)).
  { destruct Bl, Bh. split.
    - apply Qle_shift_div_l; [reflexivity | lra].
    - apply Qle_shift_div_r; [reflexivity | lra]. }
  pose proof (npv_from_spec _ _ Hm (in_bracket_pos _ Bm) _ _ Hflows 0%nat _ _ (num_of_Z 0)) as Hn.
  pose proof (npv_from_spec _ _ Hl (in_bracket_pos _ Bl) _ _ Hflows 0%nat _ _ (num_of_Z 0)) as Hnl.
  change (inject_Z 0) with 0 in Hn, Hnl.
  rewrite (num_ltb (num_abs Hn) Htol).
  destruct (Qltb (Qabs _) tol) eqn:Hconv.
  - intros [= <-]. exists ((l + h) / 2). apply Qltb_true in Hconv. auto.
  - destruct (ltb (of_Z 0) _).
    + apply (IH _ _ _ _ Hm Hh Bm Bh).
    + apply (IH _ _ _ _ Hl Hm Bl Bm).
Qed.

Lemma bisection_never_converges n :
  (forall y, in_bracket y -> tol <= Qabs (q_npv flows y)) ->
  forall low high l h,
  is_num low l -> is_num high h -> in_bracket l -> in_bracket h ->
  bisection cashFlows tolerance n low high = None.
Proof.
  intros Hbig low high l h Hl Hh Bl Bh.
  destruct (bisection cashFlows tolerance n low high) as [r|] eqn:E; [|reflexivity].
  destruct (bisection_sound n _ _ _ _ Hl Hh Bl Bh r E) as (y & _ & Hy & Hlt).
  specialize (Hbig y Hy). lra.
Qed.

Lemma bracket_low : in_bracket (- (99 # 100)).
Proof. unfold in_bracket. lra. Qed.
Lemma bracket_high : in_bracket 10.
Proof. unfold in_bracket. lra. Qed.
Lemma bracket_guess : in_bracket (1 # 100).
Proof. unfold in_bracket. lra. Qed.

Lemma num_guess : is_num (decimal 1 100) (1 # 100).
Proof. reflexivity. Qed.

(** Whatever [calculateIRR] returns is a finite rate of the bracket whose
    net present value is below the tolerance. *)
Lemma calculateIRR_with_sound maxIterations r :
  calculateIRR_with cashFlows maxIterations tolerance = Some r ->
  exists y, is_num r y /\ in_bracket y /\ Qabs (q_npv flows y) < tol.
Proof.
  unfold calculateIRR_with.
  destruct (newton cashFlows tolerance maxIterations (decimal 1 100)) as [r'|] eqn:E.
  - intros [= <-]. apply (newton_sound _ _ _ num_guess bracket_guess _ E).
  - apply (bisection_sound _ _ _ _ _ num_low_bound (num_of_Z 10) bracket_low bracket_high).
Qed.

Lemma calculateIRR_with_none maxIterations :
  (forall y, in_bracket y -> tol <= Qabs (q_npv flows y)) ->
  calculateIRR_with cashFlows maxIterations tolerance = None.
Proof.
  intros Hbig. unfold calculateIRR_with.
  rewrite (newton_never_converges _ Hbig _ _ num_guess bracket_guess).
  apply (bisection_never_converges _ Hbig _ _ _ _ num_low_bound (num_of_Z 10)
           bracket_low bracket_high).
Qed.

End IRRFacts.

Lemma round_trip_flows_num r : Forall2 is_num (round_trip_flows (Fin r)) (q_round_trip_flows r).
Proof.
  repeat constructor; try apply num_of_Z.
  apply (num_mul (num_of_Z 100)). apply num_pow. apply (num_add (num_of_Z 1)). apply is_num_Fin.
Qed.

Lemma q_npv_round_trip r y :
  0 < 1 + y ->
  q_npv (q_round_trip_flows r) y * ((1 + y) * (1 + y) * (1 + y))
  == 100 * ((1 + r) * (1 + r) * (1 + r) - (1 + y) * (1 + y) * (1 + y)).
Proof.
  intros Hy. unfold q_npv, q_round_trip_flows. cbn [q_npv_from qpow].
  change (inject_Z (-100)) with (-100). change (inject_Z 0) with 0. change (inject_Z 100) with 100.
  field. lra.
Qed.

Lemma cube_difference a b :
  a * a * a - b * b * b == (a - b) * (a * a + a * b + b * b).
Proof. ring. Qed.

Section RoundTripFacts.

Variable r : Q.
Hypothesis Hr : in_bracket r.

Lemma npv_sign y : in_bracket y -> (0 < q_npv (q_round_trip_flows r) y <-> y < r).
Proof.
  intros Hy. pose proof (q_npv_round_trip r y (in_bracket_pos y Hy)) as E.
  destruct Hr as [Hr1 Hr2], Hy as [Hy1 Hy2].
  set (N := q_npv (q_round_trip_flows r) y) in *.
  set (a := 1 + r) in *. set (b := 1 + y) in *.
  assert (Ha : 1 # 100 <= a) by (unfold a; lra).
  assert (Hb : 1 # 100 <= b) by (unfold b; lra).
  assert (Hb3 : 0 < b * b * b) by (repeat apply Qmult_lt_0_compat; lra).
  assert (Hq : 0 < a * a + a * b + b * b) by nra.
  rewrite cube_difference in E.
  assert (Hyr : y < r <-> 0 < a - b) by (unfold a, b; split; intros; lra).
  rewrite Hyr. split; intros H.
  - assert (0 < N * (b * b * b)) by (apply Qmult_lt_0_compat; assumption).
    destruct (Qlt_le_dec 0 (a - b)) as [|Hle]; [assumption|exfalso].
    assert ((a - b) * (a * a + a * b + b * b) <= 0) by nra. lra.
  - assert (0 < (a - b) * (a * a + a * b + b * b)) by (apply Qmult_lt_0_compat; assumption).
    destruct (Qlt_le_dec 0 N) as [|Hle]; [assumption|exfalso].
    assert (N * (b * b * b) <= 0) by nra. lra.
Qed.

(** A rate whose net present value is below the tolerance is within the
    tolerance of [r]. *)
Lemma npv_small_near y :
  in_bracket y ->
  Qabs (q_npv (q_round_trip_flows r) y) < 1 # 10000000 ->
  Qabs (y - r) < 1 # 10000000.
Proof.
  intros Hy Hsmall. pose proof (q_npv_round_trip r y (in_bracket_pos y Hy)) as E.
  apply Qabs_Qlt_condition in Hsmall. destruct Hsmall as [Hs1 Hs2].
  destruct Hr as [Hr1 Hr2], Hy as [Hy1 Hy2].
  set (N := q_npv (q_round_trip_flows r) y) in *.
  set (a := 1 + r) in *. set (b := 1 + y) in *.
  assert (Ha : 1 # 100 <= a) by (unfold a; lra).
  assert (Hb : 1 # 100 <= b) by (unfold b; lra).
  assert (Hb' : b <= 11) by (unfold b; lra).
  assert (Hb3 : 0 < b * b * b) by (repeat apply Qmult_lt_0_compat; lra).
  rewrite cube_difference in E.
  assert (Hd : y - r == b - a) by (unfold a, b; ring).
  rewrite Hd. apply Qabs_Qlt_condition.
  assert (HN1 : N * (b * b * b) < (1 # 10000000) * (b * b * b)) by (apply Qmult_lt_compat_r; assumption).
  assert (HN2 : - (1 # 10000000) * (b * b * b) < N * (b * b * b)) by (apply Qmult_lt_compat_r; assumption).
  assert (Hbb : 0 < b * b) by (apply Qmult_lt_0_compat; lra).
  assert (Hab : 0 < a * b) by (apply Qmult_lt_0_compat; lra).
  assert (Haa : 0 < a * a) by (apply Qmult_lt_0_compat; lra).
  assert (Hb3le : b * b * b <= 11 * (b * b)) by nra.
  split.
  - (* b - a > -tol, i.e. a - b < tol *)
    destruct (Qlt_le_dec (- (1 # 10000000)) (b - a)) as [|Hle]; [assumption|exfalso].
    assert ((1 # 10000000) * (b * b) <= (a - b) * (a * a + a * b + b * b)).
    { assert ((1 # 10000000) * (b * b) <= (a - b) * (b * b)) by (apply Qmult_le_compat_r; lra).
      assert ((a - b) * (b * b) <= (a - b) * (a * a + a * b + b * b)) by (apply Qmult_le_l; lra).
      lra. }
    lra.
  - destruct (Qlt_le_dec (b - a) (1 # 10000000)) as [|Hle]; [assumption|exfalso].
    assert ((1 # 10000000) * (b * b) <= (b - a) * (a * a + a * b + b * b)).
    { assert ((1 # 10000000) * (b * b) <= (b - a) * (b * b)) by (apply Qmult_le_compat_r; lra).
      assert ((b - a) * (b * b) <= (b - a) * (a * a + a * b + b * b)) by (apply Qmult_le_l; lra).
      lra. }
    assert ((a - b) * (a * a + a * b + b * b) == - ((b - a) * (a * a + a * b + b * b))) by ring.
    lra.
Qed.

(** Close enough to [r] the net present value is below the tolerance. *)
Lemma npv_near_small y :
  in_bracket y ->
  Qabs (y - r) < close_enough ->
  Qabs (q_npv (q_round_trip_flows r) y) < 1 # 10000000.
Proof.
  intros Hy Hnear. pose proof (q_npv_round_trip r y (in_bracket_pos y Hy)) as E.
  apply Qabs_Qlt_condition in Hnear. destruct Hnear as [Hn1 Hn2]. unfold close_enough in *.
  destruct Hr as [Hr1 Hr2], Hy as [Hy1 Hy2].
  set (N := q_npv (q_round_trip_flows r) y) in *.
  set (a := 1 + r) in *. set (b := 1 + y) in *.
  assert (Ha : 1 # 100 <= a) by (unfold a; lra).
  assert (Ha' : a <= 11) by (unfold a; lra).
  assert (Hb : 1 # 100 <= b) by (unfold b; lra).
  assert (Hb' : b <= 11) by (unfold b; lra).
  assert (Hd1 : - (1 # 1000000000000000000) < b - a) by (unfold a, b; lra).
  assert (Hd2 : b - a < 1 # 1000000000000000000) by (unfold a, b; lra).
  rewrite cube_difference in E.
  assert (Hbb : (1 # 10000) <= b * b) by nra.
  assert (Hb3 : (1 # 1000000) <= b * b * b) by nra.
  assert (Hq1 : 0 < a * a + a * b + b * b) by nra.
  assert (Hq2 : a * a + a * b + b * b <= 363) by nra.
  assert (Hprod1 : (a - b) * (a * a + a * b + b * b) < (1 # 1000000000000000000) * 363).
  { destruct (Qlt_le_dec 0 (a - b)).
    - apply Qle_lt_trans with ((a - b) * 363).
      + apply Qmult_le_l; assumption.
      + apply Qmult_lt_compat_r; lra.
    - assert ((a - b) * (a * a + a * b + b * b) <= 0) by nra. lra. }
  assert (Hprod2 : - ((1 # 1000000000000000000) * 363) < (a - b) * (a * a + a * b + b * b)).
  { destruct (Qlt_le_dec 0 (b - a)).
    - assert ((b - a) * (a * a + a * b + b * b) < (1 # 1000000000000000000) * 363).
      { apply Qle_lt_trans with ((b - a) * 363).
        + apply Qmult_le_l; assumption.
        + apply Qmult_lt_compat_r; lra. }
      assert ((a - b) * (a * a + a * b + b * b) == - ((b - a) * (a * a + a * b + b * b))) by ring.
      lra.
    - assert (0 <= (a - b) * (a * a + a * b + b * b)) by nra. lra. }
  apply Qabs_Qlt_condition. split.
  - destruct (Qlt_le_dec (- (1 # 10000000)) N) as [|Hle]; [assumption|exfalso].
    assert (N * (b * b * b) <= - (1 # 10000000) * (1 # 1000000)) by nra. lra.
  - destruct (Qlt_le_dec N (1 # 10000000)) as [|Hle]; [assumption|exfalso].
    assert ((1 # 10000000) * (1 # 1000000) <= N * (b * b * b)) by nra. lra.
Qed.

End RoundTripFacts.

Section RoundTripSolver.

Variable r : Q.
Hypothesis Hr : in_bracket r.

Lemma npv_sign_neg y : in_bracket y -> (q_npv (q_round_trip_flows r) y < 0 <-> r < y).
Proof.
  intros Hy. pose proof (q_npv_round_trip r y (in_bracket_pos y Hy)) as E.
  destruct Hr as [Hr1 Hr2], Hy as [Hy1 Hy2].
  set (N := q_npv (q_round_trip_flows r) y) in *.
  set (a := 1 + r) in *. set (b := 1 + y) in *.
  assert (Ha : 1 # 100 <= a) by (unfold a; lra).
  assert (Hb : 1 # 100 <= b) by (unfold b; lra).
  assert (Hb3 : 0 < b * b * b) by (repeat apply Qmult_lt_0_compat; lra).
  assert (Hq : 0 < a * a + a * b + b * b) by nra.
  rewrite cube_difference in E.
  assert (Hyr : r < y <-> 0 < b - a) by (unfold a, b; split; intros; lra).
  rewrite Hyr. split; intros H.
  - destruct (Qlt_le_dec 0 (b - a)) as [|Hle]; [assumption|exfalso].
    assert (0 <= (a - b) * (a * a + a * b + b * b)) by nra.
    assert (N * (b * b * b) < 0) by nra. lra.
  - assert (0 < (b - a) * (a * a + a * b + b * b)) by (apply Qmult_lt_0_compat; assumption).
    assert ((a - b) * (a * a + a * b + b * b) == - ((b - a) * (a * a + a * b + b * b))) by ring.
    destruct (Qlt_le_dec N 0) as [|Hle]; [assumption|exfalso].
    assert (0 <= N * (b * b * b)) by nra. lra.
Qed.

Lemma qpow_2_ge_1 n : 1 <= qpow 2 n.
Proof. induction n; cbn [qpow]; lra. Qed.

(** Bisection on the synthetic sequence: once the interval holds [r] and is
    short enough for the iterations left, a rate is returned. *)
Lemma bisection_converges n : forall low high l h,
  is_num low l -> is_num high h -> in_bracket l -> in_bracket h ->
  l <= r -> r <= h ->
  h - l < close_enough * qpow 2 (S n) ->
  exists m, bisection (round_trip_flows (Fin r)) default_tolerance (S n) low high = Some m.
Proof.
  induction n as [|n IH]; intros low high l h Hl Hh Bl Bh Hlr Hrh Hwidth;
    cbn [bisection];
    pose proof (round_trip_flows_num r) as Hflows;
    pose proof (num_mid _ _ _ _ Hl Hh) as Hm;
    assert (Emid : (l + h) / 2 == (1 # 2) * (l + h)) by field;
    assert (Bm : in_bracket ((l + h) / 2))
      by (destruct Bl, Bh; unfold in_bracket; rewrite Emid; lra);
    pose proof (npv_from_spec _ _ Hm (in_bracket_pos _ Bm) _ _ Hflows 0%nat _ _ (num_of_Z 0)) as Hn;
    pose proof (npv_from_spec _ _ Hl (in_bracket_pos _ Bl) _ _ Hflows 0%nat _ _ (num_of_Z 0)) as Hnl;
    change (inject_Z 0) with 0 in Hn, Hnl;
    fold (q_npv (q_round_trip_flows r) ((l + h) / 2)) in Hn;
    fold (q_npv (q_round_trip_flows r) l) in Hnl;
    rewrite (num_ltb (num_abs Hn) num_default_tolerance);
    (destruct (Qltb (Qabs _) (1 # 10000000)) eqn:Hconv; [eauto|]);
    apply Qltb_false in Hconv;
    assert (Hfar : ~ Qabs ((l + h) / 2 - r) < close_enough)
      by (intros Hnear; pose proof (npv_near_small r Hr _ Bm Hnear); lra);
    assert (Hwide : 2 * close_enough <= h - l)
      by (destruct (Qlt_le_dec (h - l) (2 * close_enough)) as [Hlt|]; [exfalso|assumption];
          apply Hfar; apply Qabs_Qlt_condition; rewrite Emid; split; lra).
  - exfalso. cbn [qpow] in Hwidth. lra.
  - assert (Hwidth' : h - l < close_enough * (2 * qpow 2 (S n))) by exact Hwidth.
    rewrite (num_ltb (num_of_Z 0) (num_mul Hnl Hn)). change (inject_Z 0) with 0.
    pose proof (npv_sign r Hr _ Bm) as Hsm.
    pose proof (npv_sign r Hr _ Bl) as Hsl.
    pose proof (npv_sign_neg _ Bl) as Hsl'.
    set (Nl := q_npv (q_round_trip_flows r) l) in *.
    set (Nm := q_npv (q_round_trip_flows r) ((l + h) / 2)) in *.
    destruct (Qltb 0 (Nl * Nm)) eqn:Hsame.
    + apply Qltb_true in Hsame.
      assert (Hmr : (l + h) / 2 < r).
      { apply Hsm. destruct (Qlt_le_dec 0 Nm) as [|Hle]; [assumption|exfalso].
        destruct (Qlt_le_dec Nl 0) as [Hneg|Hnn].
        - apply Hsl' in Hneg. lra.
        - assert (Nl * Nm <= 0) by nra. lra. }
      apply (IH _ _ _ _ Hm Hh Bm Bh); [lra | lra |].
      rewrite Emid in *. lra.
    + apply Qltb_false in Hsame.
      assert (Hmr : r <= (l + h) / 2).
      { destruct (Qlt_le_dec ((l + h) / 2) r) as [Hlt|]; [exfalso|assumption].
        assert (0 < Nm) by (apply Hsm; exact Hlt).
        assert (0 < Nl) by (apply Hsl; rewrite Emid in Hlt; lra).
        assert (0 < Nl * Nm) by (apply Qmult_lt_0_compat; assumption). lra. }
      apply (IH _ _ _ _ Hl Hm Bl Bm); [lra | lra |].
      rewrite Emid in *. lra.
Qed.

End RoundTripSolver.

Lemma calculateIRR_unfold (cashFlows : list xnum) :
  calculateIRR cashFlows = calculateIRR_with cashFlows 100 default_tolerance.
Proof. reflexivity. Qed.

Lemma initial_width : inject_Z 10 - - (99 # 100) < close_enough * qpow 2 100.
Proof. vm_compute. reflexivity. Qed.

Lemma bisection_phase_returns (r : Q) :
  in_bracket r ->
  exists m, bisection (round_trip_flows (Fin r)) default_tolerance 100
                      (neg (decimal 99 100)) (of_Z 10) = Some m.
Proof.
  intros Hr.
  exact (bisection_converges r Hr 99 _ _ _ _ num_low_bound (num_of_Z 10)
           bracket_low bracket_high (proj1 Hr) (proj2 Hr) initial_width).
Qed.

Lemma round_trip_sound (r : Q) x :
  in_bracket r ->
  calculateIRR_with (round_trip_flows (Fin r)) 100 default_tolerance = Some x ->
  ltb (Math_abs (sub x (Fin r))) default_tolerance = true.
Proof.
  intros Hr Hx.
  destruct (calculateIRR_with_sound (round_trip_flows (Fin r)) (q_round_trip_flows r)
              (round_trip_flows_num r) default_tolerance (1 # 10000000)
              num_default_tolerance (eq_refl : 0 < 1 # 10000000) 100%nat x Hx)
    as (y & Hy & By & Hsmall).
  rewrite (num_ltb (num_abs (num_sub Hy (is_num_Fin r))) num_default_tolerance).
  apply Qltb_true. apply (npv_small_near r Hr y By Hsmall).
Qed.

Lemma round_trip_returns (r : Q) :
  in_bracket r ->
  exists x, calculateIRR_with (round_trip_flows (Fin r)) 100 default_tolerance = Some x.
Proof.
  intros Hr. unfold calculateIRR_with.
  destruct (newton (round_trip_flows (Fin r)) default_tolerance 100 (decimal 1 100)) as [x|].
  - exists x. reflexivity.
  - apply bisection_phase_returns. exact Hr.
Qed.

(** Claim C8 (round trip of the IRR solver).  For every rate [r] of the
    bracket, [-0.99 <= r <= 10], [calculateIRR] called with its default
    arguments on the sequence [[-100, 0, 0, 100 * (1 + r)^3]] returns a
    rate [x], and [|x - r| < tolerance] with the default tolerance 1e-7.
    The numbers are those of the exact instance. *)
Theorem irr_round_trip (r : Q) :
  in_bracket r ->
  exists x,
    calculateIRR (round_trip_flows (Fin r)) = Some x /\
    ltb (Math_abs (sub x (Fin r))) default_tolerance = true.
Proof.
  intros Hr. rewrite calculateIRR_unfold.
  destruct (round_trip_returns r Hr) as (x & Hx).
  exists x. split; [exact Hx | exact (round_trip_sound r x Hr Hx)].
Qed.

(** In binary64, with [Math.pow] as repeated multiplication, the same
    round trip evaluated at the two ends of the bracket, at 0 and at four
    rates between. *)
Lemma round_trip_binary64_samples :
  forallb (@round_trip_succeeds b64 _)
          [decimal (-99) 100; decimal (-50) 100; of_Z 0; decimal 1 100; decimal 5 100;
           of_Z 3; of_Z 10] = true.
Proof. vm_compute. reflexivity. Qed.

Lemma q_npv_from_negative x : 0 < 1 + x ->
  forall qs, Forall (fun q => q < 0) qs -> forall t a, q_npv_from x qs t a <= a.
Proof.
  intros Hx qs Hall. induction Hall as [|q qs Hq _ IH]; intros t a; cbn [q_npv_from].
  - lra.
  - eapply Qle_trans; [apply IH|].
    pose proof (qpow_pos (1 + x) t Hx) as Hp.
    assert (q / qpow (1 + x) t <= 0).
    { apply Qle_shift_div_r; [exact Hp | lra]. }
    lra.
Qed.

Lemma q_npv_from_positive x : 0 < 1 + x ->
  forall qs, Forall (fun q => 0 < q) qs -> forall t a, a <= q_npv_from x qs t a.
Proof.
  intros Hx qs Hall. induction Hall as [|q qs Hq _ IH]; intros t a; cbn [q_npv_from].
  - lra.
  - eapply Qle_trans; [|apply IH].
    pose proof (qpow_pos (1 + x) t Hx) as Hp.
    assert (0 <= q / qpow (1 + x) t).
    { apply Qle_shift_div_l; [exact Hp | lra]. }
    lra.
Qed.

Lemma q_npv_cons c qs x : q_npv (c :: qs) x = q_npv_from x qs 1 (0 + c / 1).
Proof. reflexivity. Qed.

Lemma finite_flows (cashFlows : list xnum) :
  Forall (fun c => is_finite c = true) cashFlows ->
  Forall2 is_num cashFlows (map val cashFlows).
Proof.
  induction 1 as [|c cs Hc _ IH]; constructor; [apply is_num_val; exact Hc | exact IH].
Qed.

(** Claim C9, amended (no sign change, no rate).  For every non-empty
    sequence of finite cash flows that are all negative, or all positive,
    and whose first entry is at least the tolerance 1e-7 in absolute value,
    [calculateIRR] returns [null].  The numbers are those of the exact
    instance. *)
Theorem irr_no_sign_change (cashFlows : list xnum) (first : xnum) (rest : list xnum) :
  cashFlows = first :: rest ->
  Forall (fun c => is_finite c = true /\ val c < 0) cashFlows \/
  Forall (fun c => is_finite c = true /\ 0 < val c) cashFlows ->
  (1 # 10000000) <= Qabs (val first) ->
  calculateIRR cashFlows = None.
Proof.
  intros -> Hsign Hbig. rewrite calculateIRR_unfold.
  assert (Hfin : Forall (fun c => is_finite c = true) (first :: rest)).
  { destruct Hsign as [H|H]; (eapply Forall_impl; [|exact H]); cbv beta; tauto. }
  apply (calculateIRR_with_none _ _ (finite_flows _ Hfin) _ _ num_default_tolerance
           (eq_refl : 0 < 1 # 10000000)).
  intros y Hy. pose proof (in_bracket_pos y Hy) as Hpos.
  cbn [map]. rewrite q_npv_cons.
  assert (E : 0 + val first / 1 == val first) by field.
  destruct Hsign as [H|H].
  - assert (Hneg : Forall (fun q => q < 0) (map val rest)).
    { inversion H as [|? ? _ Hr]; subst. apply Forall_map.
      eapply Forall_impl; [|exact Hr]. cbv beta. tauto. }
    pose proof (q_npv_from_negative y Hpos _ Hneg 1%nat (0 + val first / 1)) as Hle.
    inversion H as [|? ? [_ Hf] _]; subst.
    rewrite (Qabs_neg (val first)) in Hbig by lra.
    rewrite Qabs_neg; lra.
  - assert (Hp : Forall (fun q => 0 < q) (map val rest)).
    { inversion H as [|? ? _ Hr]; subst. apply Forall_map.
      eapply Forall_impl; [|exact Hr]. cbv beta. tauto. }
    pose proof (q_npv_from_positive y Hpos _ Hp 1%nat (0 + val first / 1)) as Hle.
    inversion H as [|? ? [_ Hf] _]; subst.
    rewrite (Qabs_pos (val first)) in Hbig by lra.
    rewrite Qabs_pos; lra.
Qed.

(** ** Runs with any withdrawal amount *)

Lemma add_NaN_r x : add x NaN = NaN.
Proof. destruct x; reflexivity. Qed.
Lemma add_NaN_l x : add NaN x = NaN.
Proof. reflexivity. Qed.
Lemma sub_NaN_l x : sub NaN x = NaN.
Proof. destruct x; reflexivity. Qed.
Lemma sub_NaN_r x : sub x NaN = NaN.
Proof. destruct x; reflexivity. Qed.
Lemma mul_NaN_r x : mul x NaN = NaN.
Proof. destruct x; reflexivity. Qed.
Lemma div_NaN_l x : div NaN x = NaN.
Proof. reflexivity. Qed.
Lemma ltb_NaN_r x : ltb x NaN = false.
Proof. destruct x; reflexivity. Qed.
Lemma min_NaN_l x : Math_min NaN x = NaN.
Proof. reflexivity. Qed.

Lemma schedule_grows {num} `{Number num} (calcInputs : CalcInputs num) (loanUtilization : num)
      left : forall i st,
  exists new, schedule_so_far (simulate_from calcInputs loanUtilization left i st)
              = schedule_so_far st ++ new.
Proof.
  induction left as [|left IH]; intros i st; cbn [simulate_from].
  - exists []. rewrite app_nil_r. reflexivity.
  - destruct (ltb (of_Z 0) (remainingMembers st)); [|exists []; rewrite app_nil_r; reflexivity].
    destruct (strict_eqb _ (of_Z 0)).
    + eexists. reflexivity.
    + destruct (IH (S i) (loop_body calcInputs loanUtilization i st)) as (new & ->).
      cbn [loop_body schedule_so_far]. rewrite <- app_assoc. eexists. reflexivity.
Qed.

Section AnyWithdrawal.

Variable calcInputs : CalcInputs xnum.
Variable loanUtilization : xnum.
Hypothesis Hfin : finite_inputs calcInputs loanUtilization.
Hypothesis Hmembers : (0 < totalMembers calcInputs)%Z.

Lemma poisoned_locals i st :
  poisoned st ->
  l_actualWithdrawals (month_locals calcInputs loanUtilization i st) = NaN /\
  l_remainingPool (month_locals calcInputs loanUtilization i st) = NaN /\
  l_loanAmount (month_locals calcInputs loanUtilization i st) = of_Z 0.
Proof.
  unfold poisoned. intros Hp. unfold month_locals. rewrite Hp.
  rewrite add_NaN_l, add_NaN_r, ltb_NaN_r.
  unfold withdraw_and_lend;
    cbn [l_actualWithdrawals l_remainingPool l_loanAmount negb andb].
  rewrite div_NaN_l. change (Math_floor NaN) with NaN.
  rewrite min_NaN_l, mul_NaN_r, sub_NaN_l, ltb_NaN_r. auto.
Qed.

Lemma poisoned_step i st :
  poisoned st ->
  poisoned (loop_body calcInputs loanUtilization i st) /\
  forall r, In r (schedule_so_far (loop_body calcInputs loanUtilization i st)) ->
            In r (schedule_so_far st) \/ countable r.
Proof.
  intros Hp. destruct (poisoned_locals i st Hp) as (Haw & Hrp & Hla).
  split.
  - unfold poisoned, loop_body; cbn [carryOverPool]. rewrite Hrp. apply sub_NaN_l.
  - intros r. cbn [loop_body schedule_so_far]. rewrite in_app_iff.
    intros [H|[<-|[]]]; [left; exact H | right].
    unfold countable, month_record; cbn [actualWithdrawals]. rewrite Haw. discriminate.
Qed.

(** A month whose withdrawal amount is zero: the division at line 339 is by
    zero. *)
Lemma zero_withdrawal_locals st s w e last cmc cpm av qa :
  state_is st s ->
  is_num w 0 -> is_num av qa ->
  let l := withdraw_and_lend calcInputs loanUtilization st w e last cmc cpm av in
  (0 < qa /\ is_num (l_actualWithdrawals l) (q_remaining s) /\
   is_num (l_remainingPool l) qa) \/
  (qa <= 0 /\ (l_actualWithdrawals l = NInf \/ l_actualWithdrawals l = NaN) /\
   l_remainingPool l = NaN /\ l_loanAmount l = of_Z 0).
Proof.
  intros (Hr & _ & _) Hw Hav.
  destruct (is_num_inv Hw) as (w' & -> & Ew).
  destruct (is_num_inv Hav) as (a & -> & Ea).
  destruct (is_num_inv Hr) as (r & Er & Er').
  unfold withdraw_and_lend;
    cbn [l_actualWithdrawals l_remainingPool l_loanAmount].
  rewrite Er, div_Fin.
  assert (Hz : Qeq_bool w' 0 = true) by (apply Qeq_bool_iff; exact Ew). rewrite Hz.
  destruct (a ?= 0) eqn:Hc; cbn [signed_inf].
  - right. apply Qeq_alt in Hc. split; [lra|].
    change (Math_floor NaN) with NaN. rewrite min_NaN_l, mul_NaN_r, sub_NaN_r, ltb_NaN_r.
    rewrite andb_false_r. auto.
  - right. apply Qlt_alt in Hc. split; [lra|].
    change (Math_floor NInf) with NInf. change (Math_min NInf (Fin r)) with NInf.
    assert (Hm : mul (Fin w') NInf = NaN).
    { change (mul (Fin w') NInf) with (signed_inf (0 ?= w')).
      assert (E0 : (0 ?= w') = Eq) by (apply Qeq_alt; lra). rewrite E0. reflexivity. }
    rewrite Hm, sub_NaN_r, ltb_NaN_r, andb_false_r. auto.
  - left. apply Qgt_alt in Hc. split; [lra|].
    change (Math_floor PInf) with PInf. change (Math_min PInf (Fin r)) with (Fin r).
    split; [exact Er'|].
    apply (is_num_eq _ (a - w' * r)).
    + apply num_sub; [apply is_num_Fin|]. apply num_mul; apply is_num_Fin.
    + rewrite Ew, Ea. ring.
Qed.

Lemma lend_finite st w e last cmc cpm av :
  is_finite (l_remainingPool
               (withdraw_and_lend calcInputs loanUtilization st w e last cmc cpm av)) = true ->
  is_finite (l_loanAmount
               (withdraw_and_lend calcInputs loanUtilization st w e last cmc cpm av)) = true /\
  is_finite (l_interestEarned
               (withdraw_and_lend calcInputs loanUtilization st w e last cmc cpm av)) = true /\
  is_finite (l_nextMonthRepayment
               (withdraw_and_lend calcInputs loanUtilization st w e last cmc cpm av)) = true.
Proof.
  unfold withdraw_and_lend;
    cbn [l_remainingPool l_loanAmount l_interestEarned l_nextMonthRepayment].
  intros Hrp. apply is_num_val in Hrp.
  pose proof (is_num_val _ (fin_loanUtilization Hfin)) as Hlu.
  pose proof (is_num_val _ (fin_loanInterestRate Hfin)) as Hlir.
  assert (H100 : ~ inject_Z 100 == 0) by discriminate.
  pose proof (num_div (num_mul Hrp Hlu) (num_of_Z 100) H100) as Hla.
  pose proof (num_div (num_mul Hla Hlir) (num_of_Z 100) H100) as Hie.
  pose proof (num_add Hla Hie) as Hnr.
  destruct (negb last && _); repeat split;
    first [ reflexivity | eapply is_num_finite; eassumption ].
Qed.

(** Whichever branch lines 322-337 take, the pool of the month is finite. *)
Lemma month_locals_shape i st s :
  state_is st s ->
  exists last cmc cpm av qa,
    month_locals calcInputs loanUtilization i st
    = withdraw_and_lend calcInputs loanUtilization st
        (add (firstWithdrawal calcInputs) (mul (monthlyIncrement calcInputs) (of_Z (Z.of_nat i))))
        (add (carryOverPool st) (loanRepaymentDue st)) last cmc cpm av /\
    is_num av qa.
Proof.
  intros (Hr & Hc & Hd).
  pose proof (q_members_pos calcInputs Hmembers) as Hpos.
  assert (Hm : ~ q_members calcInputs == 0) by lra.
  pose proof (num_withdrawal calcInputs loanUtilization Hfin i) as HW.
  pose proof (num_netPool calcInputs loanUtilization Hfin Hmembers) as HN.
  pose proof (num_commission calcInputs loanUtilization Hfin Hmembers) as HC.
  pose proof (num_add Hc Hd) as HE.
  pose proof (num_mul Hr HW) as HR.
  unfold month_locals.
  destruct (ltb _ _); [destruct (leb _ _)|]; do 5 eexists; (split; [reflexivity|]).
  - exact HE.
  - exact (num_add (num_sub (num_mul (num_div (num_add (num_sub HR HE) HC)
                                               (num_of_Z (totalMembers calcInputs)) Hm)
                                      (num_of_Z (totalMembers calcInputs))) HC) HE).
  - exact (num_add HN HE).
Qed.

Lemma any_step i st :
  finite_state st \/ poisoned st ->
  (finite_state (loop_body calcInputs loanUtilization i st) \/
   poisoned (loop_body calcInputs loanUtilization i st)) /\
  countable (month_record i (month_locals calcInputs loanUtilization i st)
                          (remainingMembers (loop_body calcInputs loanUtilization i st))).
Proof.
  intros [(s & Hst)|Hp].
  - destruct (Qeq_dec (q_withdrawal calcInputs i) 0) as [Hz|Hnz].
    + destruct (month_locals_shape i st s Hst) as (last & cmc & cpm & av & qa & E & Hav).
      pose proof (num_withdrawal calcInputs loanUtilization Hfin i) as HW.
      pose proof (is_num_eq _ _ _ HW Hz) as HW0.
      pose proof (zero_withdrawal_locals st s _ (add (carryOverPool st) (loanRepaymentDue st))
                    last cmc cpm av qa Hst HW0 Hav) as Hcases.
      cbv zeta in Hcases. rewrite <- E in Hcases.
      destruct Hcases as [(_ & Haw & Hrp)|(_ & Haw & Hrp & Hla)].
      * pose proof (is_num_finite _ _ Hrp) as Hrpf. rewrite E in Hrpf.
        destruct (lend_finite _ _ _ _ _ _ _ Hrpf) as (Hla & _ & Hnr). rewrite <- E in Hla, Hnr.
        destruct Hst as (Hr & _ & _). split.
        -- left. eexists {| q_remaining := _; q_carry := _; q_due := _ |}.
           unfold state_is, loop_body;
             cbn [remainingMembers carryOverPool loanRepaymentDue q_remaining q_carry q_due].
           repeat split;
             [ apply (num_sub Hr Haw) | apply (num_sub Hrp (is_num_val _ Hla))
             | apply (is_num_val _ Hnr) ].
        -- unfold countable, month_record; cbn [actualWithdrawals].
           destruct (is_num_inv Haw) as (a & -> & _). discriminate.
      * split.
        -- right. unfold poisoned, loop_body; cbn [carryOverPool]. rewrite Hrp. apply sub_NaN_l.
        -- unfold countable, month_record; cbn [actualWithdrawals].
           destruct Haw as [-> | ->]; discriminate.
    + split.
      * left. eexists. apply (loop_body_spec calcInputs loanUtilization Hfin Hmembers i st s Hst Hnz).
      * pose proof (month_locals_spec calcInputs loanUtilization Hfin Hmembers i st s Hst Hnz)
          as (_ & _ & _ & _ & _ & _ & Haw & _).
        unfold countable, month_record; cbn [actualWithdrawals].
        destruct (is_num_inv Haw) as (a & -> & _). discriminate.
  - destruct (poisoned_locals i st Hp) as (Haw & Hrp & Hla). split.
    + right. apply poisoned_step. exact Hp.
    + unfold countable, month_record; cbn [actualWithdrawals]. rewrite Haw. discriminate.
Qed.

Lemma any_run left : forall i st,
  finite_state st \/ poisoned st ->
  Forall countable (schedule_so_far st) ->
  Forall countable (schedule_so_far (simulate_from calcInputs loanUtilization left i st)).
Proof.
  induction left as [|left IH]; intros i st Hst Hall; cbn [simulate_from]; [exact Hall|].
  destruct (ltb (of_Z 0) (remainingMembers st)); [|exact Hall].
  destruct (any_step i st Hst) as (Hst' & Hc).
  assert (Hall' : Forall countable (schedule_so_far (loop_body calcInputs loanUtilization i st))).
  { cbn [loop_body schedule_so_far]. apply Forall_app. split; [exact Hall|].
    constructor; [exact Hc | constructor]. }
  destruct (strict_eqb _ (of_Z 0)); [exact Hall'|].
  apply IH; assumption.
Qed.

Lemma schedule_nonempty : schedule_so_far (simulate calcInputs loanUtilization) <> [].
Proof.
  unfold simulate.
  destruct (Z.to_nat (totalMembers calcInputs)) as [|n] eqn:En; [lia|].
  cbn [simulate_from].
  assert (Hpos : ltb (of_Z 0) (remainingMembers (initialState calcInputs)) = true).
  { cbn [initialState remainingMembers].
    rewrite (num_ltb (num_of_Z 0) (num_of_Z (totalMembers calcInputs))).
    apply Qltb_true. rewrite <- Zlt_Qlt. exact Hmembers. }
  rewrite Hpos.
  destruct (strict_eqb _ (of_Z 0)).
  - cbn [loop_body schedule_so_far initialState app]. discriminate.
  - destruct (schedule_grows calcInputs loanUtilization n 1
                (loop_body calcInputs loanUtilization 0 (initialState calcInputs))) as (new & ->).
    cbn [loop_body schedule_so_far initialState app]. discriminate.
Qed.

(** With members to serve and finite inputs the call returns, whatever
    the amounts are. *)
Lemma calculateChitDetails_always_returns :
  exists memberReturns lastRecord,
    member_returns_from (schedule_so_far (simulate calcInputs loanUtilization))
                        (schedule_so_far (simulate calcInputs loanUtilization)) 1
    = Returned memberReturns /\
    nth_error (schedule_so_far (simulate calcInputs loanUtilization))
              (length (schedule_so_far (simulate calcInputs loanUtilization)) - 1)
    = Some lastRecord /\
    calculateChitDetails calcInputs loanUtilization
    = Returned (details_of calcInputs (simulate calcInputs loanUtilization)
                           memberReturns lastRecord).
Proof.
  apply calculateChitDetails_returns; [exact Hmembers | exact schedule_nonempty |].
  unfold simulate. apply any_run.
  - left. exists (q_initial calcInputs). apply initial_state_is.
  - constructor.
Qed.

End AnyWithdrawal.

(** ** Finite results *)

Lemma round_finite x : is_finite x = true -> is_finite (Math_round x) = true.
Proof. destruct x; simpl; congruence. Qed.

Lemma add_finite x y : is_finite x = true -> is_finite y = true -> is_finite (add x y) = true.
Proof. destruct x, y; simpl; congruence. Qed.

Lemma sub_finite x y : is_finite x = true -> is_finite y = true -> is_finite (sub x y) = true.
Proof. destruct x, y; simpl; congruence. Qed.

Lemma mul_finite x y : is_finite x = true -> is_finite y = true -> is_finite (mul x y) = true.
Proof. destruct x, y; simpl; congruence. Qed.

Lemma neg_finite x : is_finite x = true -> is_finite (neg x) = true.
Proof. destruct x; simpl; congruence. Qed.

Section Finiteness.

Variable calcInputs : CalcInputs xnum.
Variable loanUtilization : xnum.
Hypothesis Hfin : finite_inputs calcInputs loanUtilization.
Hypothesis Hmembers : (0 < totalMembers calcInputs)%Z.
Hypothesis Hnonzero :
  forall i, (i < Z.to_nat (totalMembers calcInputs))%nat -> ~ q_withdrawal calcInputs i == 0.

Lemma record_is_finite r e :
  record_is calcInputs loanUtilization r e -> month_record_finite r = true.
Proof.
  destruct e as (i, s). intros (_ & H1 & H2 & H3 & H4 & H5 & H6 & H7 & H8 & H9 & _).
  unfold month_record_finite.
  rewrite (is_num_finite _ _ H1), (is_num_finite _ _ H2), (is_num_finite _ _ H3),
    (is_num_finite _ _ H4), (is_num_finite _ _ H5), (is_num_finite _ _ H6),
    (is_num_finite _ _ H7), (is_num_finite _ _ H8), (is_num_finite _ _ H9).
  reflexivity.
Qed.

Lemma schedule_records_finite :
  forallb month_record_finite (schedule_so_far (simulate calcInputs loanUtilization)) = true.
Proof.
  destruct (simulate_spec calcInputs loanUtilization Hfin Hmembers Hnonzero) as (_ & Hall).
  apply forallb_forall. intros r Hr.
  destruct (In_nth_error _ _ Hr) as (n & Hn).
  destruct (Forall2_nth_error _ _ _ Hall n r Hn) as (e & _ & He).
  exact (record_is_finite r e He).
Qed.

Lemma ledger_step i st s :
  state_is st s -> ~ q_withdrawal calcInputs i == 0 ->
  ledger_finite st -> ledger_finite (loop_body calcInputs loanUtilization i st).
Proof.
  intros Hst Hw (Hl & Ht & Hi).
  pose proof (month_locals_spec calcInputs loanUtilization Hfin Hmembers i st s Hst Hw)
    as (_ & _ & _ & _ & _ & _ & _ & _ & Hrp & _ & Hla & Hie & Hnr).
  unfold ledger_finite, loop_body;
    cbn [loans_so_far totalLoanAmount_acc totalInterestEarned_acc].
  destruct (l_lends _).
  - repeat split.
    + rewrite forallb_app, Hl. cbn [forallb]. unfold loan_record_finite, loan_record;
        cbn [availableForLoan loanAmount interestRate interestEarned repaymentDue].
      rewrite (round_finite _ (is_num_finite _ _ Hrp)), (round_finite _ (is_num_finite _ _ Hla)),
        (round_finite _ (is_num_finite _ _ Hie)), (round_finite _ (is_num_finite _ _ Hnr)),
        (fin_loanInterestRate Hfin). reflexivity.
    + apply add_finite; [exact Ht | exact (is_num_finite _ _ Hla)].
    + apply add_finite; [exact Hi | exact (is_num_finite _ _ Hie)].
  - repeat split; assumption.
Qed.

Lemma ledger_run left : forall i st s,
  state_is st s ->
  (forall j, (i <= j < i + left)%nat -> ~ q_withdrawal calcInputs j == 0) ->
  ledger_finite st ->
  ledger_finite (simulate_from calcInputs loanUtilization left i st).
Proof.
  induction left as [|left IH]; intros i st s Hst Hw Hl; cbn [simulate_from]; [exact Hl|].
  destruct (ltb (of_Z 0) (remainingMembers st)); [|exact Hl].
  assert (Hwi : ~ q_withdrawal calcInputs i == 0) by (apply Hw; lia).
  pose proof (ledger_step i st s Hst Hwi Hl) as Hl'.
  destruct (strict_eqb _ (of_Z 0)); [exact Hl'|].
  apply (IH (S i) _ _ (loop_body_spec calcInputs loanUtilization Hfin Hmembers i st s Hst Hwi)).
  - intros j Hj. apply Hw. lia.
  - exact Hl'.
Qed.

Lemma ledger_of_simulate : ledger_finite (simulate calcInputs loanUtilization).
Proof.
  unfold simulate. apply (ledger_run _ _ _ _ (initial_state_is calcInputs)).
  - intros j Hj. apply Hnonzero. lia.
  - repeat split.
Qed.

Lemma commission_total_finite : is_finite (snd (commission_unrounded calcInputs)) = true.
Proof.
  pose proof (num_commission calcInputs loanUtilization Hfin Hmembers) as HC.
  unfold commission_unrounded in *. destruct (commissionType calcInputs); cbn [fst snd] in *.
  - apply mul_finite; [exact (is_num_finite _ _ HC) | reflexivity].
  - apply Hfin.
Qed.

(** With non-zero withdrawal amounts every numeric field of the schedule,
    of the loans and of the aggregates is finite. *)
Lemma details_schedule_finite memberReturns lastRecord :
  nth_error (schedule_so_far (simulate calcInputs loanUtilization))
            (length (schedule_so_far (simulate calcInputs loanUtilization)) - 1)
  = Some lastRecord ->
  schedule_finite (details_of calcInputs (simulate calcInputs loanUtilization)
                              memberReturns lastRecord) = true.
Proof.
  intros Hlast.
  pose proof schedule_records_finite as Hrec.
  destruct ledger_of_simulate as (Hl & Ht & Hi).
  assert (Hlastf : month_record_finite lastRecord = true).
  { rewrite forallb_forall in Hrec. apply Hrec. eapply nth_error_In. exact Hlast. }
  unfold month_record_finite in Hlastf.
  repeat (apply andb_prop in Hlastf; destruct Hlastf as (Hlastf & ?)).
  unfold schedule_finite, details_of;
    cbn [totalPool commissionPerMonth totalCommission netPoolPerMonth totalMembersServed
         finalCarryOver totalLoanAmount totalInterestEarned withdrawalSchedule loanDetails].
  rewrite Hrec, Hl.
  rewrite (is_num_finite _ _ (num_totalPool calcInputs loanUtilization Hfin)).
  rewrite (round_finite _ (is_num_finite _ _ (num_commission calcInputs loanUtilization Hfin Hmembers))).
  rewrite (round_finite _ commission_total_finite).
  rewrite (is_num_finite _ _ (num_netPool calcInputs loanUtilization Hfin Hmembers)).
  rewrite (round_finite _ Ht), (round_finite _ Hi).
  rewrite sub_finite by (first [reflexivity | assumption]).
  repeat (rewrite andb_true_r || rewrite andb_true_l). assumption.
Qed.

End Finiteness.

Lemma month_record_finite_fields r :
  month_record_finite r = true ->
  is_finite (withdrawalAmount r) = true /\ is_finite (contributionPerMember r) = true.
Proof.
  unfold month_record_finite. intros H.
  repeat (apply andb_prop in H; destruct H as (H & ?)). split; assumption.
Qed.

Lemma of_Z_finite z : is_finite (of_Z z) = true.
Proof. reflexivity. Qed.

Section MemberReturns.

Variable withdrawalSchedule : list (MonthRecord xnum).
Hypothesis Hws : forallb month_record_finite withdrawalSchedule = true.

Lemma total_contribution_finite :
  is_finite (totalContributionForAllMembers withdrawalSchedule) = true.
Proof.
  unfold totalContributionForAllMembers.
  assert (Hgen : forall l acc, forallb month_record_finite l = true -> is_finite acc = true ->
            is_finite (fold_left (fun sum schedule => add sum (contributionPerMember schedule))
                                 l acc) = true).
  { induction l as [|r l IH]; intros acc Hl Hacc; cbn [fold_left]; [exact Hacc|].
    cbn [forallb] in Hl. apply andb_prop in Hl. destruct Hl as (Hr & Hl).
    apply IH; [exact Hl|]. apply add_finite; [exact Hacc|].
    apply (month_record_finite_fields r Hr). }
  apply Hgen; [exact Hws | reflexivity].
Qed.

Lemma cashFlows_finite schedule :
  month_record_finite schedule = true ->
  Forall (fun c => is_finite c = true) (cashFlows_of withdrawalSchedule schedule).
Proof.
  intros Hs. unfold cashFlows_of. apply Forall_map. apply Forall_forall.
  intros (month0, entry) Hin. apply in_combine_r in Hin.
  rewrite forallb_forall in Hws. specialize (Hws entry Hin).
  destruct (month_record_finite_fields _ Hws) as (_ & Hc).
  destruct (month_record_finite_fields _ Hs) as (Hw & _).
  destruct (Nat.eqb _ _).
  - apply add_finite; [exact Hw | apply neg_finite; exact Hc].
  - apply neg_finite; exact Hc.
Qed.

Lemma calculateIRR_finite cashFlows r :
  Forall (fun c => is_finite c = true) cashFlows ->
  calculateIRR cashFlows = Some r -> is_finite r = true.
Proof.
  intros Hcf Hr. rewrite calculateIRR_unfold in Hr.
  destruct (calculateIRR_with_sound _ _ (finite_flows _ Hcf) _ _ num_default_tolerance
              (eq_refl : 0 < 1 # 10000000) 100%nat r Hr) as (y & Hy & _).
  exact (is_num_finite _ _ Hy).
Qed.

Lemma pow_finite x n : is_finite x = true -> is_finite (Math_pow x n) = true.
Proof. destruct x; try discriminate. intros _. destruct n; reflexivity. Qed.

Lemma member_return_is_finite schedule memberNumber :
  month_record_finite schedule = true ->
  ~ val (totalContributionForAllMembers withdrawalSchedule) == 0 ->
  member_return_finite (member_return withdrawalSchedule schedule memberNumber) = true.
Proof.
  intros Hs Htotal.
  pose proof total_contribution_finite as Ht.
  destruct (month_record_finite_fields _ Hs) as (Hw & _).
  pose proof (is_num_val _ Ht) as Htn.
  pose proof (is_num_val _ Hw) as Hwn.
  pose proof (num_mul (num_div (num_sub Hwn Htn) Htn Htotal) (num_of_Z 100)) as Hpct.
  unfold member_return_finite, member_return;
    cbn [totalContribution withdrawal netReturn returnPercent monthlyIRR annualizedIRR].
  rewrite (round_finite _ Ht), Hw, (round_finite _ (sub_finite _ _ Hw Ht)),
    (is_num_finite _ _ Hpct).
  destruct (calculateIRR (cashFlows_of withdrawalSchedule schedule)) as [r|] eqn:E;
    [|reflexivity].
  pose proof (calculateIRR_finite _ r (cashFlows_finite schedule Hs) E) as Hr.
  cbn [optional_finite andb].
  rewrite (mul_finite r (of_Z 100) Hr (of_Z_finite 100)).
  apply mul_finite; [|reflexivity]. apply sub_finite; [|reflexivity].
  apply pow_finite. apply add_finite; [reflexivity | exact Hr].
Qed.

Lemma member_returns_finite :
  ~ val (totalContributionForAllMembers withdrawalSchedule) == 0 ->
  forall todo memberNumber l,
  forallb month_record_finite todo = true ->
  member_returns_from withdrawalSchedule todo memberNumber = Returned l ->
  forallb member_return_finite l = true.
Proof.
  intros Htotal todo. induction todo as [|schedule todo IH]; intros n l Htodo;
    cbn [member_returns_from].
  - intros [= <-]. reflexivity.
  - cbn [forallb] in Htodo. apply andb_prop in Htodo. destruct Htodo as (Hs & Htodo).
    destruct (trip_count (actualWithdrawals schedule)) as [k|]; [|discriminate].
    destruct (member_returns_from withdrawalSchedule todo (n + k)) as [later| |] eqn:E;
      try discriminate.
    intros [= <-]. rewrite forallb_app, (IH _ _ Htodo E), andb_true_r.
    apply forallb_forall. intros m Hm. apply in_map_iff in Hm. destruct Hm as (j & <- & _).
    apply member_return_is_finite; assumption.
Qed.

End MemberReturns.

Close Scope Q_scope.

(** ** The states of the loop *)

Lemma nth_error_seq_value k : forall a n x, nth_error (seq a k) n = Some x -> x = (a + n)%nat.
Proof.
  induction k as [|k IH]; intros a n x; cbn [seq].
  - destruct n; discriminate.
  - destruct n as [|n]; cbn [nth_error].
    + intros [= <-]. lia.
    + intros Hn. apply IH in Hn. lia.
Qed.

Section PeriodFacts.
Context {num : Type} `{Number num}.
Variable calcInputs : CalcInputs num.
Variable loanUtilization : num.

Lemma schedule_of_state_entering k :
  schedule_so_far (state_entering calcInputs loanUtilization k)
  = map (record_of calcInputs loanUtilization) (seq 0 k).
Proof.
  induction k as [|k IH]; [reflexivity|].
  rewrite seq_S, map_app. cbn [state_entering loop_body schedule_so_far].
  rewrite IH. reflexivity.
Qed.

Lemma simulate_from_state_entering left : forall i,
  exists k, (i <= k <= i + left)%nat /\
    simulate_from calcInputs loanUtilization left i (state_entering calcInputs loanUtilization i)
    = state_entering calcInputs loanUtilization k.
Proof.
  induction left as [|left IH]; intros i; cbn [simulate_from].
  - exists i. split; [lia | reflexivity].
  - destruct (ltb (of_Z 0) _); [|exists i; split; [lia | reflexivity]].
    destruct (strict_eqb _ (of_Z 0)).
    + exists (S i). split; [lia | reflexivity].
    + destruct (IH (S i)) as (k & Hk & E). exists k. split; [lia | exact E].
Qed.

(** The loop ends in the state entering some iteration [k], having run
    iterations [0 .. k-1]. *)
Lemma simulate_is_state_entering :
  exists k, (k <= Z.to_nat (totalMembers calcInputs))%nat /\
    simulate calcInputs loanUtilization = state_entering calcInputs loanUtilization k.
Proof.
  destruct (simulate_from_state_entering (Z.to_nat (totalMembers calcInputs)) 0)
    as (k & Hk & E).
  exists k. split; [lia | exact E].
Qed.

Lemma schedule_record n r :
  nth_error (schedule_so_far (simulate calcInputs loanUtilization)) n = Some r ->
  r = record_of calcInputs loanUtilization n.
Proof.
  destruct simulate_is_state_entering as (k & _ & ->).
  rewrite schedule_of_state_entering, nth_error_map. intros Hn.
  destruct (nth_error (seq 0 k) n) as [j|] eqn:Ej; [|discriminate].
  apply nth_error_seq_value in Ej. cbn in Ej. subst j.
  cbn [option_map] in Hn. congruence.
Qed.

Lemma schedule_length_le :
  (length (schedule_so_far (simulate calcInputs loanUtilization))
   <= Z.to_nat (totalMembers calcInputs))%nat.
Proof.
  destruct simulate_is_state_entering as (k & Hk & ->).
  rewrite schedule_of_state_entering, length_map, length_seq. exact Hk.
Qed.

End PeriodFacts.

(** Claim C6 (carry-over recurrence).  For every number model, every
    input and every two consecutive records [n] and [n + 1] of the
    schedule: the state entering period [n + 1] has
    [carryOverPool = remainingPool(n) - loanAmount(n)] and
    [loanRepaymentDue = nextMonthRepayment(n)], both on the unrounded
    locals of period [n]; the [effectiveCarryOver] of period [n + 1] is
    their sum; and the rounded values exist only in the records, as
    [Math.round] of those locals. *)
Theorem carry_over_recurrence {num : Type} `{Number num}
        (calcInputs : CalcInputs num) (loanUtilization : num)
        (n : nat) (thisMonth nextMonth : MonthRecord num) :
  nth_error (schedule_so_far (simulate calcInputs loanUtilization)) n = Some thisMonth ->
  nth_error (schedule_so_far (simulate calcInputs loanUtilization)) (S n) = Some nextMonth ->
  let entering := state_entering calcInputs loanUtilization (S n) in
  let l := locals_in calcInputs loanUtilization n in
  let l' := locals_in calcInputs loanUtilization (S n) in
  (* the state carried into period n+1, on unrounded values *)
  carryOverPool entering = sub (l_remainingPool l) (l_loanAmount l) /\
  loanRepaymentDue entering = l_nextMonthRepayment l /\
  l_effectiveCarryOver l'
  = add (sub (l_remainingPool l) (l_loanAmount l)) (l_nextMonthRepayment l) /\
  (* what the two records report is rounded from these values *)
  remainingPool thisMonth = Math_round (l_remainingPool l) /\
  carryOverFromPrevious nextMonth = Math_round (l_effectiveCarryOver l') /\
  availablePool nextMonth = Math_round (l_availablePool l').
Proof.
  intros Hn Hn'.
  rewrite (schedule_record calcInputs loanUtilization _ _ Hn).
  rewrite (schedule_record calcInputs loanUtilization _ _ Hn').
  cbv zeta. repeat split.
  unfold locals_in at 1. unfold month_locals.
  cbn [state_entering loop_body carryOverPool loanRepaymentDue].
  fold (locals_in calcInputs loanUtilization n).
  destruct (ltb _ _); [destruct (leb _ _)|]; reflexivity.
Qed.

(** ** The concrete scenario *)

Lemma returns_by_evaluation {num : Type} `{Number num}
      (calcInputs : CalcInputs num) (loanUtilization : num) :
  (0 <? totalMembers calcInputs)%Z = true ->
  negb (Nat.eqb (length (schedule_so_far (simulate calcInputs loanUtilization))) 0) = true ->
  forallb (fun r => is_some (trip_count (actualWithdrawals r)))
          (schedule_so_far (simulate calcInputs loanUtilization)) = true ->
  exists memberReturns lastRecord,
    member_returns_from (schedule_so_far (simulate calcInputs loanUtilization))
                        (schedule_so_far (simulate calcInputs loanUtilization)) 1
    = Returned memberReturns /\
    nth_error (schedule_so_far (simulate calcInputs loanUtilization))
              (length (schedule_so_far (simulate calcInputs loanUtilization)) - 1)
    = Some lastRecord /\
    calculateChitDetails calcInputs loanUtilization
    = Returned (details_of calcInputs (simulate calcInputs loanUtilization)
                           memberReturns lastRecord).
Proof.
  intros Hm Hne Hall. apply calculateChitDetails_returns.
  - apply Z.ltb_lt. exact Hm.
  - intros E. rewrite E in Hne. discriminate Hne.
  - apply Forall_forall. intros r Hr. rewrite forallb_forall in Hall.
    specialize (Hall r Hr). destruct (trip_count (actualWithdrawals r)); [discriminate|].
    discriminate Hall.
Qed.

Ltac evaluate_run inputs utilization Hcalc :=
  let H1 := fresh in
  let H2 := fresh in
  let H3 := fresh in
  let mr := fresh "memberReturns" in
  let lastRecord := fresh "lastRecord" in
  let Hlast := fresh in
  assert (H1 : (0 <? totalMembers inputs)%Z = true) by (vm_compute; reflexivity);
  assert (H2 : negb (Nat.eqb (length (schedule_so_far (simulate inputs utilization))) 0) = true)
    by (vm_compute; reflexivity);
  assert (H3 : forallb (fun r => is_some (trip_count (actualWithdrawals r)))
                       (schedule_so_far (simulate inputs utilization)) = true)
    by (vm_compute; reflexivity);
  destruct (returns_by_evaluation inputs utilization H1 H2 H3)
    as (mr & lastRecord & _ & Hlast & Hcalc);
  rewrite (schedule_record inputs utilization _ _ Hlast) in Hcalc;
  clear H1 H2 H3 Hlast.

(** Once the call is known to return, every field is computed. *)
Ltac evaluate_fields Hcalc :=
  eexists; split; [exact Hcalc|];
  cbn [details_of duration totalPool commissionPerMonth totalCommission netPoolPerMonth
       withdrawalSchedule totalMembersServed finalCarryOver loanDetails totalLoanAmount
       totalInterestEarned];
  repeat split; vm_compute; reflexivity.

Lemma scenario_exact : @scenario_holds xnum _.
Proof.
  evaluate_run (@default_inputs xnum _) (@of_Z xnum _ 50) Hcalc.
  evaluate_fields Hcalc.
Qed.

Lemma scenario_binary64 : @scenario_holds b64 _.
Proof.
  evaluate_run (@default_inputs b64 _) (@of_Z b64 _ 50) Hcalc.
  evaluate_fields Hcalc.
Qed.

(** Claim C1 (the concrete scenario).  With 20 members, a contribution of
    5000, a first withdrawal of 80000, an increment of 1000, a monthly
    commission of 5 %, a loan interest rate of 2 % and a loan utilization
    of 50 %, the call returns [totalPool = 100000],
    [commissionPerMonth = 5000] and [netPoolPerMonth = 95000]; the record of
    month 1 has [withdrawalAmount = 80000], [actualWithdrawals = 1] and
    [remainingPool = 15000]; the loan of month 1 has [loanAmount = 7500],
    [interestEarned = 150] and [repaymentDue = 7650].  This holds in exact
    arithmetic and, bit for bit, in binary64. *)
Theorem default_scenario : @scenario_holds xnum _ /\ @scenario_holds b64 _.
Proof. split; [exact scenario_exact | exact scenario_binary64]. Qed.

Open Scope Q_scope.

(** ** The claims on every input *)

(** Claim C2 (degenerate input).  For every number model and every input
    with [totalMembers <= 0] the call returns, without an error, a result
    whose [duration] is 0, whose eight aggregates are 0 and whose
    [withdrawalSchedule], [loanDetails] and [memberReturns] are empty. *)
Theorem degenerate_returns_empty {num : Type} `{Number num}
        (calcInputs : CalcInputs num) (loanUtilization : num) :
  (totalMembers calcInputs <= 0)%Z ->
  exists r,
    calculateChitDetails calcInputs loanUtilization = Returned r /\
    duration r = 0%nat /\
    totalPool r = of_Z 0 /\
    commissionPerMonth r = of_Z 0 /\
    totalCommission r = of_Z 0 /\
    netPoolPerMonth r = of_Z 0 /\
    totalMembersServed r = of_Z 0 /\
    finalCarryOver r = of_Z 0 /\
    totalLoanAmount r = of_Z 0 /\
    totalInterestEarned r = of_Z 0 /\
    withdrawalSchedule r = [] /\
    loanDetails r = [] /\
    memberReturns r = [].
Proof.
  intros Hm. exists emptyDetails. unfold calculateChitDetails.
  apply Z.leb_le in Hm. rewrite Hm. repeat split.
Qed.

(** The degenerate case at [totalMembers = 0], in binary64. *)
Lemma degenerate_returns_empty_witness :
  exists r,
    calculateChitDetails
      {| totalMembers := 0; monthlyContribution := of_Z 5000;
         firstWithdrawal := of_Z 80000; monthlyIncrement := of_Z 1000;
         commissionType := monthly; commissionRate := of_Z 5;
         oneTimeCommission := of_Z 10000; loanInterestRate := of_Z 2 |}
      (@of_Z b64 _ 50) = Returned r /\
    duration r = 0%nat /\
    totalPool r = of_Z 0 /\
    commissionPerMonth r = of_Z 0 /\
    totalCommission r = of_Z 0 /\
    netPoolPerMonth r = of_Z 0 /\
    totalMembersServed r = of_Z 0 /\
    finalCarryOver r = of_Z 0 /\
    totalLoanAmount r = of_Z 0 /\
    totalInterestEarned r = of_Z 0 /\
    withdrawalSchedule r = [] /\
    loanDetails r = [] /\
    memberReturns r = [].
Proof. apply degenerate_returns_empty. simpl. lia. Defined.




(** Claim C7, amended (commission model).  For finite inputs with
    [totalMembers > 0], in exact arithmetic, the call returns a result with
    [duration <= totalMembers] in which the commission is computed over the
    planned duration [totalMembers] and reported rounded: for a monthly
    commission [commissionPerMonth = round(totalPool * commissionRate / 100)]
    and [totalCommission = round(totalPool * commissionRate / 100 * totalMembers)];
    for a one-time commission
    [commissionPerMonth = round(oneTimeCommission / totalMembers)] and
    [totalCommission = round(oneTimeCommission)]. *)
Theorem commission_model (calcInputs : CalcInputs xnum) (loanUtilization : xnum) :
  finite_inputs calcInputs loanUtilization ->
  (0 < totalMembers calcInputs)%Z ->
  exists r,
    calculateChitDetails calcInputs loanUtilization = Returned r /\
    (duration r <= Z.to_nat (totalMembers calcInputs))%nat /\
    match commissionType calcInputs with
    | monthly =>
        commissionPerMonth r
        = Math_round (div (mul (totalPool r) (commissionRate calcInputs)) (of_Z 100)) /\
        totalCommission r
        = Math_round (mul (div (mul (totalPool r) (commissionRate calcInputs)) (of_Z 100))
                          (of_Z (totalMembers calcInputs)))
    | onetime =>
        commissionPerMonth r
        = Math_round (div (oneTimeCommission calcInputs) (of_Z (totalMembers calcInputs))) /\
        totalCommission r = Math_round (oneTimeCommission calcInputs)
    end.
Proof.
  intros Hfin Hm.
  destruct (calculateChitDetails_always_returns calcInputs loanUtilization Hfin Hm)
    as (mr & lastRecord & _ & _ & Hcalc).
  eexists. split; [exact Hcalc|].
  cbn [details_of duration totalPool commissionPerMonth totalCommission].
  split; [apply schedule_length_le|].
  unfold commission_unrounded. destruct (commissionType calcInputs); split; reflexivity.
Qed.


Close Scope Q_scope.

(** ** Inputs on which a stated property fails

    Each lemma evaluates the program on one input, in exact arithmetic and
    in binary64. *)

Lemma never_cleared_exact : @never_cleared xnum _.
Proof.
  evaluate_run (@unaffordable_inputs xnum _) (@of_Z xnum _ 50) Hcalc.
  evaluate_fields Hcalc.
Qed.

Lemma never_cleared_binary64 : @never_cleared b64 _.
Proof.
  evaluate_run (@unaffordable_inputs b64 _) (@of_Z b64 _ 50) Hcalc.
  evaluate_fields Hcalc.
Qed.

Lemma members_increase_exact : @members_increase xnum _.
Proof.
  evaluate_run (@negative_increment_inputs xnum _) (@of_Z xnum _ 50) Hcalc.
  evaluate_fields Hcalc.
Qed.

Lemma members_increase_binary64 : @members_increase b64 _.
Proof.
  evaluate_run (@negative_increment_inputs b64 _) (@of_Z b64 _ 50) Hcalc.
  evaluate_fields Hcalc.
Qed.


Lemma served_not_a_number_exact : @served_not_a_number xnum _.
Proof.
  evaluate_run (@zero_withdrawal_inputs xnum _) (@of_Z xnum _ 50) Hcalc.
  evaluate_fields Hcalc.
Qed.

Lemma served_not_a_number_binary64 : @served_not_a_number b64 _.
Proof.
  evaluate_run (@zero_withdrawal_inputs b64 _) (@of_Z b64 _ 50) Hcalc.
  evaluate_fields Hcalc.
Qed.


Lemma settlement_pays_nobody_exact : @settlement_pays_nobody xnum _.
Proof.
  evaluate_run (@negative_withdrawal_inputs xnum _) (@of_Z xnum _ 50) Hcalc.
  evaluate_fields Hcalc.
Qed.

Lemma settlement_pays_nobody_binary64 : @settlement_pays_nobody b64 _.
Proof.
  evaluate_run (@negative_withdrawal_inputs b64 _) (@of_Z b64 _ 50) Hcalc.
  evaluate_fields Hcalc.
Qed.


(** In binary64 the pool recomputed at lines 330-335 can fall short of what
    it was solved for: with 49 members and a commission of 1.5 %, month 18
    is flagged [isLastMonth] with 3 members waiting, its pool is
    290999.99999999994 instead of 3 * 97000, two members are paid, and a
    month 19 follows. *)
Lemma settlement_rounding_slip :
  exists r,
    calculateChitDetails (@rounding_inputs b64 _) (of_Z 50) = Returned r /\
    duration r = 19%nat /\
    option_map isLastMonth (nth_error (withdrawalSchedule r) 17) = Some true /\
    option_map withdrawalAmount (nth_error (withdrawalSchedule r) 17) = Some (of_Z 97000) /\
    option_map remainingMembersAfter (nth_error (withdrawalSchedule r) 16) = Some (of_Z 3) /\
    option_map actualWithdrawals (nth_error (withdrawalSchedule r) 17) = Some (of_Z 2) /\
    option_map remainingMembersAfter (nth_error (withdrawalSchedule r) 17) = Some (of_Z 1) /\
    l_availablePool (locals_in (@rounding_inputs b64 _) (of_Z 50) 17)
    = S754_finite false 4999341932543999 (-34).
Proof.
  evaluate_run (@rounding_inputs b64 _) (@of_Z b64 _ 50) Hcalc.
  evaluate_fields Hcalc.
Qed.

Lemma commission_over_planned_duration_exact : @commission_over_planned_duration xnum _.
Proof.
  evaluate_run (@default_inputs xnum _) (@of_Z xnum _ 50) Hcalc.
  evaluate_fields Hcalc.
Qed.

Lemma commission_over_planned_duration_binary64 : @commission_over_planned_duration b64 _.
Proof.
  evaluate_run (@default_inputs b64 _) (@of_Z b64 _ 50) Hcalc.
  evaluate_fields Hcalc.
Qed.

Lemma commission_is_rounded_exact : @commission_is_rounded xnum _.
Proof.
  evaluate_run (@fractional_commission_inputs xnum _) (@of_Z xnum _ 50) Hcalc.
  evaluate_fields Hcalc.
Qed.

Lemma commission_is_rounded_binary64 : @commission_is_rounded b64 _.
Proof.
  evaluate_run (@fractional_commission_inputs b64 _) (@of_Z b64 _ 50) Hcalc.
  evaluate_fields Hcalc.
Qed.

(** C7, counterexample: the default scenario returns [duration = 19] and
    [commissionPerMonth = 5000] but [totalCommission = 100000], which is
    5000 * 20 and not 5000 * 19.  With 3 members contributing 5 each, 5 % of
    the pool is 0.75 and the returned [commissionPerMonth] is 1. *)
Lemma total_commission_uses_planned_duration :
  (@commission_over_planned_duration xnum _ /\ @commission_over_planned_duration b64 _) /\
  (@commission_is_rounded xnum _ /\ @commission_is_rounded b64 _).
Proof.
  split; split;
    [exact commission_over_planned_duration_exact
    | exact commission_over_planned_duration_binary64
    | exact commission_is_rounded_exact
    | exact commission_is_rounded_binary64].
Qed.

(** C9, counterexample: the one-entry sequences [[-1e-8]] and [[1e-8]] have
    no sign change, yet their net present value is below the tolerance at
    the initial guess, and the solver returns 0.01. *)
Lemma irr_tiny_flow_converges : @tiny_flow_converges xnum _ /\ @tiny_flow_converges b64 _.
Proof. repeat split; vm_compute; reflexivity. Qed.

Lemma return_percent_divides_by_zero_exact : @return_percent_divides_by_zero xnum _.
Proof. eexists. split; [vm_compute; reflexivity|]. repeat split. Qed.

Lemma return_percent_divides_by_zero_binary64 : @return_percent_divides_by_zero b64 _.
Proof. eexists. split; [vm_compute; reflexivity|]. repeat split. Qed.


(** ** Instances of the theorems

    Each theorem with a hypothesis is applied once to a concrete input on
    which its hypotheses are decided by evaluation. *)

Lemma default_inputs_finite : finite_inputs (@default_inputs xnum _) (of_Z 50).
Proof. constructor; reflexivity. Defined.

Lemma Returned_inj {A : Type} (a b : A) : Returned a = Returned b -> a = b.
Proof. intros E. congruence. Qed.




(** The carry-over from month 4 to month 5 of the default scenario. *)
Lemma carry_over_recurrence_witness :
  let entering := state_entering (@default_inputs xnum _) (of_Z 50) 4 in
  let l := locals_in (@default_inputs xnum _) (of_Z 50) 3 in
  let l' := locals_in (@default_inputs xnum _) (of_Z 50) 4 in
  carryOverPool entering = sub (l_remainingPool l) (l_loanAmount l) /\
  loanRepaymentDue entering = l_nextMonthRepayment l /\
  l_effectiveCarryOver l'
  = add (sub (l_remainingPool l) (l_loanAmount l)) (l_nextMonthRepayment l) /\
  remainingPool (record_of (@default_inputs xnum _) (of_Z 50) 3)
  = Math_round (l_remainingPool l) /\
  carryOverFromPrevious (record_of (@default_inputs xnum _) (of_Z 50) 4)
  = Math_round (l_effectiveCarryOver l') /\
  availablePool (record_of (@default_inputs xnum _) (of_Z 50) 4)
  = Math_round (l_availablePool l').
Proof.
  apply (carry_over_recurrence (@default_inputs xnum _) (of_Z 50) 3); vm_compute; reflexivity.
Defined.

(** The commission of the default scenario. *)
Lemma commission_model_witness :
  exists r,
    calculateChitDetails (@default_inputs xnum _) (of_Z 50) = Returned r /\
    (duration r <= 20)%nat /\
    commissionPerMonth r = Math_round (div (mul (totalPool r) (of_Z 5)) (of_Z 100)) /\
    totalCommission r
    = Math_round (mul (div (mul (totalPool r) (of_Z 5)) (of_Z 100)) (of_Z 20)).
Proof.
  apply (commission_model default_inputs (of_Z 50) default_inputs_finite). reflexivity.
Defined.

(** The round trip at a rate of 5 %. *)
Lemma irr_round_trip_witness :
  exists x,
    calculateIRR (round_trip_flows (Fin (1 # 20))) = Some x /\
    ltb (Math_abs (sub x (Fin (1 # 20)))) default_tolerance = true.
Proof.
  apply (irr_round_trip (1 # 20)). split; vm_compute; discriminate.
Defined.

(** Three outflows of 5000 have no rate of return. *)
Lemma irr_no_sign_change_witness :
  calculateIRR [@of_Z xnum _ (-5000); of_Z (-5000); of_Z (-5000)] = None.
Proof.
  apply (irr_no_sign_change _ (of_Z (-5000)) [of_Z (-5000); of_Z (-5000)] eq_refl).
  - left. repeat constructor.
  - vm_compute. discriminate.
Defined.


(** * Further properties *)

(** ** The loop and its results, for every number model *)

Section ResultFacts.
Context {num : Type} `{Number num}.
Variable calcInputs : CalcInputs num.
Variable loanUtilization : num.

(** What a returned result is made of. *)
Lemma calculateChitDetails_inv (r : ChitDetails num) :
  calculateChitDetails calcInputs loanUtilization = Returned r ->
  ((totalMembers calcInputs <= 0)%Z /\ r = emptyDetails) \/
  ((0 < totalMembers calcInputs)%Z /\
   exists memberReturns lastRecord,
     member_returns_from (schedule_so_far (simulate calcInputs loanUtilization))
                         (schedule_so_far (simulate calcInputs loanUtilization)) 1
     = Returned memberReturns /\
     nth_error (schedule_so_far (simulate calcInputs loanUtilization))
               (length (schedule_so_far (simulate calcInputs loanUtilization)) - 1)
     = Some lastRecord /\
     r = details_of calcInputs (simulate calcInputs loanUtilization) memberReturns lastRecord).
Proof.
  unfold calculateChitDetails.
  destruct (totalMembers calcInputs <=? 0)%Z eqn:Em.
  - intros E. left. apply Z.leb_le in Em. split; [exact Em|]. congruence.
  - apply Z.leb_gt in Em. intros E. right. split; [exact Em|].
    destruct (commission_unrounded calcInputs) as [cpm tc] eqn:Ec.
    cbv zeta in E.
    destruct (member_returns_from _ _ 1) as [mr| |] eqn:Emr; try discriminate E.
    destruct (nth_error _ _) as [lastRecord|] eqn:El; try discriminate E.
    exists mr, lastRecord. split; [reflexivity|]. split; [reflexivity|].
    unfold details_of. rewrite Ec. cbn [fst snd]. congruence.
Qed.

Lemma loans_of_state_entering (k : nat) :
  loans_so_far (state_entering calcInputs loanUtilization k)
  = flat_map (loans_of calcInputs loanUtilization) (seq 0 k).
Proof.
  induction k as [|k IH]; [reflexivity|].
  rewrite seq_S, flat_map_app. cbn [flat_map state_entering loop_body loans_so_far plus].
  rewrite app_nil_r. fold (locals_in calcInputs loanUtilization k).
  unfold loans_of at 2. rewrite <- IH.
  destruct (l_lends _); [reflexivity|]. rewrite app_nil_r. reflexivity.
Qed.

End ResultFacts.

Section LoopFacts.
Context {num : Type} `{Number num}.
Variable calcInputs : CalcInputs num.
Variable loanUtilization : num.

(** The loop runs iterations [i .. k-1]: each is entered with
    [remainingMembers > 0], none but the last ends with
    [remainingMembers === 0], and when it stops before [i + left] the test
    of the loop head or the [break] of line 384 has fired. *)
Lemma simulate_from_runs left : forall i,
  exists k, (i <= k <= i + left)%nat /\
    simulate_from calcInputs loanUtilization left i (state_entering calcInputs loanUtilization i) = state_entering calcInputs loanUtilization k /\
    (forall j, (i <= j < k)%nat -> ltb (of_Z 0) (remainingMembers (state_entering calcInputs loanUtilization j)) = true) /\
    (forall j, (i < j < k)%nat -> strict_eqb (remainingMembers (state_entering calcInputs loanUtilization j)) (of_Z 0) = false) /\
    ((k < i + left)%nat ->
     (i < k)%nat /\ strict_eqb (remainingMembers (state_entering calcInputs loanUtilization k)) (of_Z 0) = true \/
     ltb (of_Z 0) (remainingMembers (state_entering calcInputs loanUtilization k)) = false).
Proof.
  induction left as [|left IH]; intros i; cbn [simulate_from].
  - exists i. repeat split; try lia; intros; lia.
  - destruct (ltb (of_Z 0) (remainingMembers (state_entering calcInputs loanUtilization i))) eqn:Epos.
    + change (loop_body calcInputs loanUtilization i (state_entering calcInputs loanUtilization i)) with (state_entering calcInputs loanUtilization (S i)).
      destruct (strict_eqb (remainingMembers (state_entering calcInputs loanUtilization (S i))) (of_Z 0)) eqn:Ezero.
      * exists (S i). split; [lia|]. split; [reflexivity|]. split; [|split].
        -- intros j Hj. replace j with i by lia. exact Epos.
        -- intros j Hj. lia.
        -- intros _. left. split; [lia | exact Ezero].
      * destruct (IH (S i)) as (k & Hk & E & Hpos & Hnz & Hstop).
        exists k. split; [lia|]. split; [exact E|]. split; [|split].
        -- intros j Hj. destruct (Nat.eq_dec j i) as [->|Hne]; [exact Epos|].
           apply Hpos. lia.
        -- intros j Hj. destruct (Nat.eq_dec j (S i)) as [->|Hne]; [exact Ezero|].
           apply Hnz. lia.
        -- intros Hlt. destruct Hstop as [[Hik Hz]|Hz]; [lia | |].
           ++ left. split; [lia | exact Hz].
           ++ right. exact Hz.
    + exists i. split; [lia|]. split; [reflexivity|]. split; [|split].
      * intros j Hj. lia.
      * intros j Hj. lia.
      * intros _. right. exact Epos.
Qed.

Lemma simulate_runs :
  exists k, (k <= Z.to_nat (totalMembers calcInputs))%nat /\
    simulate calcInputs loanUtilization = state_entering calcInputs loanUtilization k /\
    (forall j, (j < k)%nat -> ltb (of_Z 0) (remainingMembers (state_entering calcInputs loanUtilization j)) = true) /\
    (forall j, (0 < j < k)%nat -> strict_eqb (remainingMembers (state_entering calcInputs loanUtilization j)) (of_Z 0) = false) /\
    ((k < Z.to_nat (totalMembers calcInputs))%nat ->
     (0 < k)%nat /\ strict_eqb (remainingMembers (state_entering calcInputs loanUtilization k)) (of_Z 0) = true \/
     ltb (of_Z 0) (remainingMembers (state_entering calcInputs loanUtilization k)) = false).
Proof.
  destruct (simulate_from_runs (Z.to_nat (totalMembers calcInputs)) 0)
    as (k & Hk & E & Hpos & Hnz & Hstop).
  exists k. split; [lia|]. split; [exact E|]. split; [|split].
  - intros j Hj. apply Hpos. lia.
  - exact Hnz.
  - intros Hlt. apply Hstop. lia.
Qed.

Lemma nth_error_map_seq {A : Type} (f : nat -> A) k n a :
  nth_error (map f (seq 0 k)) n = Some a -> (n < k)%nat /\ a = f n.
Proof.
  rewrite nth_error_map. intros Hn.
  destruct (nth_error (seq 0 k) n) as [j|] eqn:Ej; [|discriminate].
  pose proof (nth_error_seq_value _ _ _ _ Ej) as Ev. cbn in Ev. subst j.
  assert (Hlt : (n < length (seq 0 k))%nat) by (apply nth_error_Some; congruence).
  rewrite length_seq in Hlt. cbn [option_map] in Hn. split; [exact Hlt | congruence].
Qed.

Lemma month_locals_lends i st :
  l_lends (month_locals calcInputs loanUtilization i st) = true ->
  l_isLastMonth (month_locals calcInputs loanUtilization i st) = false /\
  ltb (of_Z 0) (l_remainingPool (month_locals calcInputs loanUtilization i st)) = true.
Proof.
  unfold month_locals. cbv zeta.
  destruct (ltb _ _); [destruct (leb _ _)|];
    cbn [withdraw_and_lend l_lends l_isLastMonth l_remainingPool negb andb];
    try discriminate; intros E; split; [reflexivity | exact E].
Qed.

End LoopFacts.

Lemma map_seq_shift {A : Type} (f : nat -> A) (g : A -> nat) a k :
  (forall i, g (f i) = (i + 1)%nat) -> map g (map f (seq a k)) = seq (a + 1) k.
Proof.
  intros Hg. revert a. induction k as [|k IH]; intros a; [reflexivity|].
  cbn [seq map]. rewrite Hg, IH. replace (S a + 1)%nat with (S (a + 1)) by lia. reflexivity.
Qed.

(** X1 (shape of the schedule).  For every number model and every input on
    which the call returns a result: [duration] is the length of the
    schedule and at most [totalMembers]; with [totalMembers > 0] there is at
    least one record; record [n] (from 0) has [month = n + 1]; every record
    was pushed by an iteration entered with [remainingMembers > 0]; no
    record but the last has [remainingMembersAfter === 0]; and when the
    schedule is shorter than [totalMembers], its last record has
    [remainingMembersAfter === 0] or fails the test [remainingMembers > 0]. *)
Theorem schedule_shape {num : Type} `{Number num}
        (calcInputs : CalcInputs num) (loanUtilization : num) (r : ChitDetails num) :
  calculateChitDetails calcInputs loanUtilization = Returned r ->
  duration r = length (withdrawalSchedule r) /\
  (duration r <= Z.to_nat (totalMembers calcInputs))%nat /\
  ((0 < totalMembers calcInputs)%Z -> (0 < duration r)%nat) /\
  map month (withdrawalSchedule r) = seq 1 (duration r) /\
  (forall n a,
     nth_error (withdrawalSchedule r) n = Some a ->
     ltb (of_Z 0) (remaining_before calcInputs (withdrawalSchedule r) n) = true) /\
  (forall n a b,
     nth_error (withdrawalSchedule r) n = Some a ->
     nth_error (withdrawalSchedule r) (S n) = Some b ->
     strict_eqb (remainingMembersAfter a) (of_Z 0) = false) /\
  (forall last,
     (duration r < Z.to_nat (totalMembers calcInputs))%nat ->
     nth_error (withdrawalSchedule r) (duration r - 1) = Some last ->
     strict_eqb (remainingMembersAfter last) (of_Z 0) = true \/
     ltb (of_Z 0) (remainingMembersAfter last) = false).
Proof.
  intros Hcalc.
  destruct (calculateChitDetails_inv calcInputs loanUtilization r Hcalc)
    as [[Hm ->]|(Hm & mr & lastRecord & _ & Hlast & ->)].
  - cbn [emptyDetails duration withdrawalSchedule length map seq].
    repeat split; try lia; try reflexivity; intros; try lia;
      match goal with Hn : nth_error [] _ = Some _ |- _ => destruct n; discriminate Hn
                 | Hn : nth_error [] _ = Some _ |- _ => cbn in Hn; discriminate Hn end.
  - cbn [details_of duration withdrawalSchedule].
    destruct (simulate_runs calcInputs loanUtilization) as (k & Hk & E & Hpos & Hnz & Hstop).
    rewrite E in *. rewrite schedule_of_state_entering in *.
    rewrite length_map, length_seq in *.
    split; [reflexivity|]. split; [exact Hk|]. split; [|split; [|split; [|split]]].
    + intros _. destruct k; [|lia]. cbn in Hlast. discriminate Hlast.
    + apply map_seq_shift. intros i. reflexivity.
    + intros n a Hn. apply nth_error_map_seq in Hn. destruct Hn as [Hn _].
      destruct n as [|m]; cbn [remaining_before].
      * exact (Hpos 0%nat Hn).
      * assert (Hm' : (m < k)%nat) by lia.
        rewrite nth_error_map.
        assert (Es : nth_error (seq 0 k) m = Some m).
        { rewrite nth_error_seq. apply Nat.ltb_lt in Hm'. rewrite Hm'. reflexivity. }
        rewrite Es. cbn [option_map record_of month_record remainingMembersAfter].
        exact (Hpos (S m) Hn).
    + intros n a b Hn Hn'. apply nth_error_map_seq in Hn, Hn'.
      destruct Hn as [_ ->], Hn' as [Hlt _].
      cbn [record_of month_record remainingMembersAfter]. apply Hnz. lia.
    + intros last Hlt Hl. apply nth_error_map_seq in Hl. destruct Hl as [Hl ->].
      cbn [record_of month_record remainingMembersAfter].
      replace (S (k - 1)) with k by lia.
      destruct (Hstop Hlt) as [[_ Hz]|Hz]; [left | right]; assumption.
Qed.

Lemma loans_sorted {num : Type} `{Number num}
      (calcInputs : CalcInputs num) (loanUtilization : num) k : forall a,
  StronglySorted lt (map loan_month (flat_map (loans_of calcInputs loanUtilization) (seq a k))) /\
  Forall (fun m => (a < m)%nat) (map loan_month (flat_map (loans_of calcInputs loanUtilization) (seq a k))).
Proof.
  induction k as [|k IH]; intros a; cbn [seq flat_map map].
  - split; constructor.
  - destruct (IH (S a)) as [Hs Hf].
    assert (Hf' : Forall (fun m => (a + 1 < m)%nat)
                    (map loan_month (flat_map (loans_of calcInputs loanUtilization) (seq (S a) k)))).
    { eapply Forall_impl; [|exact Hf]. cbv beta. intros; lia. }
    unfold loans_of at 1 3. destruct (l_lends _); cbn [app map loan_record loan_month].
    + split.
      * constructor; [exact Hs | exact Hf'].
      * constructor; [lia|]. eapply Forall_impl; [|exact Hf]. cbv beta. intros; lia.
    + split; [exact Hs|]. eapply Forall_impl; [|exact Hf]. cbv beta. intros; lia.
Qed.

(** X2 (loans and settlement).  For every number model and every returned
    result: there are no more loans than months, the loans are listed by
    strictly increasing month, each carries the interest rate of the
    inputs, and each belongs to a record of the schedule with the same
    month that is not flagged [isLastMonth] and whose [remainingPool] is the
    loan's [availableForLoan]. *)
Theorem loans_only_before_settlement {num : Type} `{Number num}
        (calcInputs : CalcInputs num) (loanUtilization : num) (r : ChitDetails num) :
  calculateChitDetails calcInputs loanUtilization = Returned r ->
  (length (loanDetails r) <= duration r)%nat /\
  StronglySorted lt (map loan_month (loanDetails r)) /\
  forall loan,
    In loan (loanDetails r) ->
    interestRate loan = loanInterestRate calcInputs /\
    exists a,
      In a (withdrawalSchedule r) /\
      month a = loan_month loan /\
      isLastMonth a = false /\
      remainingPool a = availableForLoan loan.
Proof.
  intros Hcalc.
  destruct (calculateChitDetails_inv calcInputs loanUtilization r Hcalc)
    as [[Hm ->]|(Hm & mr & lastRecord & _ & Hlast & ->)].
  - cbn [emptyDetails duration loanDetails length map].
    split; [lia|]. split; [constructor|]. intros loan [].
  - cbn [details_of duration withdrawalSchedule loanDetails].
    destruct (simulate_is_state_entering calcInputs loanUtilization) as (k & _ & ->).
    rewrite schedule_of_state_entering, loans_of_state_entering.
    split; [|split].
    + rewrite length_map, length_seq.
      generalize 0%nat. induction k as [|k IH]; intros a; cbn [seq flat_map length]; [lia|].
      rewrite length_app. specialize (IH (S a)).
      unfold loans_of at 1. destruct (l_lends _); cbn [length]; lia.
    + apply loans_sorted.
    + intros loan Hin. apply in_flat_map in Hin. destruct Hin as (i & Hi & Hin).
      unfold loans_of in Hin.
      destruct (l_lends (locals_in calcInputs loanUtilization i)) eqn:El; [|destruct Hin].
      destruct Hin as [<-|[]]. split; [reflexivity|].
      exists (record_of calcInputs loanUtilization i). split; [apply in_map; exact Hi|].
      unfold locals_in in El. apply month_locals_lends in El. destruct El as [El _].
      cbn [record_of month_record loan_record month loan_month isLastMonth remainingPool
           availableForLoan].
      split; [reflexivity|]. split; [exact El | reflexivity].
Qed.

(** X3 (the earlier version without members).  The earlier version has no
    guard: for every number model, with [totalMembers <= 0] its loop does
    not run, and reading the last record of the empty schedule raises a
    TypeError. *)
Theorem legacy_raises_without_members {num : Type} `{Number num}
        (calcInputs : CalcInputs num) (loanUtilization : num) :
  (totalMembers calcInputs <= 0)%Z ->
  legacy_calculateChitDetails calcInputs loanUtilization = TypeError.
Proof.
  intros Hm. unfold legacy_calculateChitDetails, simulate.
  replace (Z.to_nat (totalMembers calcInputs)) with 0%nat by lia.
  destruct (commission_unrounded calcInputs). reflexivity.
Qed.

(** X4 (the two versions agree).  For every number model, with
    [totalMembers > 0], whenever the current version returns a result the
    earlier version returns the same value in each of the eleven fields it
    has. *)
Theorem legacy_agrees_with_members {num : Type} `{Number num}
        (calcInputs : CalcInputs num) (loanUtilization : num) (r : ChitDetails num) :
  (0 < totalMembers calcInputs)%Z ->
  calculateChitDetails calcInputs loanUtilization = Returned r ->
  legacy_calculateChitDetails calcInputs loanUtilization = Returned (without_memberReturns r).
Proof.
  intros Hm Hcalc.
  destruct (calculateChitDetails_inv calcInputs loanUtilization r Hcalc)
    as [[Hm' _]|(_ & mr & lastRecord & _ & Hlast & ->)]; [lia|].
  unfold legacy_calculateChitDetails.
  destruct (commission_unrounded calcInputs) as [cpm tc] eqn:Ec. cbv zeta.
  rewrite Hlast. unfold without_memberReturns, details_of. rewrite Ec. reflexivity.
Qed.

Section MemberNumbering.
Context {num : Type} `{Number num}.
Variable ws : list (MonthRecord num).

Lemma member_returns_from_split schedule rest n l :
  member_returns_from ws (schedule :: rest) n = Returned l ->
  exists k later,
    trip_count (actualWithdrawals schedule) = Some k /\
    member_returns_from ws rest (n + k) = Returned later /\
    l = map (member_return ws schedule) (seq n k) ++ later.
Proof.
  cbn [member_returns_from].
  destruct (trip_count (actualWithdrawals schedule)) as [k|]; [|discriminate].
  destruct (member_returns_from ws rest (n + k)) as [later| |] eqn:Elater; try discriminate.
  intros E. exists k, later. split; [reflexivity|]. split; [exact Elater|].
  injection E as <-. reflexivity.
Qed.

Lemma member_returns_from_members todo : forall n l,
  member_returns_from ws todo n = Returned l -> map member l = seq n (length l).
Proof.
  induction todo as [|schedule rest IH]; intros n l Hl.
  - cbn in Hl. injection Hl as <-. reflexivity.
  - apply member_returns_from_split in Hl. destruct Hl as (k & later & _ & Hlater & ->).
    rewrite map_app, length_app, length_map, length_seq, seq_app, (IH _ _ Hlater).
    f_equal. rewrite map_map. cbn [member_return member]. apply map_id.
Qed.

Lemma member_returns_from_in todo : forall n l m,
  member_returns_from ws todo n = Returned l ->
  In m l ->
  exists a k, In a todo /\ trip_count (actualWithdrawals a) = Some (S k) /\
              m = member_return ws a (member m).
Proof.
  induction todo as [|schedule rest IH]; intros n l m Hl Hin.
  - cbn in Hl. injection Hl as <-. destruct Hin.
  - apply member_returns_from_split in Hl. destruct Hl as (k & later & Hk & Hlater & ->).
    apply in_app_or in Hin. destruct Hin as [Hin|Hin].
    + apply in_map_iff in Hin. destruct Hin as (j & <- & Hj).
      destruct k as [|k]; [destruct Hj|].
      exists schedule, k. split; [left; reflexivity|]. split; [exact Hk | reflexivity].
    + destruct (IH _ _ _ Hlater Hin) as (a & k' & Ha & Hk' & E).
      exists a, k'. split; [right; exact Ha|]. split; assumption.
Qed.

Lemma member_returns_from_sorted todo : forall n l lo,
  member_returns_from ws todo n = Returned l ->
  StronglySorted lt (map month todo) ->
  Forall (fun a => (lo <= month a)%nat) todo ->
  StronglySorted le (map withdrawalMonth l) /\
  Forall (fun m => (lo <= withdrawalMonth m)%nat) l.
Proof.
  induction todo as [|schedule rest IH]; intros n l lo Hl Hs Hlo.
  - cbn in Hl. injection Hl as <-. split; constructor.
  - apply member_returns_from_split in Hl. destruct Hl as (k & later & _ & Hlater & ->).
    cbn [map] in Hs. apply StronglySorted_inv in Hs. destruct Hs as [Hs Hgt].
    assert (Hrest : Forall (fun a => (month schedule <= month a)%nat) rest).
    { pose proof (proj1 (Forall_map month (lt (month schedule)) rest) Hgt) as Hgt'.
      eapply Forall_impl; [|exact Hgt']. cbv beta. intros; lia. }
    destruct (IH _ _ _ Hlater Hs Hrest) as [Hsl Hfl].
    apply Forall_inv in Hlo.
    generalize (seq n k). intros js. induction js as [|j js IHjs]; cbn [map app].
    + split; [exact Hsl|]. eapply Forall_impl; [|exact Hfl]. cbv beta. intros; lia.
    + destruct IHjs as [IH1 IH2]. split.
      * constructor; [exact IH1|]. apply Forall_map.
        apply Forall_app. split.
        -- apply Forall_map. apply Forall_forall. intros; cbn; lia.
        -- exact Hfl.
      * constructor; [cbn; exact Hlo | exact IH2].
Qed.

End MemberNumbering.

Lemma seq_sorted k : forall a, StronglySorted lt (seq a k) /\ Forall (fun m => (a <= m)%nat) (seq a k).
Proof.
  induction k as [|k IH]; intros a; cbn [seq]; [split; constructor|].
  destruct (IH (S a)) as [Hs Hf]. split.
  - constructor; [exact Hs|]. eapply Forall_impl; [|exact Hf]. cbv beta. intros; lia.
  - constructor; [lia|]. eapply Forall_impl; [|exact Hf]. cbv beta. intros; lia.
Qed.

(** X5 (member returns in order).  For every number model and every returned
    result: the members are numbered 1, 2, ... in the order of the list,
    their withdrawal months never decrease, every entry shows the same
    [totalContribution], the rounded sum of the recorded contributions per
    member, [monthlyIRR] is null exactly when [annualizedIRR] is, and each
    entry belongs to a record of the schedule whose inner loop ran at least
    once, with the month and the withdrawal amount of that record. *)
Theorem members_numbered_in_order {num : Type} `{Number num}
        (calcInputs : CalcInputs num) (loanUtilization : num) (r : ChitDetails num) :
  calculateChitDetails calcInputs loanUtilization = Returned r ->
  map member (memberReturns r) = seq 1 (length (memberReturns r)) /\
  StronglySorted le (map withdrawalMonth (memberReturns r)) /\
  forall m,
    In m (memberReturns r) ->
    totalContribution m
    = Math_round (totalContributionForAllMembers (withdrawalSchedule r)) /\
    (monthlyIRR m = None <-> annualizedIRR m = None) /\
    exists a k,
      In a (withdrawalSchedule r) /\
      trip_count (actualWithdrawals a) = Some (S k) /\
      withdrawalMonth m = month a /\
      withdrawal m = withdrawalAmount a.
Proof.
  intros Hcalc.
  destruct (calculateChitDetails_inv calcInputs loanUtilization r Hcalc)
    as [[Hm ->]|(Hm & mr & lastRecord & Hmr & Hlast & ->)].
  - cbn [emptyDetails memberReturns map length seq]. split; [reflexivity|].
    split; [constructor|]. intros m [].
  - cbn [details_of memberReturns withdrawalSchedule].
    split; [exact (member_returns_from_members _ _ _ _ Hmr)|]. split.
    + refine (proj1 (member_returns_from_sorted _ _ _ _ 0%nat Hmr _ _)).
      * destruct (simulate_is_state_entering calcInputs loanUtilization) as (k & _ & ->).
        rewrite schedule_of_state_entering.
        rewrite (map_seq_shift _ month 0 k) by reflexivity. apply seq_sorted.
      * apply Forall_forall. intros; lia.
    + intros m Hin.
      destruct (member_returns_from_in _ _ _ _ _ Hmr Hin) as (a & k & Ha & Hk & ->).
      cbn [member_return totalContribution monthlyIRR annualizedIRR withdrawalMonth withdrawal
           member].
      split; [reflexivity|]. split.
      * destruct (calculateIRR _); split; intros E; first [discriminate E | reflexivity].
      * exists a, k. repeat split; assumption.
Qed.

(** ** The IRR solver, for every number model and in exact arithmetic *)

Section SolverFacts.
Context {num : Type} `{Number num}.

(** The Newton-Raphson phase and the bisection phase accumulate the same
    net present value. *)
Lemma npv_dnpv_from_fst rate cashFlows : forall t npv dnpv,
  fst (npv_dnpv_from rate cashFlows t npv dnpv) = npv_from rate cashFlows t npv.
Proof.
  induction cashFlows as [|cf rest IH]; intros t npv dnpv; cbn [npv_dnpv_from npv_from].
  - reflexivity.
  - apply IH.
Qed.

Lemma newton_meets_tolerance cashFlows tolerance n : forall rate r,
  newton cashFlows tolerance n rate = Converged r ->
  ltb (Math_abs (npv_from r cashFlows 0 (of_Z 0))) tolerance = true.
Proof.
  induction n as [|n IH]; intros rate r; cbn [newton]; [discriminate|].
  pose proof (npv_dnpv_from_fst rate cashFlows 0 (of_Z 0) (of_Z 0)) as Efst.
  destruct (npv_dnpv_from rate cashFlows 0 (of_Z 0) (of_Z 0)) as [npv dnpv].
  cbn [fst] in Efst. subst npv.
  destruct (ltb (Math_abs (npv_from rate cashFlows 0 (of_Z 0))) tolerance) eqn:Enpv.
  - intros [= <-]. exact Enpv.
  - destruct (ltb (Math_abs dnpv) tolerance); [discriminate|].
    repeat match goal with |- context [if ?c then _ else _] => destruct c end; apply IH.
Qed.

Lemma bisection_meets_tolerance cashFlows tolerance n : forall low high r,
  bisection cashFlows tolerance n low high = Some r ->
  ltb (Math_abs (npv_from r cashFlows 0 (of_Z 0))) tolerance = true.
Proof.
  induction n as [|n IH]; intros low high r; cbn [bisection]; [discriminate|].
  destruct (ltb (Math_abs (npv_from _ cashFlows 0 (of_Z 0))) tolerance) eqn:Enpv.
  - intros [= <-]. exact Enpv.
  - match goal with |- context [if ?c then _ else _] => destruct c end; apply IH.
Qed.

End SolverFacts.

(** X6 (a returned rate meets the tolerance).  For every number model,
    binary64 included, whatever the cash flows, the iteration bound and
    the tolerance: if [calculateIRR] returns a rate, the net present value
    at that rate, as the loop of lines 63-65 computes it, is below the
    tolerance in absolute value. *)
Theorem irr_result_meets_tolerance {num : Type} `{Number num}
        (cashFlows : list num) (maxIterations : nat) (tolerance rate : num) :
  calculateIRR_with cashFlows maxIterations tolerance = Some rate ->
  ltb (Math_abs (npv_from rate cashFlows 0 (of_Z 0))) tolerance = true.
Proof.
  unfold calculateIRR_with.
  destruct (newton cashFlows tolerance maxIterations (decimal 1 100)) as [r|] eqn:En.
  - intros [= <-]. exact (newton_meets_tolerance _ _ _ _ _ En).
  - apply bisection_meets_tolerance.
Qed.

Open Scope Q_scope.

Lemma is_num_val_eq (x : xnum) (q : Q) : is_num x q -> val x == q.
Proof.
  intros Hx. apply (is_num_unique x); [|exact Hx].
  apply is_num_val. exact (is_num_finite _ _ Hx).
Qed.

Lemma in_bracket_eq (a b : Q) : a == b -> in_bracket a -> in_bracket b.
Proof. unfold in_bracket. intros E [H1 H2]. rewrite <- E. split; assumption. Qed.

(** X7 (a returned rate lies in the bracket).  In exact arithmetic, for
    finite cash flows and a finite tolerance above 0, whatever the
    iteration bound: a rate that [calculateIRR] returns is finite and lies
    between -0.99 and 10, and the net present value at that rate is finite,
    so no discount factor was zero. *)
Theorem irr_result_is_in_bracket (cashFlows : list xnum) (maxIterations : nat)
        (tolerance rate : xnum) :
  Forall (fun c => is_finite c = true) cashFlows ->
  is_finite tolerance = true ->
  0 < val tolerance ->
  calculateIRR_with cashFlows maxIterations tolerance = Some rate ->
  is_finite rate = true /\
  - (99 # 100) <= val rate <= 10 /\
  is_finite (npv_from rate cashFlows 0 (of_Z 0)) = true.
Proof.
  intros Hflows Htol Hpos Hcalc.
  pose proof (finite_flows _ Hflows) as Hnum.
  pose proof (is_num_val _ Htol) as Htolnum.
  destruct (calculateIRR_with_sound _ _ Hnum _ _ Htolnum Hpos _ _ Hcalc)
    as (y & Hy & Hbracket & _).
  split; [exact (is_num_finite _ _ Hy)|]. split.
  - apply (in_bracket_eq y); [symmetry; apply is_num_val_eq; exact Hy | exact Hbracket].
  - exact (is_num_finite _ _
             (npv_from_spec rate y Hy (in_bracket_pos y Hbracket) _ _ Hnum 0%nat
                            (of_Z 0) (inject_Z 0) (num_of_Z 0))).
Qed.

Lemma never_below x tolerance :
  (is_finite tolerance = true -> val tolerance <= 0) ->
  tolerance <> PInf ->
  ltb (Math_abs x) tolerance = false.
Proof.
  intros Htol Hinf.
  destruct tolerance as [t| | |]; try congruence;
    destruct x as [a| | |]; try reflexivity.
  specialize (Htol eq_refl). cbn [val] in Htol.
  rewrite (num_ltb (num_abs (is_num_Fin a)) (is_num_Fin t)).
  apply Qltb_false. pose proof (Qabs_nonneg a). lra.
Qed.

Lemma newton_never_meets cashFlows tolerance n : forall rate,
  (is_finite tolerance = true -> val tolerance <= 0) ->
  tolerance <> PInf ->
  newton cashFlows tolerance n rate = FellThrough.
Proof.
  induction n as [|n IH]; intros rate Htol Hinf; cbn [newton]; [reflexivity|].
  destruct (npv_dnpv_from rate cashFlows 0 (of_Z 0) (of_Z 0)) as [npv dnpv].
  rewrite (never_below npv tolerance Htol Hinf), (never_below dnpv tolerance Htol Hinf).
  destruct (ltb _ _); [|destruct (ltb _ _)]; apply IH; assumption.
Qed.

Lemma bisection_never_meets cashFlows tolerance n : forall low high,
  (is_finite tolerance = true -> val tolerance <= 0) ->
  tolerance <> PInf ->
  bisection cashFlows tolerance n low high = None.
Proof.
  induction n as [|n IH]; intros low high Htol Hinf; cbn [bisection]; [reflexivity|].
  rewrite (never_below _ tolerance Htol Hinf).
  destruct (ltb _ _); apply IH; assumption.
Qed.

(** X8 (a tolerance that cannot be met).  In exact arithmetic, unless
    [tolerance > 0] holds (so for 0, a negative tolerance, -Infinity or
    NaN), [calculateIRR] returns null, whatever the cash flows and the
    iteration bound. *)
Theorem irr_needs_positive_tolerance (cashFlows : list xnum) (maxIterations : nat)
        (tolerance : xnum) :
  ltb (of_Z 0) tolerance = false ->
  calculateIRR_with cashFlows maxIterations tolerance = None.
Proof.
  intros Htol.
  assert (Hle : is_finite tolerance = true -> val tolerance <= 0).
  { intros Hfin. pose proof (is_num_val _ Hfin) as Hnum.
    rewrite (num_ltb (num_of_Z 0) Hnum) in Htol. apply Qltb_false in Htol. exact Htol. }
  assert (Hinf : tolerance <> PInf) by (intros ->; discriminate Htol).
  unfold calculateIRR_with.
  rewrite (newton_never_meets _ _ _ _ Hle Hinf).
  apply bisection_never_meets; assumption.
Qed.

(** ** Periods in exact arithmetic *)

Section ExactPeriods.
Variable calcInputs : CalcInputs xnum.
Variable loanUtilization : xnum.
Hypothesis Hfin : finite_inputs calcInputs loanUtilization.
Hypothesis Hmembers : (0 < totalMembers calcInputs)%Z.

Lemma state_entering_is k :
  (forall i, (i < k)%nat -> ~ q_withdrawal calcInputs i == 0) ->
  state_is (state_entering calcInputs loanUtilization k) (q_entering calcInputs loanUtilization k).
Proof.
  induction k as [|k IH]; intros Hnz.
  - cbn [state_entering q_entering]. apply initial_state_is.
  - cbn [state_entering q_entering].
    apply (loop_body_spec calcInputs loanUtilization Hfin Hmembers).
    + apply IH. intros i Hi. apply Hnz. lia.
    + apply Hnz. lia.
Qed.

Lemma locals_in_are k :
  (forall i, (i <= k)%nat -> ~ q_withdrawal calcInputs i == 0) ->
  locals_are calcInputs k (locals_in calcInputs loanUtilization k)
             (q_locals_in calcInputs loanUtilization k).
Proof.
  intros Hnz. unfold locals_in, q_locals_in.
  apply (month_locals_spec calcInputs loanUtilization Hfin Hmembers).
  - apply state_entering_is. intros i Hi. apply Hnz. lia.
  - apply Hnz. lia.
Qed.

Lemma record_of_is k :
  (forall i, (i <= k)%nat -> ~ q_withdrawal calcInputs i == 0) ->
  record_is calcInputs loanUtilization (record_of calcInputs loanUtilization k)
            (k, q_entering calcInputs loanUtilization k).
Proof.
  intros Hnz. unfold record_of, locals_in. cbn [state_entering].
  apply (month_record_is calcInputs loanUtilization Hfin Hmembers).
  - apply state_entering_is. intros i Hi. apply Hnz. lia.
  - apply Hnz. lia.
Qed.

Lemma q_entering_integer k : is_integer (q_remaining (q_entering calcInputs loanUtilization k)).
Proof.
  induction k as [|k IH]; cbn [q_entering].
  - exists (totalMembers calcInputs). reflexivity.
  - apply q_step_integer; assumption.
Qed.

End ExactPeriods.

Lemma Qround_le (a b : Q) : a <= b -> Qround a <= Qround b.
Proof.
  intros Hab. unfold Qround. rewrite <- Zle_Qle. apply Qfloor_resp_le. lra.
Qed.

Lemma Qround_nonneg (a : Q) : 0 <= a -> 0 <= Qround a.
Proof.
  intros Ha. change 0 with (inject_Z 0). unfold Qround. rewrite <- Zle_Qle.
  apply Qfloor_ge_integer. change (inject_Z 0) with 0. lra.
Qed.

Lemma Qround_integer (k : Z) : Qround (inject_Z k) == inject_Z k.
Proof.
  unfold Qround. apply inject_Z_injective.
  assert (H1 : (k <= Qfloor (inject_Z k + (1 # 2)))%Z).
  { apply Qfloor_ge_integer. lra. }
  assert (H2 : (Qfloor (inject_Z k + (1 # 2)) < k + 1)%Z).
  { rewrite Zlt_Qlt. pose proof (Qfloor_le (inject_Z k + (1 # 2))).
    rewrite inject_Z_plus. change (inject_Z 1) with 1. lra. }
  lia.
Qed.

Lemma Qround_near (a : Q) : Qround a <= a + (1 # 2) /\ a - (1 # 2) < Qround a.
Proof.
  unfold Qround. split.
  - apply Qfloor_le.
  - pose proof (Qlt_floor (a + (1 # 2))) as Hlt.
    rewrite inject_Z_plus in Hlt. change (inject_Z 1) with 1 in Hlt. lra.
Qed.

Section PoolFacts.
Variable calcInputs : CalcInputs xnum.
Variable loanUtilization : xnum.
Hypothesis Hmembers : (0 < totalMembers calcInputs)%Z.

Lemma paid_within (w available remaining : Q) :
  0 < w ->
  w * Qmin (inject_Z (Qfloor (available / w))) remaining <= available.
Proof.
  intros Hw.
  pose proof (Q.le_min_l (inject_Z (Qfloor (available / w))) remaining) as Hmin.
  pose proof (Qfloor_le (available / w)) as Hfloor.
  assert (E : w * (available / w) == available) by (field; lra).
  rewrite <- E at 2. apply Qmult_le_l; [exact Hw|]. lra.
Qed.

Lemma q_pool_nonneg i s :
  0 < q_withdrawal calcInputs i ->
  q_withdrawn (q_locals calcInputs loanUtilization i s)
  <= q_available (q_locals calcInputs loanUtilization i s) /\
  0 <= q_remainingPool (q_locals calcInputs loanUtilization i s).
Proof.
  intros Hw.
  destruct (q_locals_shape calcInputs loanUtilization Hmembers i s)
    as (contribution & perMember & available & -> & _).
  cbn [q_withdraw_and_lend q_withdrawn q_available q_remainingPool].
  pose proof (paid_within (q_withdrawal calcInputs i) available (q_remaining s) Hw).
  split; lra.
Qed.

Lemma q_loan_within i s :
  0 <= val loanUtilization <= 100 ->
  0 <= val (loanInterestRate calcInputs) ->
  q_lends (q_locals calcInputs loanUtilization i s) = true ->
  0 < q_remainingPool (q_locals calcInputs loanUtilization i s) /\
  0 <= q_loan (q_locals calcInputs loanUtilization i s)
  <= q_remainingPool (q_locals calcInputs loanUtilization i s) /\
  0 <= q_interest (q_locals calcInputs loanUtilization i s) /\
  q_repayment (q_locals calcInputs loanUtilization i s)
  == q_loan (q_locals calcInputs loanUtilization i s)
     + q_interest (q_locals calcInputs loanUtilization i s).
Proof.
  intros Hlu Hlir.
  destruct (q_locals_shape calcInputs loanUtilization Hmembers i s)
    as (contribution & perMember & available & -> & _).
  cbn [q_withdraw_and_lend q_lends q_remainingPool q_loan q_interest q_repayment].
  intros Hlends. rewrite Hlends.
  apply andb_true_iff in Hlends. destruct Hlends as [_ Hpos]. apply Qltb_true in Hpos.
  set (pool := available - _) in *.
  set (u := val loanUtilization) in *. set (ir := val (loanInterestRate calcInputs)) in *.
  assert (H1 : 0 <= pool * u) by (apply Qmult_le_0_compat; lra).
  assert (H2 : pool * u <= pool * 100) by (apply Qmult_le_l; lra).
  assert (E1 : pool * u / 100 == pool * u * (1 # 100)) by field.
  assert (H3 : 0 <= pool * u / 100 * ir) by (apply Qmult_le_0_compat; lra).
  assert (E2 : pool * u / 100 * ir / 100 == pool * u / 100 * ir * (1 # 100)) by field.
  repeat split; try lra.
Qed.

End PoolFacts.

Section ExactRun.
Variable calcInputs : CalcInputs xnum.
Variable loanUtilization : xnum.
Hypothesis Hfin : finite_inputs calcInputs loanUtilization.
Hypothesis Hmembers : (0 < totalMembers calcInputs)%Z.
Hypothesis Hnonzero : forall i, ~ q_withdrawal calcInputs i == 0.

(** A run on finite inputs returns; its records and loans are those of
    iterations [0 .. k-1], read in [Q]. *)
Lemma exact_run_shape :
  exists k memberReturns,
    (0 < k <= Z.to_nat (totalMembers calcInputs))%nat /\
    simulate calcInputs loanUtilization = state_entering calcInputs loanUtilization k /\
    member_returns_from (map (record_of calcInputs loanUtilization) (seq 0 k))
                        (map (record_of calcInputs loanUtilization) (seq 0 k)) 1
    = Returned memberReturns /\
    calculateChitDetails calcInputs loanUtilization
    = Returned (details_of calcInputs (state_entering calcInputs loanUtilization k)
                           memberReturns (record_of calcInputs loanUtilization (k - 1))).
Proof.
  destruct (finite_run_returns calcInputs loanUtilization Hfin Hmembers
              (fun i _ => Hnonzero i)) as (mr & lastRecord & Hmr & Hlast & Hcalc).
  destruct (simulate_is_state_entering calcInputs loanUtilization) as (k & Hk & E).
  rewrite E in *. rewrite schedule_of_state_entering in *.
  rewrite length_map, length_seq in Hlast.
  apply nth_error_map_seq in Hlast. destruct Hlast as [Hlt ->].
  exists k, mr. split; [lia|]. split; [reflexivity|]. split; [exact Hmr | exact Hcalc].
Qed.

End ExactRun.


Lemma rounded_sum_near (a b : Q) :
  Qabs (Qround (a + b) - (Qround a + Qround b)) <= 1.
Proof.
  unfold Qround.
  set (za := Qfloor (a + (1 # 2))). set (zb := Qfloor (b + (1 # 2))).
  set (zs := Qfloor (a + b + (1 # 2))).
  pose proof (Qround_near a) as [Ha1 Ha2]. pose proof (Qround_near b) as [Hb1 Hb2].
  pose proof (Qround_near (a + b)) as [Hs1 Hs2].
  unfold Qround in *. fold za in Ha1, Ha2. fold zb in Hb1, Hb2. fold zs in Hs1, Hs2.
  assert (E : inject_Z zs - (inject_Z za + inject_Z zb) == inject_Z (zs - (za + zb))).
  { unfold Z.sub. rewrite !inject_Z_plus, inject_Z_opp, inject_Z_plus. ring. }
  rewrite E.
  assert (Hlo : inject_Z (-2) < inject_Z (zs - (za + zb))).
  { rewrite <- E. change (inject_Z (-2)) with (-(2)). lra. }
  assert (Hhi : inject_Z (zs - (za + zb)) < inject_Z 2).
  { rewrite <- E. change (inject_Z 2) with 2. lra. }
  rewrite <- Zlt_Qlt in Hlo, Hhi.
  apply Qabs_Qle_condition. change (- (1)) with (inject_Z (-1)). change 1 with (inject_Z 1).
  rewrite <- !Zle_Qle. lia.
Qed.


Lemma Qround_eq (a b : Q) : a == b -> Qround a == Qround b.
Proof. intros E. unfold Qround. rewrite E. reflexivity. Qed.

Lemma Qround_zero : Qround 0 == 0.
Proof. reflexivity. Qed.

Lemma Qround_step (a d : Q) : 1 <= d -> Qround a < Qround (a + d).
Proof.
  intros Hd. unfold Qround. rewrite <- Zlt_Qlt.
  assert (H1 : (Qfloor (a + (1 # 2)) + 1 <= Qfloor (a + d + (1 # 2)))%Z).
  { apply Qfloor_ge_integer. rewrite inject_Z_plus. change (inject_Z 1) with 1.
    pose proof (Qfloor_le (a + (1 # 2))). lra. }
  lia.
Qed.

Section SettlementFacts.
Variable calcInputs : CalcInputs xnum.
Variable loanUtilization : xnum.
Hypothesis Hmembers : (0 < totalMembers calcInputs)%Z.

(** A settlement month either needs no contribution at all and pays from
    the carry-over, or collects just what is missing and empties the pool. *)
Lemma q_settlement_shape i s :
  0 < q_withdrawal calcInputs i ->
  is_integer (q_remaining s) ->
  q_isLast (q_locals calcInputs loanUtilization i s) = true ->
  (q_perMember (q_locals calcInputs loanUtilization i s) == 0 /\
   q_contribution (q_locals calcInputs loanUtilization i s) == 0 /\
   q_available (q_locals calcInputs loanUtilization i s)
   == q_effectiveCarryOver (q_locals calcInputs loanUtilization i s)) \/
  (q_remainingPool (q_locals calcInputs loanUtilization i s) == 0 /\
   q_withdrawn (q_locals calcInputs loanUtilization i s)
   == q_available (q_locals calcInputs loanUtilization i s) /\
   0 < q_contribution (q_locals calcInputs loanUtilization i s) /\
   q_perMember (q_locals calcInputs loanUtilization i s)
   < val (monthlyContribution calcInputs)).
Proof.
  intros Hw Hint Hlast.
  pose proof (q_settlement_clears calcInputs loanUtilization Hmembers i s Hw Hint Hlast) as Hact.
  pose proof (q_members_pos calcInputs Hmembers) as HN.
  revert Hlast Hact. unfold q_locals. cbv zeta.
  destruct (Qltb (q_remaining s * q_withdrawal calcInputs i)
                 (q_netPool calcInputs + (q_carry s + q_due s))) eqn:Elast;
    [|cbn [q_withdraw_and_lend q_isLast]; discriminate].
  apply Qltb_true in Elast.
  destruct (Qle_bool (q_remaining s * q_withdrawal calcInputs i - (q_carry s + q_due s)) 0)
    eqn:Ele.
  - intros _ _. left. cbn [q_withdraw_and_lend q_perMember q_contribution q_available
                           q_effectiveCarryOver]. repeat split; reflexivity.
  - apply Qle_bool_false in Ele. intros _ Hact. right.
    revert Hact.
    cbn [q_withdraw_and_lend q_actual q_remainingPool q_withdrawn q_available q_contribution
         q_perMember].
    set (actual := Qmin _ _). intros Hact.
    set (required := q_remaining s * q_withdrawal calcInputs i) in *.
    set (e := q_carry s + q_due s) in *.
    assert (E : (required - e + q_commission calcInputs) / q_members calcInputs
                * q_members calcInputs - q_commission calcInputs == required - e)
      by (field; lra).
    assert (Hpool : q_netPool calcInputs + q_commission calcInputs
                    == q_members calcInputs * val (monthlyContribution calcInputs)).
    { unfold q_netPool, q_totalPool. ring. }
    assert (Hw' : q_withdrawal calcInputs i * actual == required).
    { rewrite Hact. unfold required. ring. }
    split; [rewrite E, Hw'; ring|]. split; [rewrite E, Hw'; ring|]. split; [rewrite E; lra|].
    apply Qlt_shift_div_r; [exact HN|].
    rewrite (Qmult_comm (val (monthlyContribution calcInputs))). lra.
Qed.

End SettlementFacts.


Lemma withdrawalAmount_of_record {num : Type} `{Number num}
      (calcInputs : CalcInputs num) (loanUtilization : num) (n : nat) :
  withdrawalAmount (record_of calcInputs loanUtilization n)
  = Math_round (add (firstWithdrawal calcInputs)
                    (mul (monthlyIncrement calcInputs) (of_Z (Z.of_nat n)))).
Proof.
  unfold record_of, locals_in, month_locals. cbv zeta.
  destruct (ltb _ _); [destruct (leb _ _)|]; reflexivity.
Qed.


Lemma trip_count_integer (x : xnum) (q : Q) (c : nat) :
  is_num x q -> is_integer q -> 0 <= q ->
  trip_count x = Some c -> inject_Z (Z.of_nat c) == q.
Proof.
  intros Hx [z Hz] Hq Hc. destruct (is_num_inv Hx) as (a & -> & Ea).
  cbn in Hc. injection Hc as <-.
  assert (Eaz : a == inject_Z z) by (rewrite Ea; exact Hz).
  assert (Ec : Qceiling a = z).
  { rewrite (Qceiling_comp _ _ Eaz). unfold Qceiling.
    change (- inject_Z z) with (inject_Z (- z)). rewrite Qfloor_Z. lia. }
  rewrite Ec. rewrite Hz in Hq. change 0 with (inject_Z 0) in Hq. rewrite <- Zle_Qle in Hq.
  rewrite Z2Nat.id by exact Hq. symmetry. exact Hz.
Qed.

Section MemberCount.
Variable calcInputs : CalcInputs xnum.
Variable loanUtilization : xnum.
Hypothesis Hfin : finite_inputs calcInputs loanUtilization.
Hypothesis Hmembers : (0 < totalMembers calcInputs)%Z.
Hypothesis Hfirst : 0 < val (firstWithdrawal calcInputs).
Hypothesis Hincrement : 0 <= val (monthlyIncrement calcInputs).
Hypothesis Hnet : 0 <= val (netPoolPerMonth_of calcInputs).
Hypothesis Hlu : 0 <= val loanUtilization.
Hypothesis Hlir : 0 <= val (loanInterestRate calcInputs).

Lemma q_entering_solvent k : solvent (q_entering calcInputs loanUtilization k).
Proof.
  induction k as [|k IH]; cbn [q_entering].
  - split; cbn.
    + pose proof (q_members_pos calcInputs Hmembers). lra.
    + lra.
  - apply q_step_solvent; try assumption.
    + exact (q_netPool_nonneg calcInputs loanUtilization Hfin Hmembers Hnet).
    + apply q_withdrawal_pos; assumption.
Qed.

Lemma member_returns_count ws j : forall a n l,
  member_returns_from ws (map (record_of calcInputs loanUtilization) (seq a j)) n = Returned l ->
  inject_Z (Z.of_nat (length l))
  == q_remaining (q_entering calcInputs loanUtilization a)
     - q_remaining (q_entering calcInputs loanUtilization (a + j)).
Proof.
  induction j as [|j IH]; intros a n l Hl.
  - cbn in Hl. injection Hl as <-. cbn [length]. rewrite Nat.add_0_r. cbn. ring.
  - cbn [seq map] in Hl. apply member_returns_from_split in Hl.
    destruct Hl as (c & later & Hc & Hlater & ->).
    rewrite length_app, length_map, length_seq, Nat2Z.inj_add, inject_Z_plus.
    rewrite (IH _ _ _ Hlater).
    assert (Hnz : forall i, (i <= a)%nat -> ~ q_withdrawal calcInputs i == 0).
    { intros i _ E. pose proof (q_withdrawal_pos calcInputs Hfirst Hincrement i). lra. }
    pose proof (record_of_is calcInputs loanUtilization Hfin Hmembers a Hnz) as Hr.
    cbv beta iota zeta delta [record_is] in Hr.
    destruct Hr as (_ & _ & _ & _ & _ & _ & Hact & _).
    rewrite (trip_count_integer _ _ _ Hact
               (q_actual_integer calcInputs loanUtilization Hmembers a _
                  (q_entering_integer calcInputs loanUtilization Hmembers a))
               (q_actual_nonneg calcInputs loanUtilization Hmembers
                  (q_netPool_nonneg calcInputs loanUtilization Hfin Hmembers Hnet) a _
                  (q_withdrawal_pos calcInputs Hfirst Hincrement a)
                  (q_entering_solvent a)) Hc).
    replace (a + S j)%nat with (S a + j)%nat by lia.
    cbn [q_entering plus]. rewrite q_remaining_step. ring.
Qed.

End MemberCount.


(** ** Member returns in exact arithmetic *)

Section CashFlowFacts.

Lemma q_contributions_cons e (tl : list (MonthRecord xnum)) :
  q_contributions (e :: tl) = val (contributionPerMember e) + q_contributions tl.
Proof. reflexivity. Qed.

Lemma contributions_fold (tl : list (MonthRecord xnum)) : forall acc q,
  is_num acc q ->
  forallb month_record_finite tl = true ->
  is_num (fold_left (fun sum schedule => add sum (contributionPerMember schedule)) tl acc)
         (q + q_contributions tl).
Proof.
  induction tl as [|e tl IH]; intros acc q Hacc Hfin; cbn [fold_left].
  - apply (is_num_eq _ _ _ Hacc). change (q_contributions []) with 0. ring.
  - rewrite q_contributions_cons. cbn [forallb] in Hfin. apply andb_true_iff in Hfin. destruct Hfin as [He Htl].
    destruct (month_record_finite_fields e He) as [_ Hc].
    apply (is_num_eq _ _ _ (IH _ _ (num_add Hacc (is_num_val _ Hc)) Htl)). ring.
Qed.

Lemma total_contribution_is (ws : list (MonthRecord xnum)) :
  forallb month_record_finite ws = true ->
  is_num (totalContributionForAllMembers ws) (q_contributions ws).
Proof.
  intros Hfin. unfold totalContributionForAllMembers.
  apply (is_num_eq _ _ _ (contributions_fold ws _ _ (num_of_Z 0) Hfin)).
  change (inject_Z 0) with 0. ring.
Qed.

Variable schedule : MonthRecord xnum.
Hypothesis Hschedule : month_record_finite schedule = true.

Lemma cashFlows_fold (tl : list (MonthRecord xnum)) : forall o acc q,
  is_num acc q ->
  forallb month_record_finite tl = true ->
  is_num (fold_left add
            (map (fun '(month0, entry) =>
                    if Nat.eqb (month0 + 1) (month schedule)
                    then add (withdrawalAmount schedule) (neg (contributionPerMember entry))
                    else neg (contributionPerMember entry))
                 (combine (seq o (length tl)) tl)) acc)
         (q + (if (Nat.leb (o + 1) (month schedule)
                   && Nat.ltb (month schedule) (o + 1 + length tl))%bool
               then val (withdrawalAmount schedule) else 0)
            - q_contributions tl).
Proof.
  destruct (month_record_finite_fields schedule Hschedule) as [Hw _].
  induction tl as [|e tl IH]; intros o acc q Hacc Hfin;
    cbn [length seq combine map fold_left].
  - apply (is_num_eq _ _ _ Hacc). change (q_contributions []) with 0.
    replace (Nat.leb (o + 1) (month schedule) && Nat.ltb (month schedule) (o + 1 + 0))%bool
      with false.
    + ring.
    + symmetry. apply andb_false_iff.
      destruct (Nat.leb (o + 1) (month schedule)) eqn:E1; [right | left; reflexivity].
      apply Nat.leb_le in E1. apply Nat.ltb_ge. lia.
  - rewrite q_contributions_cons.
    cbn [forallb] in Hfin. apply andb_true_iff in Hfin. destruct Hfin as [He Htl].
    destruct (month_record_finite_fields e He) as [_ Hc].
    destruct (Nat.eqb (o + 1) (month schedule)) eqn:Eo.
    + apply Nat.eqb_eq in Eo.
      apply (is_num_eq _ _ _
               (IH (S o) _ _ (num_add Hacc (num_add (is_num_val _ Hw)
                                                    (num_neg (is_num_val _ Hc)))) Htl)).
      replace (Nat.leb (S o + 1) (month schedule)) with false
        by (symmetry; apply Nat.leb_gt; lia).
      replace (Nat.leb (o + 1) (month schedule)) with true
        by (symmetry; apply Nat.leb_le; lia).
      replace (Nat.ltb (month schedule) (o + 1 + S (length tl))) with true
        by (symmetry; apply Nat.ltb_lt; lia).
      cbn [andb]. ring.
    + apply Nat.eqb_neq in Eo.
      apply (is_num_eq _ _ _ (IH (S o) _ _ (num_add Hacc (num_neg (is_num_val _ Hc))) Htl)).
      replace (Nat.leb (S o + 1) (month schedule) &&
               Nat.ltb (month schedule) (S o + 1 + length tl))%bool
        with (Nat.leb (o + 1) (month schedule) &&
              Nat.ltb (month schedule) (o + 1 + S (length tl)))%bool.
      * ring.
      * destruct (Nat.leb (o + 1) (month schedule)) eqn:E1;
          destruct (Nat.leb (S o + 1) (month schedule)) eqn:E2;
          destruct (Nat.ltb (month schedule) (o + 1 + S (length tl))) eqn:E3;
          destruct (Nat.ltb (month schedule) (S o + 1 + length tl)) eqn:E4;
          try reflexivity; exfalso;
          rewrite ?Nat.leb_le, ?Nat.leb_gt, ?Nat.ltb_lt, ?Nat.ltb_ge in *; lia.
Qed.

Lemma cashFlows_sum (ws : list (MonthRecord xnum)) :
  forallb month_record_finite ws = true ->
  (1 <= month schedule <= length ws)%nat ->
  is_num (sum_of (cashFlows_of ws schedule))
         (val (withdrawalAmount schedule) - q_contributions ws).
Proof.
  intros Hfin Hmonth. unfold sum_of, cashFlows_of.
  apply (is_num_eq _ _ _ (cashFlows_fold ws 0%nat _ _ (num_of_Z 0) Hfin)).
  replace (Nat.leb (0 + 1) (month schedule)) with true by (symmetry; apply Nat.leb_le; lia).
  replace (Nat.ltb (month schedule) (0 + 1 + length ws)) with true
    by (symmetry; apply Nat.ltb_lt; lia).
  cbn [andb]. change (inject_Z 0) with 0. ring.
Qed.

End CashFlowFacts.



(** ** The balance of the pool *)

Lemma sum_of_seq (g : nat -> xnum) (f : nat -> Q) k :
  (forall i, (i < k)%nat -> is_num (g i) (f i)) ->
  is_num (sum_of (map g (seq 0 k))) (q_sum f k).
Proof.
  induction k as [|k IH]; intros Hg.
  - cbn. reflexivity.
  - rewrite seq_S, map_app. unfold sum_of. rewrite fold_left_app.
    cbn [map fold_left q_sum plus].
    apply num_add; [apply IH; intros i Hi; apply Hg; lia | apply Hg; lia].
Qed.

Section Conservation.
Variable calcInputs : CalcInputs xnum.
Variable loanUtilization : xnum.

(** What a period leaves for the next is what it found, plus what it
    collected and earned, minus what it paid out. *)
Lemma q_step_balance i s :
  q_carry (q_step calcInputs loanUtilization i s) + q_due (q_step calcInputs loanUtilization i s)
  == q_carry s + q_due s
     + q_contribution (q_locals calcInputs loanUtilization i s)
     + q_interest (q_locals calcInputs loanUtilization i s)
     - q_withdrawn (q_locals calcInputs loanUtilization i s).
Proof.
  unfold q_step. cbn [q_carry q_due]. unfold q_locals. cbv zeta.
  destruct (Qltb _ _); [destruct (Qle_bool _ _)|];
    cbn [q_withdraw_and_lend q_remainingPool q_loan q_repayment q_contribution q_interest
         q_withdrawn];
    match goal with |- context [if ?c then _ else _] => destruct c end; ring.
Qed.

Lemma q_balance k :
  q_sum (fun i => q_contribution (q_locals_in calcInputs loanUtilization i)) k
  + q_sum (fun i => q_interest (q_locals_in calcInputs loanUtilization i)) k
  == q_sum (fun i => q_withdrawn (q_locals_in calcInputs loanUtilization i)) k
     + (q_carry (q_entering calcInputs loanUtilization k)
        + q_due (q_entering calcInputs loanUtilization k)).
Proof.
  induction k as [|k IH]; cbn [q_sum q_entering].
  - cbn. ring.
  - rewrite q_step_balance. unfold q_locals_in in *. cbv beta in *. lra.
Qed.

End Conservation.


Close Scope Q_scope.

(** ** Printed amounts *)

Section StringFacts.
Import String.

Lemma length_append_string (a b : string) :
  String.length (append a b) = (String.length a + String.length b)%nat.
Proof. induction a as [|c a IH]; cbn; [reflexivity | rewrite IH; reflexivity]. Qed.

Lemma substring_split (s : string) : forall a,
  (a <= String.length s)%nat ->
  append (substring 0 a s) (substring a (String.length s - a) s) = s.
Proof.
  induction s as [|c s IH]; intros a Ha.
  - cbn in Ha. replace a with 0%nat by lia. reflexivity.
  - destruct a as [|a].
    + cbn [substring append String.length Nat.sub]. f_equal.
      specialize (IH 0%nat (Nat.le_0_l _)). cbn [append] in IH.
      rewrite Nat.sub_0_r in IH.
      destruct s; [reflexivity|]. cbn [substring append] in IH. exact IH.
    + cbn [substring append String.length Nat.sub]. f_equal. apply IH. cbn in Ha. lia.
Qed.

Lemma digits_only_append (a b : string) :
  digits_only (append a b) = digits_only a && digits_only b.
Proof.
  induction a as [|c a IH]; cbn [append digits_only]; [reflexivity|].
  rewrite IH, andb_assoc. reflexivity.
Qed.

Lemma digits_only_substring (s : string) : forall i j,
  digits_only s = true -> digits_only (substring i j s) = true.
Proof.
  induction s as [|c s IH]; intros i j Hs.
  - destruct i, j; reflexivity.
  - cbn [digits_only] in Hs. apply andb_true_iff in Hs. destruct Hs as [Hc Hs].
    destruct i as [|i]; [destruct j as [|j]|]; cbn [substring digits_only].
    + reflexivity.
    + rewrite Hc. apply IH. exact Hs.
    + apply IH. exact Hs.
Qed.

Lemma digits_only_zeros k : digits_only (zeros k) = true.
Proof. induction k as [|k IH]; [reflexivity|]. cbn [zeros append digits_only]. exact IH. Qed.

Lemma digits_only_uint d : digits_only (DecimalString.NilEmpty.string_of_uint d) = true.
Proof. induction d; cbn [DecimalString.NilEmpty.string_of_uint digits_only]; auto. Qed.

Lemma digit_is_no_point c :
  Nat.leb 48 (Ascii.nat_of_ascii c) && Nat.leb (Ascii.nat_of_ascii c) 57 = true ->
  Ascii.eqb c "."%char = false.
Proof.
  intros Hc. apply Ascii.eqb_neq. intros ->. cbn in Hc. discriminate Hc.
Qed.

Lemma without_point_digits (s : string) : digits_only s = true -> without_point s = s.
Proof.
  induction s as [|c s IH]; intros Hs; [reflexivity|].
  cbn [digits_only] in Hs. apply andb_true_iff in Hs. destruct Hs as [Hc Hs].
  cbn [without_point]. rewrite (digit_is_no_point c Hc), (IH Hs). reflexivity.
Qed.

Lemma without_point_append (a b : string) :
  without_point (append a b) = append (without_point a) (without_point b).
Proof.
  induction a as [|c a IH]; cbn [append without_point]; [reflexivity|].
  destruct (Ascii.eqb c "."%char); [exact IH|]. cbn [append]. rewrite IH. reflexivity.
Qed.

Lemma after_point_append (a b : string) :
  digits_only a = true -> after_point (append a (String "."%char b)) = Some b.
Proof.
  induction a as [|c a IH]; intros Ha; [reflexivity|].
  cbn [digits_only] in Ha. apply andb_true_iff in Ha. destruct Ha as [Hc Ha].
  cbn [append after_point]. rewrite (digit_is_no_point c Hc). apply IH. exact Ha.
Qed.

Lemma length_substring (s : string) : forall i j,
  (i + j <= String.length s)%nat -> String.length (substring i j s) = j.
Proof.
  induction s as [|c s IH]; intros i j Hij.
  - cbn in Hij. destruct i, j; try lia; reflexivity.
  - destruct i as [|i]; [destruct j as [|j]|]; cbn [substring String.length].
    + reflexivity.
    + f_equal. apply IH. cbn in Hij. lia.
    + apply IH. cbn in Hij. lia.
Qed.

Lemma uint_of_zeros k d :
  DecimalString.NilEmpty.uint_of_string
    (append (zeros k) (DecimalString.NilEmpty.string_of_uint d))
  = Some (Nat.iter k Decimal.D0 d).
Proof.
  induction k as [|k IH]; cbn [zeros append Nat.iter].
  - apply DecimalString.NilEmpty.usu.
  - cbn [DecimalString.NilEmpty.uint_of_string]. rewrite IH. reflexivity.
Qed.

Lemma of_uint_zeros k d : N.of_uint (Nat.iter k Decimal.D0 d) = N.of_uint d.
Proof. induction k as [|k IH]; [reflexivity|]. cbn [Nat.iter]. exact IH. Qed.

End StringFacts.

(** Reading back what [toFixed] prints with [f >= 1] decimals. *)
Lemma fixed_value_notation (n : Z) (f : nat) :
  (0 <= n)%Z -> (0 < f)%nat ->
  fixed_value (fixed_notation false n f)
  = Some (inject_Z n / inject_Z (10 ^ Z.of_nat f))%Q.
Proof.
  intros Hn Hf. unfold fixed_notation. destruct f as [|f']; [lia|].
  set (f := S f') in *. cbv zeta. cbn [String.append].
  set (d := N.to_uint (Z.to_N n)). unfold digits_of. fold d.
  set (m := DecimalString.NilEmpty.string_of_uint d).
  set (j := if Nat.leb (String.length m) f then (f + 1 - String.length m)%nat else 0%nat).
  assert (Em : (if Nat.leb (String.length m) f then String.append (zeros (f + 1 - String.length m)) m
                else m) = String.append (zeros j) m).
  { unfold j. destruct (Nat.leb (String.length m) f); reflexivity. }
  rewrite Em. set (m' := String.append (zeros j) m).
  assert (Hlen : (f < String.length m')%nat).
  { unfold m'. rewrite length_append_string.
    assert (Hz : forall k, String.length (zeros k) = k).
    { induction k as [|k IH]; [reflexivity|]. cbn. rewrite IH. reflexivity. }
    rewrite Hz. unfold j. destruct (Nat.leb (String.length m) f) eqn:E.
    - apply Nat.leb_le in E. lia.
    - apply Nat.leb_gt in E. lia. }
  assert (Hdig : digits_only m' = true).
  { unfold m'. rewrite digits_only_append, digits_only_zeros. apply digits_only_uint. }
  set (k := String.length m') in *.
  assert (Esplit : String.append (String.substring 0 (k - f) m') (String.substring (k - f) f m') = m').
  { pose proof (substring_split m' (k - f)) as E. fold k in E.
    replace (k - (k - f))%nat with f in E by lia. apply E. lia. }
  unfold fixed_value.
  rewrite without_point_append. cbn [without_point String.append].
  change (Ascii.eqb "."%char "."%char) with true. cbv iota.
  rewrite !without_point_digits by (apply digits_only_substring; exact Hdig).
  rewrite Esplit.
  rewrite after_point_append by (apply digits_only_substring; exact Hdig).
  rewrite length_substring by (fold k; lia).
  unfold m', m. rewrite uint_of_zeros, of_uint_zeros.
  unfold d. rewrite DecimalN.Unsigned.of_to, Z2N.id by exact Hn. reflexivity.
Qed.

Open Scope Q_scope.

Lemma toFixed_Q_eq (a b : Q) (f : nat) : a == b -> toFixed_Q a f = toFixed_Q b f.
Proof.
  intros E. unfold toFixed_Q.
  assert (E1 : Qle_bool (inject_Z (10 ^ 21)) (Qabs a) = Qle_bool (inject_Z (10 ^ 21)) (Qabs b))
    by (rewrite E; reflexivity).
  assert (E2 : Qle_bool 0 a = Qle_bool 0 b) by (rewrite E; reflexivity).
  assert (E3 : Qfloor (Qabs a * inject_Z (10 ^ Z.of_nat f) + (1 # 2))
               = Qfloor (Qabs b * inject_Z (10 ^ Z.of_nat f) + (1 # 2)))
    by (rewrite E; reflexivity).
  rewrite E1, E2, E3. reflexivity.
Qed.

Lemma toFixed_Q_nonneg (y : Q) (f : nat) :
  0 <= y -> y < inject_Z (10 ^ 21) ->
  toFixed_Q y f
  = Some (fixed_notation false (Qfloor (y * inject_Z (10 ^ Z.of_nat f) + (1 # 2))) f).
Proof.
  intros H0 H1. unfold toFixed_Q.
  assert (E3 : Qfloor (Qabs y * inject_Z (10 ^ Z.of_nat f) + (1 # 2))
               = Qfloor (y * inject_Z (10 ^ Z.of_nat f) + (1 # 2)))
    by (rewrite (Qabs_pos y H0); reflexivity).
  rewrite E3.
  replace (Qle_bool (inject_Z (10 ^ 21)) (Qabs y)) with false
    by (symmetry; apply Qle_bool_false; rewrite (Qabs_pos y H0); exact H1).
  replace (Qle_bool 0 y) with true by (symmetry; apply Qle_bool_iff; exact H0).
  reflexivity.
Qed.

Lemma toFixed_Q_negative (y : Q) (f : nat) :
  y < 0 -> - inject_Z (10 ^ 21) < y ->
  toFixed_Q y f
  = Some (fixed_notation true (Qfloor (- y * inject_Z (10 ^ Z.of_nat f) + (1 # 2))) f).
Proof.
  intros H0 H1. unfold toFixed_Q.
  assert (Hneg : y <= 0) by lra.
  assert (E3 : Qfloor (Qabs y * inject_Z (10 ^ Z.of_nat f) + (1 # 2))
               = Qfloor (- y * inject_Z (10 ^ Z.of_nat f) + (1 # 2)))
    by (rewrite (Qabs_neg y Hneg); reflexivity).
  rewrite E3.
  replace (Qle_bool (inject_Z (10 ^ 21)) (Qabs y)) with false
    by (symmetry; apply Qle_bool_false; rewrite (Qabs_neg y Hneg); lra).
  replace (Qle_bool 0 y) with false by (symmetry; apply Qle_bool_false; exact H0).
  reflexivity.
Qed.

Lemma Qfloor_between (q : Q) (z : Z) :
  inject_Z z <= q -> q < inject_Z (z + 1) -> Qfloor q = z.
Proof.
  intros H0 H1.
  pose proof (Qfloor_ge_integer z q H0) as Hge.
  assert (Hlt : (Qfloor q < z + 1)%Z).
  { rewrite Zlt_Qlt. pose proof (Qfloor_le q). lra. }
  lia.
Qed.

Lemma toFixed_div (x : Q) (c : Z) :
  (0 < c)%Z ->
  toFixed (div (Fin x) (of_Z c)) 2 = toFixed_Q (x / inject_Z c) 2.
Proof.
  intros Hc.
  assert (Hnz : ~ inject_Z c == 0).
  { change 0 with (inject_Z 0). rewrite inject_Z_injective. lia. }
  destruct (is_num_inv (num_div (is_num_Fin x) (num_of_Z c) Hnz)) as (a & -> & Ea).
  cbn [toFixed xnum_Printable xtoFixed]. apply toFixed_Q_eq. exact Ea.
Qed.

Lemma all_from_spec (p : Z -> bool) n : forall k,
  all_from n k p = true -> forall z, (k <= z < k + Z.of_nat n)%Z -> p z = true.
Proof.
  induction n as [|n IH]; intros k Hall z Hz; [lia|].
  cbn [all_from] in Hall. apply andb_true_iff in Hall. destruct Hall as [Hk Hrest].
  destruct (Z.eq_dec z k) as [->|Hne]; [exact Hk|].
  apply (IH (k + 1)%Z Hrest). lia.
Qed.

Lemma option_string_eqb_eq a b : option_string_eqb a b = true -> a = b.
Proof.
  destruct a as [s|], b as [t|]; cbn; try discriminate; [|reflexivity].
  intros E. apply String.eqb_eq in E. congruence.
Qed.

(** The integer [k] as [toFixed(0)] prints it. *)
Lemma integers_in_full_binary64 :
  all_from 1999 (-999)
    (fun k => option_string_eqb
                (@formatIndianCurrency b64 _ _ (of_Z k))
                (Some (String.append (if (k <? 0)%Z then "-" else "")%string
                                     (digits_of (Z.abs k))))) = true.
Proof. vm_compute. reflexivity. Qed.

(** X17 (amounts printed in full).  [formatIndianCurrency] prints an
    integer [k] below 1000, negative ones of any size down to -10^21
    included, as its decimal numeral without a unit: in exact arithmetic
    for every such [k], and in binary64 for [-1000 < k < 1000]. *)
Theorem amounts_below_a_thousand_in_full (k : Z) :
  (- 10 ^ 21 < k < 1000)%Z ->
  @formatIndianCurrency xnum _ _ (of_Z k)
  = Some (String.append (if (k <? 0)%Z then "-" else "")%string (digits_of (Z.abs k))) /\
  ((- 1000 < k)%Z ->
   @formatIndianCurrency b64 _ _ (of_Z k)
   = Some (String.append (if (k <? 0)%Z then "-" else "")%string (digits_of (Z.abs k)))).
Proof.
  intros [Hlo Hhi]. split.
  - unfold formatIndianCurrency.
    change (@of_Z xnum _ k) with (Fin (inject_Z k)).
    rewrite !(num_leb (num_of_Z _) (is_num_Fin (inject_Z k))).
    replace (Qle_bool (inject_Z 10000000) (inject_Z k)) with false
      by (symmetry; apply Qle_bool_false; rewrite <- Zlt_Qlt; lia).
    replace (Qle_bool (inject_Z 100000) (inject_Z k)) with false
      by (symmetry; apply Qle_bool_false; rewrite <- Zlt_Qlt; lia).
    replace (Qle_bool (inject_Z 1000) (inject_Z k)) with false
      by (symmetry; apply Qle_bool_false; rewrite <- Zlt_Qlt; lia).
    cbn [toFixed xnum_Printable xtoFixed].
    destruct (k <? 0)%Z eqn:Ek.
    + apply Z.ltb_lt in Ek.
      rewrite toFixed_Q_negative.
      * assert (En : Qfloor (- inject_Z k * inject_Z (10 ^ Z.of_nat 0) + (1 # 2)) = Z.abs k).
        { replace (Z.abs k) with (- k)%Z by lia.
          change (10 ^ Z.of_nat 0)%Z with 1%Z. change (inject_Z 1) with 1.
          apply Qfloor_between; rewrite ?inject_Z_plus, inject_Z_opp;
            change (inject_Z 1) with 1; lra. }
        rewrite En. reflexivity.
      * change 0 with (inject_Z 0). rewrite <- Zlt_Qlt. exact Ek.
      * rewrite <- inject_Z_opp, <- Zlt_Qlt. exact Hlo.
    + apply Z.ltb_ge in Ek.
      rewrite toFixed_Q_nonneg.
      * assert (En : Qfloor (inject_Z k * inject_Z (10 ^ Z.of_nat 0) + (1 # 2)) = Z.abs k).
        { replace (Z.abs k) with k by lia.
          change (10 ^ Z.of_nat 0)%Z with 1%Z. change (inject_Z 1) with 1.
          apply Qfloor_between; rewrite ?inject_Z_plus; change (inject_Z 1) with 1; lra. }
        rewrite En. reflexivity.
      * change 0 with (inject_Z 0). rewrite <- Zle_Qle. exact Ek.
      * rewrite <- Zlt_Qlt. lia.
  - intros Hk. apply option_string_eqb_eq.
    apply (all_from_spec _ _ _ integers_in_full_binary64 k). lia.
Qed.

(** An amount of at least 1000 in exact arithmetic: the unit and what
    [toFixed(2)] prints of the amount divided by the size of the unit. *)
Lemma format_in_unit (x : Q) :
  inject_Z 1000 <= x ->
  @formatIndianCurrency xnum _ _ (Fin x)
  = with_unit (unit_name x) (toFixed_Q (x / unit_size x) 2).
Proof.
  intros Hx. unfold formatIndianCurrency, unit_name, unit_size.
  rewrite !(num_leb (num_of_Z _) (is_num_Fin x)).
  destruct (Qle_bool (inject_Z 10000000) x); [rewrite toFixed_div by lia; reflexivity|].
  destruct (Qle_bool (inject_Z 100000) x); [rewrite toFixed_div by lia; reflexivity|].
  replace (Qle_bool (inject_Z 1000) x) with true by (symmetry; apply Qle_bool_iff; exact Hx).
  rewrite toFixed_div by lia. reflexivity.
Qed.

Lemma unit_size_bounds (x : Q) :
  inject_Z 1000 <= x -> x < inject_Z (10 ^ 28) ->
  0 < unit_size x /\ unit_size x <= x /\ x < unit_size x * inject_Z (10 ^ 21).
Proof.
  intros H0 H1. unfold unit_size.
  change (inject_Z (10 ^ 28)) with (inject_Z 10000000 * inject_Z (10 ^ 21)) in H1.
  destruct (Qle_bool (inject_Z 10000000) x) eqn:E1.
  - apply Qle_bool_iff in E1. split; [reflexivity|]. split; assumption.
  - apply Qle_bool_false in E1. change (inject_Z 10000000) with 10000000 in E1.
    destruct (Qle_bool (inject_Z 100000) x) eqn:E2.
    + apply Qle_bool_iff in E2. split; [reflexivity|]. split; [exact E2|].
      change (inject_Z 100000 * inject_Z (10 ^ 21)) with (inject_Z (10 ^ 26)).
      change (inject_Z (10 ^ 26)) with 100000000000000000000000000. lra.
    + split; [reflexivity|]. split; [exact H0|].
      change (inject_Z 1000 * inject_Z (10 ^ 21)) with (inject_Z (10 ^ 24)).
      change (inject_Z (10 ^ 24)) with 1000000000000000000000000. lra.
Qed.


Lemma just_below_a_lakh_binary64 :
  all_from 5 99995
    (fun k => option_string_eqb (@formatIndianCurrency b64 _ _ (of_Z k))
                                (Some "100.00 K"%string)) = true.
Proof. vm_compute. reflexivity. Qed.

Lemma just_below_a_crore_binary64 :
  all_from 500 9999500
    (fun k => option_string_eqb (@formatIndianCurrency b64 _ _ (of_Z k))
                                (Some "100.00 L"%string)) = true.
Proof. vm_compute. reflexivity. Qed.

Lemma prints_a_hundred (x : Q) :
  inject_Z 1000 <= x ->
  inject_Z 9999 + (1 # 2) <= x / unit_size x * 100 ->
  x / unit_size x * 100 < inject_Z 10000 ->
  @formatIndianCurrency xnum _ _ (Fin x)
  = Some (String.append "100.00 " (unit_name x)).
Proof.
  intros H0 Hlo Hhi. rewrite (format_in_unit x H0).
  rewrite toFixed_Q_nonneg.
  - change (inject_Z (10 ^ Z.of_nat 2)) with 100.
    rewrite (Qfloor_between _ 10000).
    + reflexivity.
    + change (inject_Z 9999) with 9999 in Hlo. change (inject_Z 10000) with 10000. lra.
    + change (inject_Z 10000) with 10000 in Hhi. change (inject_Z (10000 + 1)) with 10001. lra.
  - change (inject_Z 9999) with 9999 in Hlo. lra.
  - change (inject_Z 10000) with 10000 in Hhi.
    change (inject_Z (10 ^ 21)) with 1000000000000000000000. lra.
Qed.

(** X19 (just below the next unit).  The unit is chosen before rounding: an
    integer amount from 99995 to 99999 is printed as [100.00 K], and one
    from 9999500 to 9999999 as [100.00 L], in exact arithmetic and in
    binary64. *)
Theorem amounts_just_below_the_next_unit (k : Z) :
  (99995 <= k < 100000)%Z \/ (9999500 <= k < 10000000)%Z ->
  @formatIndianCurrency xnum _ _ (of_Z k)
  = Some (String.append "100.00 " (if (k <? 100000)%Z then "K" else "L"))%string /\
  @formatIndianCurrency b64 _ _ (of_Z k)
  = Some (String.append "100.00 " (if (k <? 100000)%Z then "K" else "L"))%string.
Proof.
  intros Hk. split.
  - change (@of_Z xnum _ k) with (Fin (inject_Z k)).
    assert (Hname : unit_name (inject_Z k) = (if (k <? 100000)%Z then "K" else "L")%string /\
                    unit_size (inject_Z k)
                    = if (k <? 100000)%Z then inject_Z 1000 else inject_Z 100000).
    { unfold unit_name, unit_size.
      replace (Qle_bool (inject_Z 10000000) (inject_Z k)) with false
        by (symmetry; apply Qle_bool_false; rewrite <- Zlt_Qlt; lia).
      destruct (k <? 100000)%Z eqn:E.
      - apply Z.ltb_lt in E.
        replace (Qle_bool (inject_Z 100000) (inject_Z k)) with false
          by (symmetry; apply Qle_bool_false; rewrite <- Zlt_Qlt; lia).
        split; reflexivity.
      - apply Z.ltb_ge in E.
        replace (Qle_bool (inject_Z 100000) (inject_Z k)) with true
          by (symmetry; apply Qle_bool_iff; rewrite <- Zle_Qle; lia).
        split; reflexivity. }
    destruct Hname as [Hname Hsize]. rewrite <- Hname.
    assert (Hk1 : inject_Z 1000 <= inject_Z k) by (rewrite <- Zle_Qle; lia).
    apply prints_a_hundred; [exact Hk1| |]; rewrite Hsize.
    + destruct Hk as [Hk|Hk].
      * replace (k <? 100000)%Z with true by (symmetry; apply Z.ltb_lt; lia).
        assert (H : inject_Z 99995 <= inject_Z k) by (rewrite <- Zle_Qle; lia).
        change (inject_Z 99995) with 99995 in H. change (inject_Z 9999) with 9999.
        change (inject_Z 1000) with 1000.
        assert (E : inject_Z k / 1000 * 100 == inject_Z k * (1 # 10)) by field. lra.
      * replace (k <? 100000)%Z with false by (symmetry; apply Z.ltb_ge; lia).
        assert (H : inject_Z 9999500 <= inject_Z k) by (rewrite <- Zle_Qle; lia).
        change (inject_Z 9999500) with 9999500 in H. change (inject_Z 9999) with 9999.
        change (inject_Z 100000) with 100000.
        assert (E : inject_Z k / 100000 * 100 == inject_Z k * (1 # 1000)) by field. lra.
    + destruct Hk as [Hk|Hk].
      * replace (k <? 100000)%Z with true by (symmetry; apply Z.ltb_lt; lia).
        assert (H : inject_Z k < inject_Z 100000) by (rewrite <- Zlt_Qlt; lia).
        change (inject_Z 100000) with 100000 in H. change (inject_Z 10000) with 10000.
        change (inject_Z 1000) with 1000.
        assert (E : inject_Z k / 1000 * 100 == inject_Z k * (1 # 10)) by field. lra.
      * replace (k <? 100000)%Z with false by (symmetry; apply Z.ltb_ge; lia).
        assert (H : inject_Z k < inject_Z 10000000) by (rewrite <- Zlt_Qlt; lia).
        change (inject_Z 10000000) with 10000000 in H. change (inject_Z 10000) with 10000.
        change (inject_Z 100000) with 100000.
        assert (E : inject_Z k / 100000 * 100 == inject_Z k * (1 # 1000)) by field. lra.
  - destruct Hk as [Hk|Hk].
    + replace (k <? 100000)%Z with true by (symmetry; apply Z.ltb_lt; lia).
      apply option_string_eqb_eq.
      apply (all_from_spec _ _ _ just_below_a_lakh_binary64 k). lia.
    + replace (k <? 100000)%Z with false by (symmetry; apply Z.ltb_ge; lia).
      apply option_string_eqb_eq.
      apply (all_from_spec _ _ _ just_below_a_crore_binary64 k). lia.
Qed.

Close Scope Q_scope.

(** ** Instances of the further theorems *)

(** The shape of a schedule for three members, in binary64. *)
Lemma schedule_shape_witness :
  exists r,
    calculateChitDetails (@fractional_commission_inputs b64 _) (of_Z 50) = Returned r /\
    duration r = 3%nat /\
    map month (withdrawalSchedule r) = seq 1 (duration r).
Proof.
  eexists. split; [vm_compute; reflexivity|]. split; [reflexivity|].
  refine (proj1 (proj2 (proj2 (proj2
            (schedule_shape (@fractional_commission_inputs b64 _) (of_Z 50) _ _))))).
  vm_compute. reflexivity.
Defined.

(** The loans of a schedule for three members, in binary64. *)
Lemma loans_only_before_settlement_witness :
  exists r,
    calculateChitDetails (@fractional_commission_inputs b64 _) (of_Z 50) = Returned r /\
    (length (loanDetails r) <= duration r)%nat /\
    StronglySorted lt (map loan_month (loanDetails r)).
Proof.
  eexists. split; [vm_compute; reflexivity|].
  match goal with
  | |- (length (loanDetails ?r) <= _)%nat /\ _ =>
      destruct (loans_only_before_settlement (@fractional_commission_inputs b64 _) (of_Z 50) r)
        as (Hlen & Hsorted & _)
  end.
  - vm_compute. reflexivity.
  - split; [exact Hlen | exact Hsorted].
Defined.

(** The members of a schedule for three members, in binary64. *)
Lemma members_numbered_in_order_witness :
  exists r,
    calculateChitDetails (@fractional_commission_inputs b64 _) (of_Z 50) = Returned r /\
    map member (memberReturns r) = seq 1 (length (memberReturns r)).
Proof.
  eexists. split; [vm_compute; reflexivity|].
  refine (proj1 (members_numbered_in_order (@fractional_commission_inputs b64 _) (of_Z 50) _ _)).
  vm_compute. reflexivity.
Defined.

(** Without members the earlier version raises, in binary64. *)
Lemma legacy_raises_without_members_witness :
  legacy_calculateChitDetails
    {| totalMembers := 0; monthlyContribution := of_Z 5000;
       firstWithdrawal := of_Z 80000; monthlyIncrement := of_Z 1000;
       commissionType := monthly; commissionRate := of_Z 5;
       oneTimeCommission := of_Z 10000; loanInterestRate := of_Z 2 |}
    (@of_Z b64 _ 50) = TypeError.
Proof. apply legacy_raises_without_members. simpl. lia. Defined.

(** The two versions on a schedule for three members, in binary64. *)
Lemma legacy_agrees_with_members_witness :
  exists r,
    calculateChitDetails (@fractional_commission_inputs b64 _) (of_Z 50) = Returned r /\
    legacy_calculateChitDetails (@fractional_commission_inputs b64 _) (of_Z 50)
    = Returned (without_memberReturns r).
Proof.
  eexists. split; [vm_compute; reflexivity|].
  apply legacy_agrees_with_members; [reflexivity | vm_compute; reflexivity].
Defined.

(** The rate of [[-100, 101]], in binary64. *)
Lemma irr_result_meets_tolerance_witness :
  exists rate,
    calculateIRR_with [@of_Z b64 _ (-100); of_Z 101] 100 default_tolerance = Some rate /\
    ltb (Math_abs (npv_from rate [@of_Z b64 _ (-100); of_Z 101] 0 (of_Z 0))) default_tolerance
    = true.
Proof.
  eexists. split; [vm_compute; reflexivity|].
  apply (irr_result_meets_tolerance _ 100%nat). vm_compute. reflexivity.
Defined.

(** The rate of [[-100, 101]], in exact arithmetic, is 0.01. *)
Lemma irr_result_is_in_bracket_witness :
  is_finite (@decimal xnum _ 1 100) = true /\
  (- (99 # 100) <= val (@decimal xnum _ 1 100) <= 10)%Q /\
  is_finite (npv_from (decimal 1 100) [@of_Z xnum _ (-100); of_Z 101] 0 (of_Z 0)) = true.
Proof.
  apply (irr_result_is_in_bracket [of_Z (-100); of_Z 101] 100 default_tolerance).
  - repeat constructor.
  - reflexivity.
  - reflexivity.
  - vm_compute. reflexivity.
Defined.

(** A tolerance of 0 is never met. *)
Lemma irr_needs_positive_tolerance_witness :
  calculateIRR_with [@of_Z xnum _ (-100); of_Z 101] 100 (of_Z 0) = None.
Proof. apply irr_needs_positive_tolerance. reflexivity. Defined.

Ltac default_hypotheses := vm_compute; first [reflexivity | discriminate].






Lemma default_withdrawals_nonzero :
  forall i, ~ (q_withdrawal (@default_inputs xnum _) i == 0)%Q.
Proof.
  intros i E.
  pose proof (q_withdrawal_pos (@default_inputs xnum _) eq_refl
                ltac:(vm_compute; discriminate) i) as Hpos.
  rewrite E in Hpos. discriminate Hpos.
Defined.




(** 999 and -5000000 are printed in full. *)
Lemma amounts_below_a_thousand_in_full_witness :
  @formatIndianCurrency xnum _ _ (of_Z (-5000000)) = Some "-5000000"%string /\
  @formatIndianCurrency b64 _ _ (of_Z 999) = Some "999"%string.
Proof.
  split.
  - apply (proj1 (amounts_below_a_thousand_in_full (-5000000) ltac:(lia))).
  - apply (proj2 (amounts_below_a_thousand_in_full 999 ltac:(lia))). lia.
Defined.

(** 99999 is printed as 100.00 K. *)
Lemma amounts_just_below_the_next_unit_witness :
  @formatIndianCurrency xnum _ _ (of_Z 99999) = Some "100.00 K"%string /\
  @formatIndianCurrency b64 _ _ (of_Z 99999) = Some "100.00 K"%string.
Proof. apply (amounts_just_below_the_next_unit 99999). left. lia. Defined.

